(** * QuantLib: the bisection solver, the observer graph and derived curves

    A shallow embedding of [ql/Solvers1D/bisection.hpp] and of the term
    structure properties exercised by [test-suite/termstructures.cpp].

    The solver is embedded over an abstract arithmetic: [Real] is a
    typedef of the library whose declaration is not part of the
    sources, so its operations are a type class, of which
    IEEE binary64 (the kernel's primitive floats) is the instance the
    code is run on.  Where a property depends on rounding it is proved
    for binary64, from the specification of its operations
    ([SpecFloat]); rational numbers serve to state the value of a
    float and the size of a rounding error. *)

From Stdlib Require Import ZArith NArith QArith Qabs Qpower Lqa Lia List Bool.
From Stdlib Require Import Floats.
Import ListNotations.

Set Implicit Arguments.
Set Warnings "-inexact-float".

Close Scope Q_scope.

(** ** The arithmetic of [Real] *)

Class RealOps (Real : Type) : Type := {
  r_zero : Real;                       (* the literal 0.0 *)
  r_add  : Real -> Real -> Real;
  r_sub  : Real -> Real -> Real;
  r_half : Real -> Real;               (* x / 2.0 *)
  r_fabs : Real -> Real;               (* std::fabs *)
  r_ltb  : Real -> Real -> bool;       (* x <  y *)
  r_leb  : Real -> Real -> bool;       (* x <= y *)
  r_eqb  : Real -> Real -> bool        (* x == y *)
}.

(** IEEE binary64, as [double]. *)
#[export] Instance Float64 : RealOps float := {
  r_zero := 0%float;
  r_add  := PrimFloat.add;
  r_sub  := PrimFloat.sub;
  r_half := fun x => PrimFloat.div x 2%float;
  r_fabs := PrimFloat.abs;
  r_ltb  := PrimFloat.ltb;
  r_leb  := PrimFloat.leb;
  r_eqb  := PrimFloat.eqb
}.

(** Multiplication, division and the literal 100.0 of [Real]. *)
Class RealMulDiv (Real : Type) : Type := {
  r_mul : Real -> Real -> Real;
  r_div : Real -> Real -> Real;
  r_hundred : Real
}.

#[export] Instance Float64MulDiv : RealMulDiv float := {
  r_mul := PrimFloat.mul;
  r_div := PrimFloat.div;
  r_hundred := 100%float
}.

Module Bisection.

Section Solver.

Context {Real : Type} {ops : RealOps Real}.

(** [Size] is an unsigned integer type of the library; its width is a
    parameter.  Incrementing wraps around. *)
Variable size_bits : N.

Definition size_wrap (n : N) : N := (n mod 2 ^ size_bits)%N.

Definition size_max : N := (2 ^ size_bits - 1)%N.

(** The mutable members of [Solver1D] that [solveImpl] reads and
    writes. *)
Record Solver1D : Type := mkSolver1D {
  root_ : Real;
  xMin_ : Real;
  xMax_ : Real;
  fxMin_ : Real;
  fxMax_ : Real;
  maxEvaluations_ : N;
  evaluationNumber_ : N
}.

Definition with_root (x : Real) (s : Solver1D) : Solver1D :=
  mkSolver1D x (xMin_ s) (xMax_ s) (fxMin_ s) (fxMax_ s)
             (maxEvaluations_ s) (evaluationNumber_ s).

Definition with_evaluationNumber (n : N) (s : Solver1D) : Solver1D :=
  mkSolver1D (root_ s) (xMin_ s) (xMax_ s) (fxMin_ s) (fxMax_ s)
             (maxEvaluations_ s) n.

(** Both counters are values of type [Size]. *)
Definition size_ok (s : Solver1D) : Prop :=
  (maxEvaluations_ s <= size_max)%N /\ (evaluationNumber_ s <= size_max)%N.

(** How a call of [solveImpl] ends.  The list is the log of the points
    at which [f] was called, the latest first; [Failed n] is
    [QL_FAIL("maximum number of function evaluations (n) exceeded")];
    [OutOfFuel] is not an outcome of the program: the loop had not
    ended when the fuel of the model ran out. *)
Inductive outcome : Type :=
| Returned (root : Real) (s : Solver1D) (log : list Real)
| Failed (n : N) (s : Solver1D) (log : list Real)
| OutOfFuel.

Variable f : Real -> Real.
Variable xAccuracy : Real.

(** The test that ends the loop with [return root_]. *)
Definition converged (dx fMid : Real) : bool :=
  r_ltb (r_fabs dx) xAccuracy || r_eqb fMid r_zero.

(** The body of the [while] loop up to the test: the new step, the
    members after the assignments, and the point evaluated. *)
Definition iteration (dx : Real) (s : Solver1D) : Real * Solver1D * Real :=
  let dx := r_half dx in
  let xMid := r_add (root_ s) dx in
  let fMid := f xMid in
  let s := with_evaluationNumber (size_wrap (evaluationNumber_ s + 1)) s in
  let s := if r_leb fMid r_zero then with_root xMid s else s in
  (dx, s, xMid).

Fixpoint loop (fuel : nat) (dx : Real) (s : Solver1D) (log : list Real)
  : outcome :=
  if (evaluationNumber_ s <=? maxEvaluations_ s)%N then
    match fuel with
    | O => OutOfFuel
    | S fuel' =>
        let '(dx', s', xMid) := iteration dx s in
        if converged dx' (f xMid) then Returned (root_ s') s' (xMid :: log)
        else loop fuel' dx' s' (xMid :: log)
    end
  else Failed (maxEvaluations_ s) s log.

(** "Orient the search so that f>0 lies at root_+dx". *)
Definition orient (s : Solver1D) : Real * Solver1D :=
  if r_ltb (fxMin_ s) r_zero
  then (r_sub (xMax_ s) (xMin_ s), with_root (xMin_ s) s)
  else (r_sub (xMin_ s) (xMax_ s), with_root (xMax_ s) s).

Definition solveImpl (fuel : nat) (s : Solver1D) : outcome :=
  let '(dx, s0) := orient s in loop fuel dx s0 [].

(** *** The bisection policy, as the specification words it

    "Orient the search so the root lies in the direction where f>0;
    halve the step each iteration; accept early if |step| < accuracy
    or f == 0 exactly."  These definitions describe the run iteration
    by iteration; they are compared with [solveImpl] below. *)

(** Where the search starts: the candidate and the signed step. *)
Definition policy_start (s : Solver1D) : Real * Real :=
  if r_ltb (fxMin_ s) r_zero
  then (xMin_ s, r_sub (xMax_ s) (xMin_ s))
  else (xMax_ s, r_sub (xMin_ s) (xMax_ s)).

(** The step of iteration [k]: the initial step halved [k] times. *)
Fixpoint policy_step (dx0 : Real) (k : nat) : Real :=
  match k with
  | O => dx0
  | S k' => r_half (policy_step dx0 k')
  end.

(** The candidate after [k] iterations: it moves to the point just
    evaluated when [f] is not positive there. *)
Fixpoint policy_root (root0 dx0 : Real) (k : nat) : Real :=
  match k with
  | O => root0
  | S k' =>
      let r := policy_root root0 dx0 k' in
      let xMid := r_add r (policy_step dx0 (S k')) in
      if r_leb (f xMid) r_zero then xMid else r
  end.

(** The point at which iteration [k] (counted from 1) evaluates [f]. *)
Definition policy_mid (root0 dx0 : Real) (k : nat) : Real :=
  r_add (policy_root root0 dx0 (pred k)) (policy_step dx0 k).

(** Iteration [k] accepts its candidate. *)
Definition policy_accepts (root0 dx0 : Real) (k : nat) : bool :=
  r_ltb (r_fabs (policy_step dx0 k)) xAccuracy
  || r_eqb (f (policy_mid root0 dx0 k)) r_zero.

(** The points evaluated by the first [k] iterations, latest first. *)
Fixpoint policy_log (root0 dx0 : Real) (k : nat) : list Real :=
  match k with
  | O => []
  | S k' => policy_mid root0 dx0 (S k') :: policy_log root0 dx0 k'
  end.

(** The evaluation counter after [k] increments. *)
Fixpoint count_after (e0 : N) (k : nat) : N :=
  match k with
  | O => e0
  | S k' => size_wrap (count_after e0 k' + 1)
  end.

(** The members after [k] iterations of a run started from [s] (after
    orientation) with step [dx0]. *)
Definition state_after (s : Solver1D) (dx0 : Real) (k : nat) : Solver1D :=
  with_root (policy_root (root_ s) dx0 k)
            (with_evaluationNumber (count_after (evaluationNumber_ s) k) s).

(** The first [k] iterations all take place (the loop guard holds
    before each) and none of them accepts. *)
Fixpoint runs_past (s : Solver1D) (dx0 : Real) (k : nat) : bool :=
  match k with
  | O => true
  | S k' =>
      runs_past s dx0 k'
      && (count_after (evaluationNumber_ s) k' <=? maxEvaluations_ s)%N
      && negb (policy_accepts (root_ s) dx0 (S k'))
  end.

(** The run of [solveImpl] on [s] starts from the oriented members and
    the signed initial step. *)
Definition start_state (s : Solver1D) : Solver1D :=
  with_root (fst (policy_start s)) s.

Definition start_step (s : Solver1D) : Real := snd (policy_start s).

(** What the policy allows of an outcome [o] of a run that is given
    [fuel] more turns after its first [k] iterations. *)
Definition outcome_from (s : Solver1D) (dx : Real) (log : list Real)
    (k fuel : nat) (o : outcome) : Prop :=
  match o with
  | Returned r s' l =>
      exists m, (k <= m < k + fuel)%nat /\ runs_past s dx m = true /\
        (count_after (evaluationNumber_ s) m <= maxEvaluations_ s)%N /\
        policy_accepts (root_ s) dx (S m) = true /\
        r = policy_root (root_ s) dx (S m) /\
        s' = state_after s dx (S m) /\
        l = policy_log (root_ s) dx (S m) ++ log
  | Failed n s' l =>
      exists m, (k <= m <= k + fuel)%nat /\ runs_past s dx m = true /\
        (maxEvaluations_ s < count_after (evaluationNumber_ s) m)%N /\
        n = maxEvaluations_ s /\
        s' = state_after s dx m /\
        l = policy_log (root_ s) dx m ++ log
  | OutOfFuel =>
      runs_past s dx (k + fuel) = true /\
      (count_after (evaluationNumber_ s) (k + fuel) <= maxEvaluations_ s)%N
  end.

(** *** Brackets *)

(** The members describe a bracket of [f]: the ends are in order and
    [fxMin_], [fxMax_] are the values of [f] there. *)
Definition bracket_of (s : Solver1D) : bool :=
  r_leb (xMin_ s) (xMax_ s)
  && r_eqb (fxMin_ s) (f (xMin_ s))
  && r_eqb (fxMax_ s) (f (xMax_ s)).

(** One end value is negative or zero and the other positive. *)
Definition weak_sign_change (s : Solver1D) : bool :=
  (r_leb (fxMin_ s) r_zero && r_ltb r_zero (fxMax_ s))
  || (r_leb (fxMax_ s) r_zero && r_ltb r_zero (fxMin_ s)).

(** The same, with zero allowed at [xMax_] only. *)
Definition sign_change (s : Solver1D) : bool :=
  (r_ltb (fxMin_ s) r_zero && r_ltb r_zero (fxMax_ s))
  || (r_leb (fxMax_ s) r_zero && r_ltb r_zero (fxMin_ s)).

End Solver.

Arguments Solver1D Real : clear implicits.
Arguments outcome Real : clear implicits.

(** *** Concrete runs *)

(** [std::size_t] on the usual 64-bit targets. *)
Definition size_t_bits : N := 64.

(** f(x) = x^3 - x - 2 in binary64, and its bracket [1, 2] with a given
    budget and evaluation count at entry. *)
Definition cubic (x : float) : float := (x * x * x - x - 2)%float.

Definition bracket_1_2 (maxEvaluations evaluationNumber : N) : Solver1D float :=
  mkSolver1D 0%float 1%float 2%float (cubic 1) (cubic 2)
             maxEvaluations evaluationNumber.

Definition known_root : float := 1.521379707%float.

(** f(x) = x in binary64 and its bracket [0, 1]: its value at
    [xMin_] is zero. *)
Definition line_0 (x : float) : float := x.

Definition line_0_bracket : Solver1D float :=
  mkSolver1D 0%float 0%float 1%float (line_0 0) (line_0 1) 100%N 2%N.

(** f(x) = (x - 8.5) (9.5 - x) in binary64, positive between 8.5 and
    9.5 only, and its bracket [-1e17, 9]: the width [xMax_ - xMin_]
    rounds to 1.0000000000000002e17. *)
Definition bump (x : float) : float := ((x - 8.5) * (9.5 - x))%float.

Definition bump_bracket : Solver1D float :=
  mkSolver1D 0%float (-1e17)%float 9%float (bump (-1e17)) (bump 9)
             100%N 2%N.

End Bisection.

(** ** The observer graph, handles, quotes and decorator curves

    The classes [Observable], [Observer], [Handle], [SimpleQuote] and
    the decorator curves are used by [test-suite/termstructures.cpp]
    but their code is not part of the sources; they are modelled from
    the specification. *)

Module Observers.

Local Open Scope nat_scope.

Section World.

Context {Real : Type} {ops : RealOps Real}.

(** Objects are named by stable identifiers. *)
Definition id : Type := nat.

Definition upd {A : Type} (m : id -> A) (i : id) (a : A) : id -> A :=
  fun j => if Nat.eqb j i then a else m j.

(** Modelled from the spec: the registry of section 3 and of the
    design notes ("an explicit registry keyed by stable
    identifiers").  [observers o] is the set of observers registered
    with the observable [o]; [forwards x] tells that [x] is an
    observer that is itself observable and whose [update()] notifies
    its own observers (handles, curves); [updates x] counts the
    [update()] calls delivered to [x]; [pointee h] is the instance a
    handle is linked to, if any; [quoted q] is the value of a quote,
    if set. *)
Record world : Type := mkWorld {
  next_id : id;
  forwards : id -> bool;
  observers : id -> list id;
  updates : id -> nat;
  pointee : id -> option id;
  quoted : id -> option Real
}.

Definition empty_world : world :=
  mkWorld 0 (fun _ => false) (fun _ => []) (fun _ => 0)
          (fun _ => None) (fun _ => None).

(** Modelled from the spec: the construction of an object (class
    [Observable] / [Observer]), which gets the next identifier of the
    registry. *)
Definition alloc (fw : bool) (w : world) : id * world :=
  (next_id w,
   mkWorld (S (next_id w)) (upd (forwards w) (next_id w) fw)
           (observers w) (updates w) (pointee w) (quoted w)).

Definition with_observers (o : id) (l : list id) (w : world) : world :=
  mkWorld (next_id w) (forwards w) (upd (observers w) o l)
          (updates w) (pointee w) (quoted w).

Definition with_pointee (h : id) (t : option id) (w : world) : world :=
  mkWorld (next_id w) (forwards w) (observers w) (updates w)
          (upd (pointee w) h t) (quoted w).

Definition with_quoted (q : id) (v : option Real) (w : world) : world :=
  mkWorld (next_id w) (forwards w) (observers w) (updates w)
          (pointee w) (upd (quoted w) q v).

(** Modelled from the spec: [Observer::registerWith] and
    [unregisterWith]; "registerWith(observable) /
    unregisterWith(observable) are idempotent" (section 4.1). *)
Definition registerWith (observer observable : id) (w : world) : world :=
  if existsb (Nat.eqb observer) (observers w observable) then w
  else with_observers observable (observer :: observers w observable) w.

(** Modelled from the spec: [Observer::unregisterWith] (section 4.1). *)
Definition unregisterWith (observer observable : id) (w : world) : world :=
  with_observers observable
    (filter (fun x => negb (Nat.eqb observer x)) (observers w observable)) w.

(** Modelled from the spec: [Observer::update()], as far as the
    registry sees it: one more call delivered to [x]. *)
Definition deliver (x : id) (w : world) : world :=
  mkWorld (next_id w) (forwards w) (observers w)
          (upd (updates w) x (S (updates w x))) (pointee w) (quoted w).

(** Modelled from the spec: [Observable::notifyObservers];
    "notifyObservers() delivers update() to
    the current observer set", each registered observer once, and
    "chained Observables propagate notifications transitively"
    (sections 3 and 4.1).  Notification runs in-line (section 5); the
    fuel bounds the depth of the chain, [None] meaning that it ran
    out. *)
Fixpoint notifyObservers (fuel : nat) (o : id) (w : world) : option world :=
  match fuel with
  | O => None
  | S fuel' =>
      fold_left
        (fun acc x =>
           match acc with
           | None => None
           | Some w1 =>
               let w2 := deliver x w1 in
               if forwards w2 x then notifyObservers fuel' x w2 else Some w2
           end)
        (observers w o) (Some w)
  end.

(** Modelled from the spec: the constructor of class [Handle]; a
    Handle "owns a shared reference to a T (possibly absent)" and
    "forwards observation" (sections 2, 3). *)
Definition new_handle (target : option id) (w : world) : id * world :=
  let '(h, w1) := alloc true w in
  let w2 := with_pointee h target w1 in
  (h, match target with
      | Some t => registerWith h t w2
      | None => w2
      end).

(** Modelled from the spec: [Handle::linkTo]; "linkTo(newInstance)
    replaces the referenced instance and notifies" (section 4.2). *)
Definition linkTo (fuel : nat) (h t : id) (w : world) : option world :=
  let w1 := match pointee w h with
            | Some old => unregisterWith h old w
            | None => w
            end in
  let w2 := registerWith h t (with_pointee h (Some t) w1) in
  notifyObservers fuel h w2.

(** Modelled from the spec: the constructor of class [SimpleQuote],
    "an observable scalar value" (section 2). *)
Definition new_quote (v : Real) (w : world) : id * world :=
  let '(q, w1) := alloc false w in (q, with_quoted q (Some v) w1).

(** Modelled from the spec: [SimpleQuote::setValue]; "setValue(x):
    no-op (no notification) if x equals the current value under exact
    comparison; otherwise stores and notifies" (section 4.3). *)
Definition setValue (fuel : nat) (q : id) (x : Real) (w : world)
  : option world :=
  match quoted w q with
  | Some v =>
      if r_eqb x v then Some w
      else notifyObservers fuel q (with_quoted q (Some x) w)
  | None => notifyObservers fuel q (with_quoted q (Some x) w)
  end.

(** Modelled from the spec: the three decorator curves of section 4.8
    (classes [ImpliedTermStructure], [ForwardSpreadedTermStructure],
    [ZeroSpreadedTermStructure]). *)
Inductive decorator : Type := Implied | ForwardSpreaded | ZeroSpreaded.

(** Modelled from the spec: the constructors of the decorator curves.
    The implied curve "observes the base curve's Handle"; a spreaded
    curve "observes both the base curve Handle and the spread Quote"
    (section 4.8).  The wiring is set up at construction, whether or
    not the base handle is linked. *)

Definition new_decorator (kind : decorator) (base spread : id) (w : world)
  : id * world :=
  let '(d, w1) := alloc true w in
  let w2 := registerWith d base w1 in
  (d, match kind with
      | Implied => w2
      | ForwardSpreaded | ZeroSpreaded => registerWith d spread w2
      end).

(** Modelled from the spec: the construction of a concrete
    [YieldTermStructure], "the structure is Observable" (section 3);
    it also observes what it is built from. *)
Definition new_curve (w : world) : id * world := alloc true w.

(** The objects of [testImpliedObs], [testFSpreadedObs] and
    [testZSpreadedObs]: a quote with its handle, an empty handle, a
    decorator built on both handles, a curve, and the observers [regs]
    registered with the decorator one after the other. *)
Record scene : Type := mkScene {
  sc_world : world;
  sc_quote : id;
  sc_quote_handle : id;
  sc_handle : id;
  sc_decorator : id;
  sc_curve : id
}.

Definition register_all (regs : list id) (observable : id) (w : world)
  : world :=
  fold_left (fun w1 x => registerWith x observable w1) regs w.

Definition base_scene (kind : decorator) (spread : Real) : scene :=
  let '(q, w1) := new_quote spread empty_world in
  let '(mh, w2) := new_handle (Some q) w1 in
  let '(h, w3) := new_handle None w2 in
  let '(d, w4) := new_decorator kind h mh w3 in
  let '(ts, w5) := new_curve w4 in
  mkScene w5 q mh h d ts.

Definition wired (kind : decorator) (spread : Real) (regs : list id)
  : scene :=
  let b := base_scene kind spread in
  mkScene (register_all regs (sc_decorator b) (sc_world b))
          (sc_quote b) (sc_quote_handle b) (sc_handle b)
          (sc_decorator b) (sc_curve b).

(** Observers that are none of the objects of the scene and only
    record the notification, as the [Flag] of the test suite does. *)
Definition plain_observers (regs : list id) : bool :=
  forallb (fun x => Nat.leb 5 x) regs.

(** The objects reached from [o] are, in turn, the single forwarding
    observers of [path], whose last one (or [o] itself) is observed
    by non-forwarding observers only. *)
Fixpoint chain (fw : id -> bool) (obs : id -> list id) (o : id)
    (path : list id) : Prop :=
  match path with
  | [] => forall x, In x (obs o) -> fw x = false
  | p :: rest => obs o = [p] /\ fw p = true /\ chain fw obs p rest
  end.

(** Two worlds that differ by delivered notifications only. *)
Definition same_wiring (w w' : world) : Prop :=
  next_id w' = next_id w /\ forwards w' = forwards w /\
  observers w' = observers w /\ pointee w' = pointee w /\
  quoted w' = quoted w.

End World.

Arguments world Real : clear implicits.
Arguments scene Real : clear implicits.

End Observers.

(** ** Yield curves and the derived curves

    The curve classes ([FlatForward], [ImpliedTermStructure],
    [ForwardSpreadedTermStructure]) are checked by
    [test-suite/termstructures.cpp] but their code is not part of the
    sources; they are modelled from the specification, over the
    arithmetic of [Real].  The checks of the test suite are embedded
    from its source. *)

Module TermStructures.

(** Dates are serial day numbers. *)
Definition Date : Type := Z.

(** Modelled from the spec: the domain errors of section 7. *)
Inductive failure : Type :=
| BeforeReferenceDate
| NoInstanceLinked
| NoValueSet.

Inductive result (A : Type) : Type :=
| Ok (a : A)
| Err (e : failure).
Arguments Ok {A} a.
Arguments Err {A} e.

Definition bind {A B : Type} (r : result A) (k : A -> result B) : result B :=
  match r with
  | Ok a => k a
  | Err e => Err e
  end.

Notation "x <- r ;; k" := (bind r (fun x => k))
  (at level 61, r at next level, right associativity).

(** Modelled from the spec: a YieldTermStructure is "a reference date
    ... and a primitive discount-factor function D(date)" (section 3);
    "a date strictly before the reference date is an error" (section
    4.6).  The instantaneous forward rate, which the library derives
    from D by a logarithmic derivative, is a second given function of
    the curve.  Discount factors and rates are values of [Real]. *)
Section Curves.

Context {Real : Type} {ops : RealOps Real} {muldiv : RealMulDiv Real}.

Record YieldTermStructure : Type := mkCurve {
  referenceDate : Date;
  discountImpl : Date -> Real;
  forwardImpl : Date -> Real
}.

(** Modelled from the spec: the check of [YieldTermStructure] queries;
    "a date strictly before the reference date is an error" (section
    4.6). *)
Definition checked (c : YieldTermStructure) (d : Date) (v : Real)
  : result Real :=
  if (d <? referenceDate c)%Z then Err BeforeReferenceDate else Ok v.

(** Modelled from the spec: [YieldTermStructure::discount] and
    [instantaneousForward] (section 4.6). *)
Definition discount (c : YieldTermStructure) (d : Date) : result Real :=
  checked c d (discountImpl c d).

Definition instantaneousForward (c : YieldTermStructure) (d : Date)
  : result Real :=
  checked c d (forwardImpl c d).

(** Modelled from the spec: a Handle is a possibly absent reference;
    "dereference fails with a no-instance-linked condition when empty"
    (section 4.2). *)
Definition Handle (T : Type) : Type := option T.

Definition deref {T : Type} (h : Handle T) : result T :=
  match h with
  | Some t => Ok t
  | None => Err NoInstanceLinked
  end.

(** Modelled from the spec: a Quote; "value() fails if unset". *)
Definition Quote : Type := option Real.

Definition value (q : Quote) : result Real :=
  match q with
  | Some v => Ok v
  | None => Err NoValueSet
  end.

(** Modelled from the spec: "ImpliedTermStructure: new reference date
    d0; discount(t) = baseCurve.discount(t) / baseCurve.discount(d0)"
    (section 4.8); the quotient is the division of [Real]. *)
Definition implied_discount (h : Handle YieldTermStructure) (d0 t : Date)
  : result Real :=
  if (t <? d0)%Z then Err BeforeReferenceDate
  else
    base <- deref h ;;
    dt <- discount base t ;;
    d0' <- discount base d0 ;;
    Ok (r_div dt d0').

(** Modelled from the spec: "ForwardSpreadedTermStructure:
    instantaneousForward(t) = baseCurve.instantaneousForward(t) +
    spreadQuote.value()" (section 4.8); the sum is the addition of
    [Real]. *)
Definition spreaded_instantaneousForward (h : Handle YieldTermStructure)
    (spread : Handle Quote) (t : Date) : result Real :=
  base <- deref h ;;
  q <- deref spread ;;
  s <- value q ;;
  fwd <- instantaneousForward base t ;;
  Ok (r_add fwd s).

(** *** The consistency tests of [test-suite/termstructures.cpp] *)

(** How a test ends when no error is raised: [TestFailed] is
    [BOOST_FAIL]. *)
Inductive verdict : Type :=
| TestPassed
| TestFailed.

(** [if (QL_FABS(x - y) > tolerance) BOOST_FAIL(...)]. *)
Definition check_close (tolerance x y : Real) : verdict :=
  if r_ltb tolerance (r_fabs (r_sub x y)) then TestFailed else TestPassed.

(** [TermStructureTest::testImplied].  The curve of the setup, the new
    settlement date and the test date (five years after it) are
    arguments, as is the tolerance. *)
Definition testImplied (tolerance : Real) (termStructure : YieldTermStructure)
    (newSettlement testDate : Date) : result verdict :=
  let implied := implied_discount (Some termStructure) newSettlement in
  baseDiscount <- discount termStructure newSettlement ;;
  discount <- discount termStructure testDate ;;
  impliedDiscount <- implied testDate ;;
  Ok (check_close tolerance discount (r_mul baseDiscount impliedDiscount)).

(** [TermStructureTest::testFSpreaded].  The curve of the setup, the
    quote [me] of the spread and the test date are arguments, as is the
    tolerance. *)
Definition testFSpreaded (tolerance : Real) (termStructure : YieldTermStructure)
    (me : Quote) (testDate : Date) : result verdict :=
  let spreaded :=
    spreaded_instantaneousForward (Some termStructure) (Some me) in
  forward <- instantaneousForward termStructure testDate ;;
  spreadedForward <- spreaded testDate ;;
  spread <- value me ;;
  Ok (check_close tolerance forward (r_sub spreadedForward spread)).

End Curves.

Arguments YieldTermStructure Real : clear implicits.
Arguments Quote Real : clear implicits.

(** The tolerance of the consistency tests, [1.0e-10]. *)
Definition tolerance : float := 1e-10%float.

(** A curve in binary64 to try the definitions on: discount factors 1,
    0.99 and 0.97 from days 0, 10 and 20 on, and a forward rate of 5%. *)
Definition sample_curve : YieldTermStructure float :=
  mkCurve 0%Z
    (fun d => if (d <? 10)%Z then 1%float
              else if (d <? 20)%Z then 0.99%float else 0.97%float)
    (fun _ => 0.05%float).

(** A curve in binary64 whose discount factor is the subnormal 1e-310
    on day 10 and 1 on every other day. *)
Definition steep_curve : YieldTermStructure float :=
  mkCurve 0%Z (fun d => if (d =? 10)%Z then 1e-310%float else 1%float)
          (fun _ => 0.05%float).

(** *** A flat curve and the evaluation date *)

Section Flat.

Variable Real : Type.

(** The day counter, as a function of the number of days between two
    dates (Actual/360 in the test), and the discount factor of the
    fixed rate as a function of time. *)
Variable yearFraction : Z -> Real.
Variable discountAt : Real -> Real.

(** Modelled from the spec: the "process-wide current evaluation date
    register" of section 6. *)
Record Settings : Type := mkSettings { evaluationDate : Date }.

Definition setEvaluationDate (d : Date) (_ : Settings) : Settings :=
  mkSettings d.

(** Modelled from the spec: a flat curve built with a fixed rate and a
    number of settlement days on a calendar without holidays; its
    reference date and its discount factors are "defined in terms of
    the evaluation date in effect at call time, not at construction
    time" (section 4.6). *)
Record FlatForward : Type := mkFlat { settlementDays : Z }.

(** Modelled from the spec: the reference date of [FlatForward], the
    evaluation date advanced by the settlement days on a calendar
    without holidays. *)
Definition flat_referenceDate (c : FlatForward) (st : Settings) : Date :=
  (evaluationDate st + settlementDays c)%Z.

Inductive flat_result : Type :=
| FlatOk (v : Real)
| FlatErr (e : failure).

(** Modelled from the spec: [FlatForward::discount], the discount
    factor of the fixed rate over the time from the reference date. *)
Definition flat_discount (c : FlatForward) (st : Settings) (d : Date)
  : flat_result :=
  let ref := flat_referenceDate c st in
  if (d <? ref)%Z then FlatErr BeforeReferenceDate
  else FlatOk (discountAt (yearFraction (d - ref)%Z)).

End Flat.

End TermStructures.

(** ** A further input of the bisection solver *)

Module Convergence.

(** f(x) = x - 1.5 in binary64 and its bracket [1, 2]: the first
    midpoint is a root. *)
Definition line_1_5 (x : float) : float := (x - 1.5)%float.

Definition line_bracket : Bisection.Solver1D float :=
  Bisection.mkSolver1D 0%float 1%float 2%float (line_1_5 1) (line_1_5 2)
                       100%N 2%N.

End Convergence.

(** ** Further code of the library

    The London calendar ([Sources/Calendars/london.cpp]) and the bond
    functions ([ql/pricingengines/bond/bondfunctions.cpp]), embedded
    from their sources; the classes they rely on ([Date], [Bond],
    [CashFlows], [InterestRate]) are not part of the sources and are
    taken as parameters. *)

Module London.

Local Open Scope Z_scope.

Inductive Weekday : Type :=
| Sunday | Monday | Tuesday | Wednesday | Thursday | Friday | Saturday.

Inductive Month : Type :=
| January | February | March | April | May | June
| July | August | September | October | November | December.

Definition weekday_eqb (a b : Weekday) : bool :=
  match a, b with
  | Sunday, Sunday | Monday, Monday | Tuesday, Tuesday
  | Wednesday, Wednesday | Thursday, Thursday | Friday, Friday
  | Saturday, Saturday => true
  | _, _ => false
  end.

Definition month_eqb (a b : Month) : bool :=
  match a, b with
  | January, January | February, February | March, March | April, April
  | May, May | June, June | July, July | August, August
  | September, September | October, October | November, November
  | December, December => true
  | _, _ => false
  end.

(** What [isBusinessDay] asks of a [Date]: the results of
    [weekday()], [dayOfMonth()], [dayOfYear()], [month()] and
    [year()]. *)
Record Date : Type := mkDate {
  weekday : Weekday;
  dayOfMonth : Z;
  dayOfYear : Z;
  month : Month;
  year : Z
}.

(** The table [easterMonday], indexed by [y-1900]; its entries are
    days of the year.  The table itself is a parameter; reading it
    outside its bounds has no defined result. *)
Definition easterMonday_at (table : list Z) (y : Z) : option Z :=
  if y - 1900 <? 0 then None else nth_error table (Z.to_nat (y - 1900)).

(** The first two tests of [isBusinessDay], which do not read the
    table: the weekend, and New Year's Day (possibly moved to Monday). *)
Definition weekend_or_new_year (date : Date) : bool :=
  let w := weekday date in
  let d := dayOfMonth date in
  let m := month date in
  (weekday_eqb w Saturday || weekday_eqb w Sunday)
  || ((d =? 1) || ((d =? 2) || (d =? 3)) && weekday_eqb w Monday)
     && month_eqb m January.

(** The tests that follow the two Easter tests. *)
Definition fixed_holiday (date : Date) : bool :=
  let w := weekday date in
  let d := dayOfMonth date in
  let m := month date in
  let y := year date in
  (* first Monday of May (Bank Holiday) *)
  ((d <=? 7) && weekday_eqb w Monday && month_eqb m May)
  (* last Monday of May or August (Bank Holidays) *)
  || ((25 <=? d) && weekday_eqb w Monday
      && (month_eqb m May || month_eqb m August))
  (* Christmas (possibly moved to Monday or Tuesday) *)
  || (((d =? 25)
       || ((d =? 27) && (weekday_eqb w Monday || weekday_eqb w Tuesday)))
      && month_eqb m December)
  (* Boxing Day (possibly moved to Monday or Tuesday) *)
  || (((d =? 26)
       || ((d =? 28) && (weekday_eqb w Monday || weekday_eqb w Tuesday)))
      && month_eqb m December)
  (* December 31st, 1999 only *)
  || ((d =? 31) && month_eqb m December && (y =? 1999)).

(** [London::isBusinessDay].  The tests are tried in order and the
    first that holds decides; the two Easter tests read the table. *)
Definition isBusinessDay (table : list Z) (date : Date) : option bool :=
  if weekend_or_new_year date then Some false
  else
    match easterMonday_at table (year date) with
    | None => None
    | Some em =>
        if (dayOfYear date =? em - 3)     (* Good Friday *)
           || (dayOfYear date =? em)      (* Easter Monday *)
           || fixed_holiday date
        then Some false
        else Some true
    end.

(** *** Dates of one month *)

Definition next_weekday (w : Weekday) : Weekday :=
  match w with
  | Sunday => Monday | Monday => Tuesday | Tuesday => Wednesday
  | Wednesday => Thursday | Thursday => Friday | Friday => Saturday
  | Saturday => Sunday
  end.

Fixpoint weekday_after (w : Weekday) (n : nat) : Weekday :=
  match n with
  | O => w
  | S n' => next_weekday (weekday_after w n')
  end.

(** Day [d] of the month [m] of year [y], when the first of the month
    is the day [first] of the year and falls on [w1]. *)
Definition month_day (y : Z) (m : Month) (first : Z) (w1 : Weekday) (d : nat)
  : Date :=
  mkDate (weekday_after w1 (pred d)) (Z.of_nat d)
         (first + Z.of_nat d - 1) m y.

Definition is_weekend (date : Date) : bool :=
  weekday_eqb (weekday date) Saturday || weekday_eqb (weekday date) Sunday.

(** A day of the working week on which the calendar is closed. *)
Definition weekday_holiday (table : list Z) (date : Date) : bool :=
  negb (is_weekend date)
  && match isBusinessDay table date with
     | Some false => true
     | _ => false
     end.

(** The days [1..n] of a month on which the calendar is closed though
    they are not in the weekend. *)
Definition weekday_holidays (table : list Z) (y : Z) (m : Month) (first : Z)
    (w1 : Weekday) (n : nat) : list nat :=
  filter (fun d => weekday_holiday table (month_day y m first w1 d))
         (seq 1 n).

(** Tables to try the calendar on: the entries of 1900 to 1902, and a
    table of a hundred years with Easter Monday on day 95, as in 1999. *)
Definition sample_table : list Z := [106; 98; 90].

Definition flat_table : list Z := repeat 95 100.

End London.

Module BondFunctions.

Section Bonds.

Context {Real : Type} {ops : RealOps Real} {muldiv : RealMulDiv Real}.

(** Types of the library that the file uses and does not declare. *)
Variables Date Leg InterestRate DayCounter Compounding Frequency DurationType
          E : Type.

(** [Date()], the null date, and [operator==] on dates. *)
Variable null_date : Date.
Variable date_eq_dec : forall a b : Date, {a = b} + {a <> b}.

(** A call fails with [QL_REQUIRE]'s "non tradable at ..." or with
    whatever a collaborator raises. *)
Inductive failure : Type :=
| NonTradable (settlement : Date)
| Raised (e : E).

Inductive result (A : Type) : Type :=
| Ok (a : A)
| Err (e : failure).
Arguments Ok {A} a.
Arguments Err {A} e.

Definition bind {A B : Type} (r : result A) (k : A -> result B) : result B :=
  match r with
  | Ok a => k a
  | Err e => Err e
  end.

Notation "x <- r ;; k" := (bind r (fun x => k))
  (at level 61, r at next level, right associativity).

(** What the functions ask of a [Bond]. *)
Record Bond : Type := mkBond {
  cashflows : Leg;
  settlementDate : Date;
  notional : Date -> Real;
  bondAccruedAmount : Date -> result Real        (* bond.accruedAmount(d) *)
}.

(** The static functions of [CashFlows] and the constructor of
    [InterestRate], collaborators of this file. *)
Record CashFlows : Type := mkCashFlows {
  cf_nextCashFlowDate : Leg -> bool -> Date -> result Date;
  cf_accrualStartDate : Leg -> bool -> Date -> result Date;
  cf_accruedAmount : Leg -> bool -> Date -> result Real;
  cf_npv : Leg -> InterestRate -> bool -> Date -> result Real;
  cf_bps : Leg -> InterestRate -> bool -> Date -> result Real;
  cf_yield : Leg -> Real -> DayCounter -> Compounding -> Frequency -> bool ->
             Date -> Date -> Real -> N -> Real -> result Real;
  cf_duration : Leg -> InterestRate -> DurationType -> bool -> Date ->
                result Real;
  cf_convexity : Leg -> InterestRate -> bool -> Date -> result Real;
  cf_basisPointValue : Leg -> InterestRate -> bool -> Date -> result Real;
  cf_yieldValueBasisPoint : Leg -> InterestRate -> bool -> Date -> result Real;
  interestRate : Real -> DayCounter -> Compounding -> Frequency ->
                 result InterestRate
}.

Variable CF : CashFlows.

(** [if (settlement == Date()) settlement = bond.settlementDate();] *)
Definition defaulted (bond : Bond) (settlement : Date) : Date :=
  if date_eq_dec settlement null_date then settlementDate bond else settlement.

Definition isTradable (bond : Bond) (settlement : Date) : bool :=
  let settlement := defaulted bond settlement in
  negb (r_eqb (notional bond settlement) r_zero).

(** [QL_REQUIRE(BondFunctions::isTradable(bond, settlement), ...)] *)
Definition require_tradable (bond : Bond) (settlement : Date) : result unit :=
  if isTradable bond settlement then Ok tt else Err (NonTradable settlement).

Definition nextCashFlowDate (bond : Bond) (settlement : Date) : result Date :=
  let settlement := defaulted bond settlement in
  cf_nextCashFlowDate CF (cashflows bond) false settlement.

Definition accrualStartDate (bond : Bond) (settlement : Date) : result Date :=
  let settlement := defaulted bond settlement in
  _ <- require_tradable bond settlement ;;
  cf_accrualStartDate CF (cashflows bond) false settlement.

Definition accruedAmount (bond : Bond) (settlement : Date) : result Real :=
  let settlement := defaulted bond settlement in
  _ <- require_tradable bond settlement ;;
  a <- cf_accruedAmount CF (cashflows bond) false settlement ;;
  Ok (r_div (r_mul a r_hundred) (notional bond settlement)).

(** [cleanPrice(bond, const InterestRate& yield, settlement)] *)
Definition cleanPrice (bond : Bond) (y : InterestRate) (settlement : Date)
  : result Real :=
  let settlement := defaulted bond settlement in
  _ <- require_tradable bond settlement ;;
  n <- cf_npv CF (cashflows bond) y false settlement ;;
  let dirtyPrice := r_div (r_mul n r_hundred) (notional bond settlement) in
  a <- bondAccruedAmount bond settlement ;;
  Ok (r_sub dirtyPrice a).

(** [cleanPrice(bond, Rate yield, dayCounter, compounding, frequency,
    settlement)] *)
Definition cleanPrice_rate (bond : Bond) (yield : Real) (dc : DayCounter)
    (comp : Compounding) (freq : Frequency) (settlement : Date) : result Real :=
  y <- interestRate CF yield dc comp freq ;;
  cleanPrice bond y settlement.

Definition bps (bond : Bond) (y : InterestRate) (settlement : Date)
  : result Real :=
  let settlement := defaulted bond settlement in
  _ <- require_tradable bond settlement ;;
  b <- cf_bps CF (cashflows bond) y false settlement ;;
  Ok (r_div (r_mul b r_hundred) (notional bond settlement)).

Definition bps_rate (bond : Bond) (yield : Real) (dc : DayCounter)
    (comp : Compounding) (freq : Frequency) (settlement : Date) : result Real :=
  y <- interestRate CF yield dc comp freq ;;
  bps bond y settlement.

(** The dirty price that [yield] (and [zSpread]) hand to [CashFlows]:
    [dirtyPrice = cleanPrice + bond.accruedAmount(settlement);
     dirtyPrice /= 100.0 / bond.notional(settlement);] *)
Definition dirtyPrice (bond : Bond) (cleanPrice : Real) (settlement : Date)
  : result Real :=
  a <- bondAccruedAmount bond settlement ;;
  Ok (r_div (r_add cleanPrice a) (r_div r_hundred (notional bond settlement))).

Definition yield (bond : Bond) (cleanPrice : Real) (dc : DayCounter)
    (comp : Compounding) (freq : Frequency) (settlement : Date)
    (accuracy : Real) (maxIterations : N) (guess : Real) : result Real :=
  let settlement := defaulted bond settlement in
  _ <- require_tradable bond settlement ;;
  d <- dirtyPrice bond cleanPrice settlement ;;
  cf_yield CF (cashflows bond) d dc comp freq false settlement settlement
           accuracy maxIterations guess.

Definition duration (bond : Bond) (y : InterestRate) (type : DurationType)
    (settlement : Date) : result Real :=
  let settlement := defaulted bond settlement in
  _ <- require_tradable bond settlement ;;
  cf_duration CF (cashflows bond) y type false settlement.

Definition duration_rate (bond : Bond) (yield : Real) (dc : DayCounter)
    (comp : Compounding) (freq : Frequency) (type : DurationType)
    (settlement : Date) : result Real :=
  y <- interestRate CF yield dc comp freq ;;
  duration bond y type settlement.

Definition convexity (bond : Bond) (y : InterestRate) (settlement : Date)
  : result Real :=
  let settlement := defaulted bond settlement in
  _ <- require_tradable bond settlement ;;
  cf_convexity CF (cashflows bond) y false settlement.

Definition convexity_rate (bond : Bond) (yield : Real) (dc : DayCounter)
    (comp : Compounding) (freq : Frequency) (settlement : Date) : result Real :=
  y <- interestRate CF yield dc comp freq ;;
  convexity bond y settlement.

Definition basisPointValue (bond : Bond) (y : InterestRate)
    (settlement : Date) : result Real :=
  let settlement := defaulted bond settlement in
  _ <- require_tradable bond settlement ;;
  cf_basisPointValue CF (cashflows bond) y false settlement.

(** [basisPointValue(bond, Rate yield, ...)]: it calls [CashFlows]
    itself, with the settlement date as given. *)
Definition basisPointValue_rate (bond : Bond) (yield : Real) (dc : DayCounter)
    (comp : Compounding) (freq : Frequency) (settlement : Date) : result Real :=
  y <- interestRate CF yield dc comp freq ;;
  cf_basisPointValue CF (cashflows bond) y false settlement.

Definition yieldValueBasisPoint (bond : Bond) (y : InterestRate)
    (settlement : Date) : result Real :=
  let settlement := defaulted bond settlement in
  _ <- require_tradable bond settlement ;;
  cf_yieldValueBasisPoint CF (cashflows bond) y false settlement.

Definition yieldValueBasisPoint_rate (bond : Bond) (yield : Real)
    (dc : DayCounter) (comp : Compounding) (freq : Frequency)
    (settlement : Date) : result Real :=
  y <- interestRate CF yield dc comp freq ;;
  cf_yieldValueBasisPoint CF (cashflows bond) y false settlement.

End Bonds.

Arguments Ok {Date E A} a.
Arguments Err {Date E A} e.
Arguments Bond : clear implicits.
Arguments CashFlows : clear implicits.

(** *** A bond to try the functions on *)

(** Collaborators that always answer, in binary64, with dates as day
    numbers (the null date being 0) and a rate as its own
    [InterestRate]. *)
Definition sample_cashflows
  : CashFlows float Z unit float unit unit unit unit unit :=
  mkCashFlows
    (fun _ _ d => Ok (d + 180)%Z)
    (fun _ _ d => Ok (d - 30)%Z)
    (fun _ _ _ => Ok 1.5%float)
    (fun _ y _ _ => Ok (105 / (1 + y))%float)
    (fun _ _ _ _ => Ok 0.01%float)
    (fun _ p _ _ _ _ _ _ _ _ _ => Ok (105 / p - 1)%float)
    (fun _ _ _ _ _ => Ok 1%float)
    (fun _ _ _ _ => Ok 2%float)
    (fun _ _ _ _ => Ok (-0.01)%float)
    (fun _ _ _ _ => Ok 0.0001%float)
    (fun r _ _ _ => Ok r).

(** A bond of notional 100 that is redeemed on day 100, settling on
    day 10. *)
Definition sample_bond : Bond float Z unit unit :=
  mkBond tt 10%Z (fun d => if (d <? 100)%Z then 100%float else 0%float)
         (fun _ => Ok 1.5%float).

End BondFunctions.

(** ** The values of binary64 floats

    [SpecFloat] specifies the operations of binary64 on mantissas and
    exponents.  To state how far a computed result is from the exact
    one, a finite float is given its value as a rational number, and
    the position of an exact quotient between two consecutive
    mantissas is described as [SpecFloat] records it. *)

Module Binary64.

(** The location of [a / b] with respect to its integer part and the
    midpoint to the next integer. *)
Definition loc_of (a b : Z) : location :=
  if (a mod b =? 0)%Z then loc_Exact
  else loc_Inexact (2 * (a mod b) ?= b)%Z.

(** The integer part of [a / b] with its location. *)
Definition rec_of (a b : Z) : shr_record :=
  shr_record_of_loc (a / b)%Z (loc_of a b).

(** Zeros and finite numbers, as opposed to infinities and NaN. *)
Definition SFfinite (x : spec_float) : bool :=
  match x with
  | S754_zero _ | S754_finite _ _ _ => true
  | _ => false
  end.

Definition sgn (s : bool) : Q := if s then (-1)%Q else 1%Q.

(** The magnitude [m * 2^e] of a finite float. *)
Definition mag (m : positive) (e : Z) : Q :=
  (inject_Z (Zpos m) * 2 ^ e)%Q.

(** The value of a float; infinities and NaN are given 0. *)
Definition SF2Q (x : spec_float) : Q :=
  match x with
  | S754_finite s m e => (sgn s * (inject_Z (Zpos m) * 2 ^ e))%Q
  | _ => 0%Q
  end.

Definition finite (x : float) : bool := SFfinite (Prim2SF x).

Definition val (x : float) : Q := SF2Q (Prim2SF x).

(** The unit roundoff [2^-53] of binary64. *)
Definition unit_roundoff : Q := (1 # 9007199254740992)%Q.

End Binary64.

(** ** Rounding along the bisection

    In binary64 the first step [xMax_ - xMin_], each halving and each
    midpoint [root_ + dx] are rounded, so the candidate can leave the
    bracket.  By how much is measured against a scale [M] that bounds
    the two ends in absolute value: each iteration adds at most
    [step_slack M]. *)

Module BracketRounding.
Import Binary64.

Definition step_slack (M : Q) : Q := (12 * unit_roundoff * M)%Q.

(** The allowance after [k] steps. *)
Definition slack (M : Q) (k : nat) : Q :=
  (inject_Z (Z.of_nat k) * step_slack M)%Q.

(** The candidate [r] and the point [r + w] the step [w] leads to are
    finite and within [eps] of the interval from [a] to [b]. *)
Definition near (a b eps : Q) (r w : float) : Prop :=
  finite r = true /\ finite w = true /\
  (a - eps <= val r <= b + eps)%Q /\
  (a - eps <= val r + val w <= b + eps)%Q.

End BracketRounding.

(** * Properties *)

(** ** Rounding in binary64

    The rounding of [SpecFloat] ([binary_round_aux]: two shifts and a
    round to nearest even) returns the mantissa nearest to the exact
    one; the operations of binary64 are then within a relative error
    of [2^-53] of the exact result, as long as it neither overflows
    nor falls below the normal range. *)

Module RoundingFacts.
Import Binary64.
Local Open Scope Z_scope.
Local Unset Implicit Arguments.

Local Abbreviation fexp := (SpecFloat.fexp prec emax).

(** *** Digits *)

(** [digits2_pos m] is the number of binary digits of [m]. *)
Lemma digits2_pos_bounds (m : positive) :
  2 ^ (Zpos (digits2_pos m) - 1) <= Zpos m < 2 ^ Zpos (digits2_pos m).
Proof.
  induction m as [m IH|m IH|]; cbn [digits2_pos].
  - rewrite Pos2Z.inj_succ.
    replace (Z.succ (Z.pos (digits2_pos m)) - 1)
      with (Z.succ (Z.pos (digits2_pos m) - 1)) by lia.
    rewrite !Z.pow_succ_r by lia. lia.
  - rewrite Pos2Z.inj_succ.
    replace (Z.succ (Z.pos (digits2_pos m)) - 1)
      with (Z.succ (Z.pos (digits2_pos m) - 1)) by lia.
    rewrite !Z.pow_succ_r by lia. lia.
  - cbn. lia.
Qed.

Lemma Zdigits2_bounds (m : Z) : 0 < m ->
  2 ^ (Zdigits2 m - 1) <= m < 2 ^ Zdigits2 m.
Proof.
  destruct m as [|p|p]; try lia. intros _. apply digits2_pos_bounds.
Qed.

Lemma Zdigits2_nonneg m : 0 <= Zdigits2 m.
Proof. destruct m; cbn; lia. Qed.

Lemma Zdigits2_lt m : 0 <= m -> m < 2 ^ Zdigits2 m.
Proof.
  intros H. destruct (Z.eq_dec m 0) as [->|]; [cbn; lia|].
  apply Zdigits2_bounds. lia.
Qed.

(** *** Shifting with a location *)

Lemma shr_m_of_loc m l : shr_m (shr_record_of_loc m l) = m.
Proof. destruct l as [|[]]; reflexivity. Qed.

Lemma loc_of_shr_record_of_loc m l :
  loc_of_shr_record (shr_record_of_loc m l) = l.
Proof. destruct l as [|[]]; reflexivity. Qed.

(** One shift to the right halves the mantissa, keeps the bit that is
    shifted out as the round bit and adds the former round bit to the
    sticky bit. *)
Lemma shr_1_nonneg m r s : 0 <= m ->
  shr_1 (Build_shr_record m r s)
  = Build_shr_record (m / 2) (Z.odd m) (r || s).
Proof.
  intros H. destruct m as [|p|p]; try lia.
  - reflexivity.
  - destruct p as [p|p|]; cbn [shr_1 Z.odd].
    + f_equal. rewrite Pos2Z.inj_xI. 
      apply Z.div_unique with (r := 1); lia.
    + f_equal. rewrite Pos2Z.inj_xO.
      apply Z.div_unique with (r := 0); lia.
    + reflexivity.
Qed.

(** Shifting the record of [a / b] gives the record of [a / (2 b)]. *)
Lemma shr_1_rec a b : 0 <= a -> 0 < b ->
  shr_1 (rec_of a b) = rec_of a (2 * b).
Proof.
  intros Ha Hb. unfold rec_of.
  assert (Hq : 0 <= a / b) by (apply Z.div_pos; lia).
  assert (Hr := Z.mod_pos_bound a b Hb).
  assert (Ha' := Z.div_mod a b ltac:(lia)).
  assert (Hq2 : a / (2 * b) = a / b / 2).
  { rewrite (Z.mul_comm 2 b). rewrite Z.div_div by lia. reflexivity. }
  assert (Hm2 : a mod (2 * b) = b * ((a / b) mod 2) + a mod b).
  { rewrite (Z.mul_comm 2 b). rewrite Z.rem_mul_r by lia. lia. }
  assert (Hodd := Zmod_odd (a / b)).
  set (q := a / b) in *. set (r := a mod b) in *.
  replace (shr_record_of_loc q (loc_of a b))
    with (Build_shr_record q (match loc_of a b with loc_Inexact Eq | loc_Inexact Gt => true | _ => false end)
            (match loc_of a b with loc_Inexact Lt | loc_Inexact Gt => true | _ => false end))
    by (destruct (loc_of a b) as [|[]]; reflexivity).
  rewrite shr_1_nonneg by assumption.
  rewrite Hq2. fold q.
  unfold loc_of. fold r. rewrite Hm2.
  destruct (Z.odd q) eqn:Eo; rewrite Hodd.
  - (* q odd: remainder b + r *)
    destruct (Z.eqb_spec r 0) as [E0|E0].
    + rewrite E0, Z.mul_1_r, Z.add_0_r.
      destruct (Z.eqb_spec b 0); [lia|].
      replace (2 * b ?= 2 * b) with Eq by (symmetry; apply Z.compare_refl).
      reflexivity.
    + destruct (Z.eqb_spec (b * 1 + r) 0); [lia|].
      replace (2 * (b * 1 + r) ?= 2 * b) with Gt
        by (symmetry; apply Z.compare_gt_iff; lia).
      destruct (2 * r ?= b); reflexivity.
  - destruct (Z.eqb_spec r 0) as [E0|E0].
    + rewrite E0, Z.mul_0_r, Z.add_0_r. cbn. reflexivity.
    + rewrite Z.mul_0_r, Z.add_0_l.
      destruct (Z.eqb_spec r 0); [lia|].
      replace (2 * r ?= 2 * b) with Lt
        by (symmetry; apply Z.compare_lt_iff; lia).
      destruct (2 * r ?= b); reflexivity.
Qed.

Lemma pow2_xO p : 2 ^ Zpos p~0 = 2 ^ Zpos p * 2 ^ Zpos p.
Proof.
  replace (Zpos p~0) with (Zpos p + Zpos p) by lia.
  apply Z.pow_add_r; lia.
Qed.

Lemma pow2_xI p : 2 ^ Zpos p~1 = 2 * (2 ^ Zpos p * 2 ^ Zpos p).
Proof.
  replace (Zpos p~1) with (Z.succ (Zpos p + Zpos p)) by lia.
  rewrite Z.pow_succ_r, Z.pow_add_r by lia. reflexivity.
Qed.

Lemma iter_shr_1_rec p : forall a b, 0 <= a -> 0 < b ->
  iter_pos shr_1 p (rec_of a b) = rec_of a (b * 2 ^ Zpos p).
Proof.
  induction p as [p IH|p IH|]; intros a b Ha Hb; cbn [iter_pos].
  - rewrite shr_1_rec by assumption.
    assert (0 < 2 ^ Zpos p) by (apply Z.pow_pos_nonneg; lia).
    rewrite IH by lia. rewrite IH by nia.
    f_equal. rewrite pow2_xI. ring.
  - assert (0 < 2 ^ Zpos p) by (apply Z.pow_pos_nonneg; lia).
    rewrite IH by lia. rewrite IH by nia.
    f_equal. rewrite pow2_xO. ring.
  - rewrite shr_1_rec by assumption. f_equal. change (2 ^ 1) with 2. lia.
Qed.

(** *** Rounding to nearest *)
(** Rounding the record of [a / b] gives an integer within one half of
    the quotient. *)
Lemma round_nearest_even_of a b : 0 <= a -> 0 < b ->
  let R := round_nearest_even (a / b) (loc_of a b) in
  a / b <= R <= a / b + 1 /\ 2 * Z.abs (R * b - a) <= b.
Proof.
  intros Ha Hb R.
  assert (Hr := Z.mod_pos_bound a b Hb).
  assert (Ha' := Z.div_mod a b ltac:(lia)).
  unfold R, loc_of, round_nearest_even.
  destruct (Z.eqb_spec (a mod b) 0) as [E|E].
  - split; [lia|]. nia.
  - destruct (Z.compare_spec (2 * (a mod b)) b) as [C|C|C].
    + destruct (Z.even (a / b)); split; try lia; nia.
    + split; [lia|]. nia.
    + split; [lia|]. nia.
Qed.

Lemma fexp_ge_emin e : -1074 <= fexp e.
Proof. unfold SpecFloat.fexp, emin, prec, emax. lia. Qed.

Lemma fexp_ge e : e - 53 <= fexp e.
Proof. unfold SpecFloat.fexp, emin, prec, emax. lia. Qed.

Lemma fexp_cases e :
  (fexp e = e - 53 /\ -1074 <= e - 53) \/ (fexp e = -1074 /\ e - 53 <= -1074).
Proof. unfold SpecFloat.fexp, emin, prec, emax. lia. Qed.

Lemma shr_rec a b e n : 0 <= a -> 0 < b -> 0 <= n ->
  shr (rec_of a b) e n = (rec_of a (b * 2 ^ n), e + n).
Proof.
  intros Ha Hb Hn. destruct n as [|p|p]; try lia; cbn [shr].
  - rewrite Z.pow_0_r, Z.mul_1_r, Z.add_0_r. reflexivity.
  - rewrite iter_shr_1_rec by assumption. reflexivity.
Qed.

Lemma shr_nonpos mrs e n : n <= 0 -> shr mrs e n = (mrs, e).
Proof. intros Hn. destruct n as [|p|p]; try lia; reflexivity. Qed.

Lemma Zdigits2_le_53 R : 0 <= R -> R < 2 ^ 53 -> Zdigits2 R <= 53.
Proof.
  intros H0 H. destruct (Z.eq_dec R 0) as [->|]; [cbn; lia|].
  destruct (Zdigits2_bounds R ltac:(lia)) as [Hlo _].
  destruct (Z_le_gt_dec (Zdigits2 R) 53) as [|Hgt]; [assumption|].
  exfalso. assert (2 ^ 53 <= 2 ^ (Zdigits2 R - 1))
    by (apply Z.pow_le_mono_r; lia). lia.
Qed.

(** The rounding of the exact value [(a / b) * 2^ex] to the format:
    the result is [R * 2^E], with [E] the exponent the format gives to
    numbers of that size and [R] an integer within one half of
    [a / (b * 2^(E - ex))]. *)
Lemma binary_round_aux_spec sx a b ex :
  0 <= a -> 0 < b ->
  let E := fexp (Zdigits2 (a / b) + ex) in
  ex <= E -> E <= 970 ->
  exists R,
    0 <= R /\
    2 * Z.abs (R * (b * 2 ^ (E - ex)) - a) <= b * 2 ^ (E - ex) /\
    ((R = 0 /\
      binary_round_aux prec emax sx (a / b) ex (loc_of a b) = S754_zero sx)
     \/
     (exists m e,
        binary_round_aux prec emax sx (a / b) ex (loc_of a b)
        = S754_finite sx m e /\
        E <= e /\ Zpos m * 2 ^ (e - E) = R)).
Proof.
  intros Ha Hb E HE Hmax.
  set (n := E - ex). assert (Hn : 0 <= n) by (unfold n; lia).
  assert (Hp : 0 < 2 ^ n) by (apply Z.pow_pos_nonneg; lia).
  set (B := b * 2 ^ n). assert (HB : 0 < B) by (unfold B; nia).
  destruct (round_nearest_even_of a B Ha HB) as [HR1 HR2].
  set (R := round_nearest_even (a / B) (loc_of a B)) in *.
  assert (Hq : a / B < 2 ^ 53).
  { unfold B. rewrite <- Z.div_div by lia.
    apply Z.div_lt_upper_bound; [lia|].
    assert (Hd := Zdigits2_lt (a / b) ltac:(apply Z.div_pos; lia)).
    assert (Hf := fexp_ge (Zdigits2 (a / b) + ex)). fold E in Hf.
    assert (2 ^ Zdigits2 (a / b) <= 2 ^ (n + 53))
      by (apply Z.pow_le_mono_r; unfold n; lia).
    rewrite <- Z.pow_add_r by lia. lia. }
  assert (Hq0 : 0 <= a / B) by (apply Z.div_pos; lia).
  exists R. split; [lia|]. split; [exact HR2|].
  unfold binary_round_aux, shr_fexp.
  change (shr_record_of_loc (a / b) (loc_of a b)) with (rec_of a b).
  fold E. fold n. rewrite shr_rec by assumption. fold B.
  assert (HRm : round_nearest_even (shr_m (rec_of a B))
                  (loc_of_shr_record (rec_of a B)) = R).
  { unfold rec_of. now rewrite shr_m_of_loc, loc_of_shr_record_of_loc. }
  rewrite !HRm. replace (ex + n) with E by (unfold n; lia).
  assert (HEmin := fexp_ge_emin (Zdigits2 (a / b) + ex)). fold E in HEmin.
  destruct (Z.eq_dec R 0) as [R0|R0].
  - left. split; [exact R0|]. rewrite R0. cbn [Zdigits2].
    rewrite shr_nonpos.
    + reflexivity.
    + destruct (fexp_cases (0 + E)) as [[-> _]|[-> _]]; lia.
  - right. destruct (Z.eq_dec R (2 ^ 53)) as [R53|R53].
    + exists (Z.to_pos (2 ^ 52)), (E + 1).
      rewrite R53.
      replace (Zdigits2 (2 ^ 53)) with 54 by (vm_compute; reflexivity).
      replace (fexp (54 + E) - E) with 1
        by (destruct (fexp_cases (54 + E)) as [[-> ?]|[-> ?]]; lia).
      cbn [shr shr_record_of_loc iter_pos].
      replace (shr_1 {| shr_m := 2 ^ 53; shr_r := false; shr_s := false |})
        with {| shr_m := 2 ^ 52; shr_r := false; shr_s := false |}
        by (vm_compute; reflexivity).
      cbn [shr_m].
      replace (2 ^ 52) with (Zpos (Z.to_pos (2 ^ 52))) at 1
        by (vm_compute; reflexivity).
      replace (E + 1 <=? emax - prec) with true
        by (symmetry; apply Z.leb_le; unfold emax, prec; lia).
      split; [reflexivity|]. split; [lia|].
      replace (E + 1 - E) with 1 by lia. vm_compute. reflexivity.
    + assert (HR53 : R < 2 ^ 53) by lia.
      assert (Hd := Zdigits2_le_53 R ltac:(lia) HR53).
      rewrite shr_nonpos.
      * cbn [shr_m]. rewrite shr_m_of_loc.
        destruct R as [|m|m] eqn:ER; try lia.
        exists m, E.
        replace (E <=? emax - prec) with true
          by (symmetry; apply Z.leb_le; unfold emax, prec; lia).
        split; [reflexivity|]. split; [lia|].
        rewrite Z.sub_diag. lia.
      * destruct (fexp_cases (Zdigits2 R + E)) as [[-> _]|[-> _]]; lia.
Qed.

End RoundingFacts.

(** ** The operations of binary64 and the exact ones *)

Module Binary64Facts.
Import Binary64 RoundingFacts.
Local Open Scope Q_scope.
Local Unset Implicit Arguments.

Local Abbreviation fexp := (SpecFloat.fexp prec emax).

Lemma pow2_pos e : 0 < 2 ^ e.
Proof. apply Qpower_0_lt. reflexivity. Qed.

Lemma pow2_add a b : 2 ^ (a + b) == 2 ^ a * 2 ^ b.
Proof. apply Qpower_plus. discriminate. Qed.

Lemma pow2_le a b : (a <= b)%Z -> 2 ^ a <= 2 ^ b.
Proof. intros H. apply Qpower_le_compat_l; [exact H | discriminate]. Qed.

Lemma pow2_lt a b : (a < b)%Z -> 2 ^ a < 2 ^ b.
Proof. intros H. apply Qpower_lt_compat_l; [exact H | reflexivity]. Qed.

Lemma pow2_inject n : (0 <= n)%Z -> inject_Z (2 ^ n) == 2 ^ n.
Proof. intros H. now rewrite Zpower_Qpower. Qed.

Lemma pow2_pred e : 2 ^ e == 2 * 2 ^ (e - 1).
Proof.
  replace e with (1 + (e - 1))%Z at 1 by lia. rewrite pow2_add. reflexivity.
Qed.

Lemma sgn_abs s v : 0 <= v -> Qabs (sgn s * v) == v.
Proof.
  intros H. rewrite Qabs_Qmult, (Qabs_pos v H).
  destruct s; cbn; ring.
Qed.

(** The rounding of [(a / b) * 2^ex], over the rationals. *)
Lemma round_Q sx a b ex :
  (0 <= a)%Z -> (0 < b)%Z ->
  let E := fexp (Zdigits2 (a / b) + ex) in
  (ex <= E)%Z -> (E <= 970)%Z ->
  let r := binary_round_aux prec emax sx (a / b) ex (loc_of a b) in
  let X := inject_Z a / inject_Z b * 2 ^ ex in
  exists v : Q,
    SFfinite r = true /\ SF2Q r == sgn sx * v /\ 0 <= v /\
    Qabs (v - X) <= 2 ^ (E - 1) /\
    (b = 1%Z -> E = ex -> v == X).
Proof.
  intros Ha Hb E HE Hmax r X.
  destruct (binary_round_aux_spec sx a b ex Ha Hb HE Hmax)
    as (R & HR0 & HRerr & Hres).
  fold E in HRerr, Hres. fold r in Hres.
  set (n := (E - ex)%Z) in *.
  assert (Hn : (0 <= n)%Z) by (unfold n; lia).
  exists (inject_Z R * 2 ^ E).
  assert (Hv0 : 0 <= inject_Z R * 2 ^ E).
  { apply Qmult_le_0_compat; [|apply Qlt_le_weak, pow2_pos].
    change 0 with (inject_Z 0). now rewrite <- Zle_Qle. }
  assert (HE' : 2 ^ E == inject_Z (2 ^ n) * 2 ^ ex).
  { rewrite pow2_inject by assumption. rewrite <- pow2_add.
    unfold n. now replace (E - ex + ex)%Z with E by lia. }
  split; [|split; [|split; [exact Hv0|split]]].
  - destruct Hres as [[_ ->]|(m & e & -> & _)]; reflexivity.
  - destruct Hres as [[-> ->]|(m & e & -> & Hle & Hm)].
    + cbn [SF2Q]. ring.
    + cbn [SF2Q]. rewrite <- Hm. rewrite inject_Z_mult.
      rewrite pow2_inject by lia.
      rewrite <- Qmult_assoc, <- pow2_add.
      now replace (e - E + E)%Z with e by lia.
  - (* the error *)
    assert (Hp := pow2_pos ex).
    assert (Hqb : 0 < inject_Z b)
      by (change 0 with (inject_Z 0); now rewrite <- Zlt_Qlt).
    apply Z.abs_le in HRerr || idtac.
    assert (H1 : (- (b * 2 ^ n) <= 2 * (R * (b * 2 ^ n) - a))%Z) by lia.
    assert (H2 : (2 * (R * (b * 2 ^ n) - a) <= b * 2 ^ n)%Z) by lia.
    rewrite Zle_Qle in H1, H2. unfold Z.sub in H1, H2.
    repeat (rewrite inject_Z_mult in H1 || rewrite inject_Z_plus in H1
            || rewrite inject_Z_opp in H1).
    repeat (rewrite inject_Z_mult in H2 || rewrite inject_Z_plus in H2
            || rewrite inject_Z_opp in H2).
    change (inject_Z 2) with 2 in H1, H2.
    assert (HE1 : 2 ^ (E - 1) * 2 == 2 ^ E) by (rewrite (pow2_pred E); ring).
    unfold X.
    set (t := inject_Z (2 ^ n)) in *. set (qa := inject_Z a) in *.
    set (qb := inject_Z b) in *. set (qR := inject_Z R) in *.
    set (p := 2 ^ ex) in *. set (h := 2 ^ (E - 1)) in *.
    set (PE := 2 ^ E) in *.
    assert (Hc : qa / qb * qb == qa) by (field; lra).
    set (c := qa / qb) in *.
    assert (Hu1 : (- t) * qb <= 2 * (qR * t - c) * qb).
    { setoid_replace (2 * (qR * t - c) * qb)
        with (2 * (qR * (qb * t) + - qa)) by (rewrite <- Hc; ring).
      setoid_replace (- t * qb) with (- (qb * t)) by ring.
      lra. }
    assert (Hu2 : 2 * (qR * t - c) * qb <= t * qb).
    { setoid_replace (2 * (qR * t - c) * qb)
        with (2 * (qR * (qb * t) + - qa)) by (rewrite <- Hc; ring).
      setoid_replace (t * qb) with (qb * t) by ring.
      lra. }
    apply Qmult_le_r in Hu1; [|exact Hqb].
    apply Qmult_le_r in Hu2; [|exact Hqb].
    assert (G1 : (- t) * p <= 2 * (qR * t - c) * p)
      by (apply Qmult_le_compat_r; lra).
    assert (G2 : 2 * (qR * t - c) * p <= t * p)
      by (apply Qmult_le_compat_r; lra).
    assert (Hd : qR * PE - c * p == (qR * t - c) * p)
      by (rewrite HE'; ring).
    apply Qabs_Qle_condition. rewrite Hd.
    assert (Hh : h * 2 == t * p) by (rewrite HE1; exact HE').
    clearbody t p h c qR. clear - G1 G2 Hh.
    split; lra.
  - intros Hb1 HEex. subst b.
    assert (n = 0%Z) by (unfold n; lia).
    assert (R = a).
    { replace n with 0%Z in HRerr by lia.
      change (2 ^ 0)%Z with 1%Z in HRerr. lia. }
    subst R. unfold X. rewrite HEex.
    change (inject_Z 1) with 1. field.
Qed.

Lemma inject_Z_pos z : (0 < z)%Z -> 0 < inject_Z z.
Proof. intros H. change 0 with (inject_Z 0). now rewrite <- Zlt_Qlt. Qed.

Lemma inject_Z_nonneg z : (0 <= z)%Z -> 0 <= inject_Z z.
Proof. intros H. change 0 with (inject_Z 0). now rewrite <- Zle_Qle. Qed.

(** The integer quotient and the rational one. *)
Lemma Q_div_bounds a b : (0 <= a)%Z -> (0 < b)%Z ->
  inject_Z (a / b) <= inject_Z a / inject_Z b /\
  inject_Z a / inject_Z b < inject_Z (a / b) + 1.
Proof.
  intros Ha Hb. assert (Hqb := inject_Z_pos b Hb).
  split.
  - apply Qle_shift_div_l; [exact Hqb|].
    rewrite <- inject_Z_mult, <- Zle_Qle.
    rewrite Z.mul_comm. apply Z.mul_div_le. exact Hb.
  - apply Qlt_shift_div_r; [exact Hqb|].
    change 1 with (inject_Z 1).
    rewrite <- inject_Z_plus, <- inject_Z_mult, <- Zlt_Qlt.
    assert (H := Z.mul_succ_div_gt a b Hb). lia.
Qed.

Lemma Zdigits2_ge q k : (0 <= q)%Z -> (2 ^ (k - 1) <= q)%Z -> (1 <= k)%Z ->
  (k <= Zdigits2 q)%Z.
Proof.
  intros Hq H Hk. assert (Hlt := Zdigits2_lt q Hq).
  destruct (Z_le_gt_dec k (Zdigits2 q)) as [|Hgt]; [assumption|].
  exfalso. assert (Hd := Zdigits2_nonneg q).
  assert (2 ^ Zdigits2 q <= 2 ^ (k - 1))%Z by (apply Z.pow_le_mono_r; lia).
  lia.
Qed.

(** Bounds of the exact value in terms of the digits of its integer
    part. *)
Lemma exact_value_lt a b ex : (0 <= a)%Z -> (0 < b)%Z ->
  inject_Z a / inject_Z b * 2 ^ ex < 2 ^ (Zdigits2 (a / b) + ex).
Proof.
  intros Ha Hb. destruct (Q_div_bounds a b Ha Hb) as [_ Hup].
  assert (Hq : (0 <= a / b)%Z) by (apply Z.div_pos; lia).
  assert (Hlt := Zdigits2_lt _ Hq).
  assert (Hd := Zdigits2_nonneg (a / b)).
  assert (H1 : inject_Z (a / b) + 1 <= 2 ^ Zdigits2 (a / b)).
  { rewrite <- pow2_inject by assumption.
    change 1 with (inject_Z 1). rewrite <- inject_Z_plus, <- Zle_Qle. lia. }
  rewrite pow2_add. apply Qmult_lt_compat_r; [apply pow2_pos|].
  eapply Qlt_le_trans; eassumption.
Qed.

Lemma exact_value_ge a b ex : (0 <= a)%Z -> (0 < b)%Z -> (0 < a / b)%Z ->
  2 ^ (Zdigits2 (a / b) - 1 + ex) <= inject_Z a / inject_Z b * 2 ^ ex.
Proof.
  intros Ha Hb Hq. destruct (Q_div_bounds a b Ha Hb) as [Hlo _].
  destruct (Zdigits2_bounds _ Hq) as [Hge _].
  assert (Hd : (1 <= Zdigits2 (a / b))%Z).
  { destruct (a / b)%Z as [|p|p]; try lia. cbn. lia. }
  rewrite pow2_add. apply Qmult_le_compat_r; [|apply Qlt_le_weak, pow2_pos].
  eapply Qle_trans; [|exact Hlo].
  rewrite <- pow2_inject by lia. now rewrite <- Zle_Qle.
Qed.

(** Rounding in the normal range: the relative error is at most
    [2^-53]. *)
Lemma round_rel sx a b ex :
  (0 <= a)%Z -> (0 < b)%Z ->
  let E := fexp (Zdigits2 (a / b) + ex) in
  (ex <= E)%Z ->
  let r := binary_round_aux prec emax sx (a / b) ex (loc_of a b) in
  let X := inject_Z a / inject_Z b * 2 ^ ex in
  2 ^ (-1022) <= X -> X < 2 ^ 1023 ->
  exists v : Q,
    SFfinite r = true /\ SF2Q r == sgn sx * v /\ 0 <= v /\
    Qabs (v - X) <= X * 2 ^ (-53).
Proof.
  intros Ha Hb E HE r X Hlo Hhi.
  assert (Hlt := exact_value_lt a b ex Ha Hb). fold X in Hlt.
  set (d := Zdigits2 (a / b)) in *.
  assert (Hd1 : (-1022 < d + ex)%Z).
  { apply Qpower_lt_compat_l_inv with (q := 2); [|reflexivity].
    eapply Qle_lt_trans; eassumption. }
  assert (HEn : E = (d + ex - 53)%Z).
  { unfold E. destruct (fexp_cases (d + ex)) as [[-> ?]|[-> ?]]; lia. }
  assert (Hd53 : (53 <= d)%Z) by lia.
  assert (Hq : (0 < a / b)%Z).
  { assert (0 <= a / b)%Z by (apply Z.div_pos; lia).
    destruct (Z.eq_dec (a / b) 0) as [E0|]; [|lia].
    unfold d in Hd53. rewrite E0 in Hd53. cbn in Hd53. lia. }
  assert (Hge := exact_value_ge a b ex Ha Hb Hq). fold X d in Hge.
  assert (Hd2 : (d - 1 + ex < 1023)%Z).
  { apply Qpower_lt_compat_l_inv with (q := 2); [|reflexivity].
    eapply Qle_lt_trans; eassumption. }
  assert (Hmax : (E <= 970)%Z) by lia.
  destruct (round_Q sx a b ex Ha Hb HE Hmax) as (v & Hf & Hv & Hv0 & Herr & _).
  exists v. split; [exact Hf|]. split; [exact Hv|]. split; [exact Hv0|].
  assert (Hpow : 2 ^ (E - 1) == 2 ^ (d - 1 + ex) * 2 ^ (-53)).
  { rewrite <- pow2_add.
    replace (d - 1 + ex + -53)%Z with (E - 1)%Z by lia. reflexivity. }
  assert (Herr' : Qabs (v - X) <= 2 ^ (E - 1)) by exact Herr.
  rewrite Hpow in Herr'.
  eapply Qle_trans; [exact Herr'|].
  apply Qmult_le_compat_r; [exact Hge|].
  apply Qlt_le_weak, pow2_pos.
Qed.

(** A valid finite float has an exponent between -1074 and 971 and at
    most 53 digits: exactly 53 unless the exponent is the smallest. *)
Lemma valid_finite s m e :
  valid_binary (S754_finite s m e) = true ->
  (-1074 <= e <= 971)%Z /\
  (Zpos (digits2_pos m) <= 53)%Z /\
  (Zpos (digits2_pos m) = 53 \/ e = -1074)%Z.
Proof.
  cbn [SpecFloat.valid_binary]. unfold bounded, canonical_mantissa.
  rewrite andb_true_iff, Z.eqb_eq, Z.leb_le. intros [Hc He].
  unfold emax, prec in He.
  destruct (fexp_cases (Zpos (digits2_pos m) + e)) as [[H H']|[H H']];
    rewrite H in Hc; lia.
Qed.

Lemma iter_xO_spec m d :
  Zpos (Pos.iter xO m d) = (Zpos m * 2 ^ Zpos d)%Z /\
  Zpos (digits2_pos (Pos.iter xO m d)) = (Zpos (digits2_pos m) + Zpos d)%Z.
Proof.
  induction d as [|d IH] using Pos.peano_ind.
  - cbn [Pos.iter digits2_pos]. split; [|lia].
    change (2 ^ 1)%Z with 2%Z. lia.
  - rewrite Pos.iter_succ. cbn [digits2_pos].
    destruct IH as [IH1 IH2]. rewrite Pos2Z.inj_xO, IH1.
    rewrite !Pos2Z.inj_succ, IH2, Z.pow_succ_r by lia. split; lia.
Qed.

(** Aligning a mantissa on a smaller exponent keeps the value. *)
Lemma shl_align_spec m e e' :
  let '(m', e'') := shl_align m e e' in
  e'' = Z.min e e' /\
  Zpos m' = (Zpos m * 2 ^ (e - e''))%Z /\
  Zpos (digits2_pos m') = (Zpos (digits2_pos m) + (e - e''))%Z.
Proof.
  unfold shl_align. destruct (e' - e)%Z as [|d|d] eqn:Ed.
  - replace (Z.min e e') with e by lia. rewrite Z.sub_diag.
    split; [reflexivity|]. split; lia.
  - replace (Z.min e e') with e by lia. rewrite Z.sub_diag.
    split; [reflexivity|]. split; lia.
  - replace (Z.min e e') with e' by lia.
    replace (e - e')%Z with (Zpos d) by lia.
    split; [reflexivity|]. apply iter_xO_spec.
Qed.

Lemma loc_of_1 a : loc_of a 1 = loc_Exact.
Proof. unfold loc_of. now rewrite Z.mod_1_r. Qed.

Lemma finite_value s m e :
  SF2Q (S754_finite s m e) == inject_Z (cond_Zopp s (Zpos m)) * 2 ^ e.
Proof. cbn [SF2Q]. destruct s; cbn [sgn cond_Zopp]; [|ring].
  rewrite inject_Z_opp. ring.
Qed.

(** [binary_round], which normalises before rounding: exact when the
    value fits, of relative error at most [2^-53] otherwise. *)
Lemma binary_round_Q s m e :
  (-1074 <= e)%Z ->
  let X := inject_Z (Zpos m) * 2 ^ e in
  X < 2 ^ 1023 ->
  let r := binary_round prec emax s m e in
  exists v : Q,
    SFfinite r = true /\ SF2Q r == sgn s * v /\ 0 <= v /\
    Qabs (v - X) <= X * 2 ^ (-53).
Proof.
  intros He X HX r.
  set (d := Zpos (digits2_pos m)).
  set (F := fexp (d + e)).
  assert (HX0 : 0 < X).
  { unfold X. apply Qmult_lt_0_compat; [now apply inject_Z_pos | apply pow2_pos]. }
  assert (Hge : 2 ^ (d - 1 + e) <= X).
  { assert (H := exact_value_ge (Zpos m) 1 e ltac:(lia) ltac:(lia)).
    rewrite Z.div_1_r in H. specialize (H ltac:(lia)).
    cbn [Zdigits2] in H. fold d in H. unfold X.
    eapply Qle_trans; [exact H|]. change (inject_Z 1) with 1.
    apply Qle_lteq. right. field. }
  assert (Hd : (d - 1 + e < 1023)%Z).
  { apply Qpower_lt_compat_l_inv with (q := 2); [|reflexivity].
    eapply Qle_lt_trans; eassumption. }
  assert (HF : (F <= 970)%Z).
  { unfold F. destruct (fexp_cases (d + e)) as [[-> ?]|[-> ?]]; lia. }
  assert (Hrel0 : 0 <= X * 2 ^ (-53)).
  { apply Qmult_le_0_compat; apply Qlt_le_weak; [exact HX0|apply pow2_pos]. }
  unfold r, binary_round. fold d F.
  pose proof (shl_align_spec m e F) as Hs.
  destruct (shl_align m e F) as [mz ez].
  destruct Hs as (Hez & Hmz & Hdz).
  assert (HE : fexp (Zdigits2 (Zpos mz / 1) + ez) = F).
  { rewrite Z.div_1_r. cbn [Zdigits2]. rewrite Hdz. fold d. unfold F.
    f_equal. lia. }
  assert (Hezf : (ez <= F)%Z) by lia.
  pose proof (round_Q s (Zpos mz) 1 ez ltac:(lia) ltac:(lia)) as HR.
  cbn zeta in HR. rewrite HE in HR. specialize (HR Hezf HF).
  rewrite Z.div_1_r, loc_of_1 in HR.
  destruct HR as (v & Hfin & Hv & Hv0 & Herr & Hex).
  exists v. split; [exact Hfin|]. split; [exact Hv|]. split; [exact Hv0|].
  assert (HXz : inject_Z (Zpos mz) / inject_Z 1 * 2 ^ ez == X).
  { unfold X. rewrite Hmz, inject_Z_mult.
    rewrite pow2_inject by lia. change (inject_Z 1) with 1.
    setoid_replace (inject_Z (Z.pos m) * 2 ^ (e - ez) / 1 * 2 ^ ez)
      with (inject_Z (Z.pos m) * (2 ^ (e - ez) * 2 ^ ez)) by field.
    rewrite <- pow2_add. now replace (e - ez + ez)%Z with e by lia. }
  destruct (Z.eq_dec F ez) as [Heq|Hne].
  - (* exact *)
    specialize (Hex eq_refl Heq). rewrite HXz in Hex.
    setoid_replace (v - X) with 0 by (rewrite Hex; ring).
    exact Hrel0.
  - (* rounded, in the normal range *)
    assert (Fn : F = (d + e - 53)%Z).
    { unfold F in *. destruct (fexp_cases (d + e)) as [[H ?]|[H ?]]; lia. }
    rewrite HXz in Herr.
    eapply Qle_trans; [exact Herr|].
    assert (Hpow : 2 ^ (F - 1) == 2 ^ (d - 1 + e) * 2 ^ (-53)).
    { rewrite <- pow2_add.
      replace (d - 1 + e + -53)%Z with (F - 1)%Z by lia. reflexivity. }
    rewrite Hpow. apply Qmult_le_compat_r; [exact Hge|].
    apply Qlt_le_weak, pow2_pos.
Qed.

Lemma rel_exact (x : Q) : Qabs (x - x) <= Qabs x * 2 ^ (-53).
Proof.
  setoid_replace (x - x) with 0 by ring.
  apply Qmult_le_0_compat; [apply Qabs_nonneg | apply Qlt_le_weak, pow2_pos].
Qed.

Lemma rel_exact' (a x : Q) : a == x -> Qabs (a - x) <= Qabs x * 2 ^ (-53).
Proof. intros ->. apply rel_exact. Qed.

(** Rounding the exact value [M * 2^e] of a sum or a difference. *)
Lemma binary_normalize_Q M e :
  (-1074 <= e)%Z ->
  let X := inject_Z M * 2 ^ e in
  Qabs X < 2 ^ 1023 ->
  let r := binary_normalize prec emax M e false in
  SFfinite r = true /\ Qabs (SF2Q r - X) <= Qabs X * 2 ^ (-53).
Proof.
  intros He X HX r. destruct M as [|p|p]; cbn [binary_normalize] in r.
  - split; [reflexivity|].
    assert (HX0 : X == 0) by (unfold X; change (inject_Z 0) with 0; ring).
    change (SF2Q r) with 0. rewrite HX0. apply rel_exact.
  - assert (HX0 : 0 < X).
    { unfold X. apply Qmult_lt_0_compat; [now apply inject_Z_pos | apply pow2_pos]. }
    rewrite (Qabs_pos X) in * by lra.
    destruct (binary_round_Q false p e He HX) as (v & Hf & Hv & Hv0 & Herr).
    split; [exact Hf|]. fold r in Hv. rewrite Hv. cbn [sgn].
    setoid_replace (1 * v - X) with (v - X) by ring. exact Herr.
  - set (X' := inject_Z (Zpos p) * 2 ^ e).
    assert (HXX : X == - X').
    { unfold X, X'. change (Zneg p) with (- Zpos p)%Z.
      rewrite inject_Z_opp. ring. }
    assert (HX0 : 0 < X').
    { unfold X'. apply Qmult_lt_0_compat; [now apply inject_Z_pos | apply pow2_pos]. }
    assert (Habs : Qabs X == X').
    { rewrite HXX, Qabs_opp. apply Qabs_pos. lra. }
    rewrite Habs in *.
    destruct (binary_round_Q true p e He HX) as (v & Hf & Hv & Hv0 & Herr).
    split; [exact Hf|]. fold r in Hv. rewrite Hv, HXX. cbn [sgn].
    setoid_replace (-1 * v - - X') with (- (v - X')) by ring.
    rewrite Qabs_opp. exact Herr.
Qed.

Lemma aligned_value s m e ez : (ez <= e)%Z ->
  inject_Z (cond_Zopp s (Zpos (fst (shl_align m e ez)))) * 2 ^ ez
  == SF2Q (S754_finite s m e).
Proof.
  intros H. pose proof (shl_align_spec m e ez) as Hs.
  destruct (shl_align m e ez) as [m' e'']. cbn [fst].
  destruct Hs as (He & Hm & _).
  assert (e'' = ez) by lia. subst e''.
  replace (Z.min e ez) with ez in * by lia.
  rewrite finite_value.
  assert (Hc : cond_Zopp s (Zpos m') = (cond_Zopp s (Zpos m) * 2 ^ (e - ez))%Z).
  { rewrite Hm. destruct s; cbn [cond_Zopp]; ring. }
  rewrite Hc, inject_Z_mult, pow2_inject by lia.
  rewrite <- Qmult_assoc, <- pow2_add.
  now replace (e - ez + ez)%Z with e by lia.
Qed.

(** Addition and subtraction: within a relative error of [2^-53] of
    the exact result, whatever its size below the overflow threshold. *)
Lemma SFadd_Q x y :
  valid_binary x = true -> valid_binary y = true ->
  SFfinite x = true -> SFfinite y = true ->
  Qabs (SF2Q x + SF2Q y) < 2 ^ 1023 ->
  SFfinite (SF64add x y) = true /\
  Qabs (SF2Q (SF64add x y) - (SF2Q x + SF2Q y))
  <= Qabs (SF2Q x + SF2Q y) * 2 ^ (-53).
Proof.
  intros Vx Vy Fx Fy HX.
  destruct x as [sx|sx| |sx mx ex]; try discriminate;
    destruct y as [sy|sy| |sy my ey]; try discriminate.
  - split; [destruct sx, sy; reflexivity|].
    apply rel_exact'. destruct sx, sy; cbn [SF64add SFadd SF2Q]; ring.
  - split; [reflexivity|]. apply rel_exact'.
    cbn [SF64add SFadd]. cbn [SF2Q]. ring.
  - split; [reflexivity|]. apply rel_exact'.
    cbn [SF64add SFadd]. cbn [SF2Q]. ring.
  - destruct (valid_finite _ _ _ Vx) as (Hex & _).
    destruct (valid_finite _ _ _ Vy) as (Hey & _).
    unfold SF64add. cbn [SFadd].
    set (ez := Z.min ex ey).
    set (M := (cond_Zopp sx (Zpos (fst (shl_align mx ex ez)))
               + cond_Zopp sy (Zpos (fst (shl_align my ey ez))))%Z).
    assert (HM : inject_Z M * 2 ^ ez
                 == SF2Q (S754_finite sx mx ex) + SF2Q (S754_finite sy my ey)).
    { unfold M. rewrite inject_Z_plus, Qmult_plus_distr_l.
      rewrite !aligned_value by (unfold ez; lia). reflexivity. }
    rewrite <- HM in *.
    apply binary_normalize_Q; [unfold ez; lia | exact HX].
Qed.

Lemma SFsub_Q x y :
  valid_binary x = true -> valid_binary y = true ->
  SFfinite x = true -> SFfinite y = true ->
  Qabs (SF2Q x - SF2Q y) < 2 ^ 1023 ->
  SFfinite (SF64sub x y) = true /\
  Qabs (SF2Q (SF64sub x y) - (SF2Q x - SF2Q y))
  <= Qabs (SF2Q x - SF2Q y) * 2 ^ (-53).
Proof.
  intros Vx Vy Fx Fy HX.
  destruct x as [sx|sx| |sx mx ex]; try discriminate;
    destruct y as [sy|sy| |sy my ey]; try discriminate.
  - split; [destruct sx, sy; reflexivity|].
    apply rel_exact'. destruct sx, sy; cbn [SF64sub SFsub SF2Q]; ring.
  - split; [reflexivity|]. apply rel_exact'.
    cbn [SF64sub SFsub]. cbn [SF2Q]. destruct sy; cbn [negb sgn]; ring.
  - split; [reflexivity|]. apply rel_exact'.
    cbn [SF64sub SFsub]. cbn [SF2Q]. ring.
  - destruct (valid_finite _ _ _ Vx) as (Hex & _).
    destruct (valid_finite _ _ _ Vy) as (Hey & _).
    unfold SF64sub. cbn [SFsub].
    set (ez := Z.min ex ey).
    set (M := (cond_Zopp sx (Zpos (fst (shl_align mx ex ez)))
               - cond_Zopp sy (Zpos (fst (shl_align my ey ez))))%Z).
    assert (HM : inject_Z M * 2 ^ ez
                 == SF2Q (S754_finite sx mx ex) - SF2Q (S754_finite sy my ey)).
    { unfold M, Z.sub. rewrite inject_Z_plus, inject_Z_opp.
      setoid_replace ((inject_Z (cond_Zopp sx (Z.pos (fst (shl_align mx ex ez))))
                       + - inject_Z (cond_Zopp sy (Z.pos (fst (shl_align my ey ez)))))
                      * 2 ^ ez)
        with (inject_Z (cond_Zopp sx (Z.pos (fst (shl_align mx ex ez)))) * 2 ^ ez
              - inject_Z (cond_Zopp sy (Z.pos (fst (shl_align my ey ez)))) * 2 ^ ez)
        by ring.
      rewrite !aligned_value by (unfold ez; lia). reflexivity. }
    rewrite <- HM in *.
    apply binary_normalize_Q; [unfold ez; lia | exact HX].
Qed.

Lemma fexp_mono a b : (a <= b)%Z -> (fexp a <= fexp b)%Z.
Proof. unfold SpecFloat.fexp, emin, prec, emax. lia. Qed.

Lemma Zdigits2_le R k : (0 <= R)%Z -> (0 <= k)%Z -> (R < 2 ^ k)%Z ->
  (Zdigits2 R <= k)%Z.
Proof.
  intros H0 Hk H. destruct (Z.eq_dec R 0) as [->|]; [cbn; lia|].
  destruct (Zdigits2_bounds R ltac:(lia)) as [Hlo _].
  destruct (Z_le_gt_dec (Zdigits2 R) k) as [|Hgt]; [assumption|].
  exfalso. assert (2 ^ k <= 2 ^ (Zdigits2 R - 1))%Z
    by (apply Z.pow_le_mono_r; lia). lia.
Qed.

Lemma mag_pos m e : 0 < mag m e.
Proof.
  unfold mag. apply Qmult_lt_0_compat; [now apply inject_Z_pos | apply pow2_pos].
Qed.

Lemma SF2Q_finite s m e : SF2Q (S754_finite s m e) == sgn s * mag m e.
Proof. reflexivity. Qed.

Lemma sgn_xorb a b : sgn (xorb a b) == sgn a * sgn b.
Proof. destruct a, b; reflexivity. Qed.

Lemma Qabs_sgn s v : 0 <= v -> Qabs (sgn s * v) == v.
Proof. apply sgn_abs. Qed.

Lemma pow2_pos_lt_0 : ~ 2 ^ (-1022) <= 0.
Proof. intros H. assert (H' := pow2_pos (-1022)). lra. Qed.

(** Rounding a signed exact value: the statement used by the
    multiplication and the division. *)
Lemma round_signed s a b ex (V : Q) :
  (0 <= a)%Z -> (0 < b)%Z ->
  (ex <= fexp (Zdigits2 (a / b) + ex))%Z ->
  let r := binary_round_aux prec emax s (a / b) ex (loc_of a b) in
  let X := inject_Z a / inject_Z b * 2 ^ ex in
  V == sgn s * X ->
  2 ^ (-1022) <= Qabs V -> Qabs V < 2 ^ 1023 ->
  SFfinite r = true /\ Qabs (SF2Q r - V) <= Qabs V * 2 ^ (-53).
Proof.
  intros Ha Hb HE r X HV Hlo Hhi.
  assert (HX0 : 0 <= X).
  { unfold X. apply Qmult_le_0_compat; [|apply Qlt_le_weak, pow2_pos].
    apply Qle_shift_div_l; [now apply inject_Z_pos|].
    setoid_replace (0 * inject_Z b) with 0 by ring.
    now apply inject_Z_nonneg. }
  assert (HabsV : Qabs V == X) by (rewrite HV; now apply Qabs_sgn).
  rewrite HabsV in *.
  destruct (round_rel s a b ex Ha Hb HE Hlo Hhi) as (v & Hf & Hv & Hv0 & Herr).
  split; [exact Hf|]. fold r in Hv. rewrite Hv, HV.
  setoid_replace (sgn s * v - sgn s * X) with (sgn s * (v - X)) by ring.
  rewrite Qabs_Qmult.
  assert (Hs : Qabs (sgn s) == 1) by (destruct s; reflexivity).
  rewrite Hs. setoid_replace (1 * Qabs (v - X)) with (Qabs (v - X)) by ring.
  exact Herr.
Qed.

(** Multiplication: within a relative error of [2^-53] of the exact
    product when that is in the normal range. *)
Lemma SFmul_Q x y :
  valid_binary x = true -> valid_binary y = true ->
  SFfinite x = true -> SFfinite y = true ->
  2 ^ (-1022) <= Qabs (SF2Q x * SF2Q y) ->
  Qabs (SF2Q x * SF2Q y) < 2 ^ 1023 ->
  SFfinite (SF64mul x y) = true /\
  Qabs (SF2Q (SF64mul x y) - SF2Q x * SF2Q y)
  <= Qabs (SF2Q x * SF2Q y) * 2 ^ (-53).
Proof.
  intros Vx Vy Fx Fy Hlo Hhi.
  destruct x as [sx|sx| |sx mx ex]; try discriminate;
    destruct y as [sy|sy| |sy my ey]; try discriminate;
    try (exfalso; apply pow2_pos_lt_0;
         eapply Qle_trans; [exact Hlo|]; cbn [SF2Q];
         match goal with |- Qabs ?t <= 0 =>
           setoid_replace t with 0 by ring end;
         cbn; discriminate).
  destruct (valid_finite _ _ _ Vx) as (Hex & Hdx & Hnx).
  destruct (valid_finite _ _ _ Vy) as (Hey & Hdy & Hny).
  unfold SF64mul. cbn [SFmul].
  set (a := Zpos (mx * my)).
  assert (Ha : (0 <= a)%Z) by (unfold a; lia).
  replace (binary_round_aux prec emax (xorb sx sy) a (ex + ey) loc_Exact)
    with (binary_round_aux prec emax (xorb sx sy) (a / 1) (ex + ey)
            (loc_of a 1))
    by (now rewrite Z.div_1_r, loc_of_1).
  set (V := SF2Q (S754_finite sx mx ex) * SF2Q (S754_finite sy my ey)) in *.
  assert (HV : V == sgn (xorb sx sy)
                    * (inject_Z a / inject_Z 1 * 2 ^ (ex + ey))).
  { unfold V, a. rewrite !SF2Q_finite, sgn_xorb. unfold mag.
    rewrite Pos2Z.inj_mul, inject_Z_mult, pow2_add.
    change (inject_Z 1) with 1. field. }
  apply (round_signed (xorb sx sy) a 1 (ex + ey) V Ha ltac:(lia));
    [|exact HV|exact Hlo|exact Hhi].
  - (* the product has at least 53 digits *)
    rewrite Z.div_1_r.
    set (d := Zdigits2 a).
    assert (HabsV : Qabs V == inject_Z a / inject_Z 1 * 2 ^ (ex + ey)).
    { rewrite HV. apply Qabs_sgn.
      apply Qmult_le_0_compat; [|apply Qlt_le_weak, pow2_pos].
      change (inject_Z 1) with 1. unfold a.
      setoid_replace (inject_Z (Z.pos (mx * my)) / 1)
        with (inject_Z (Z.pos (mx * my))) by field.
      now apply inject_Z_nonneg. }
    assert (Hlt := exact_value_lt a 1 (ex + ey) Ha ltac:(lia)).
    rewrite Z.div_1_r in Hlt. fold d in Hlt. rewrite <- HabsV in Hlt.
    assert (Hd1 : (-1022 < d + (ex + ey))%Z).
    { apply Qpower_lt_compat_l_inv with (q := 2); [|reflexivity].
      eapply Qle_lt_trans; eassumption. }
    assert (Hbx := digits2_pos_bounds mx).
    assert (Hby := digits2_pos_bounds my).
    assert (Hd53 : (53 <= d)%Z).
    { destruct Hnx as [Hnx|Hnx].
      - apply Zdigits2_ge; [exact Ha| |lia].
        rewrite Hnx in Hbx. unfold a. rewrite Pos2Z.inj_mul.
        change (53 - 1)%Z with 52%Z in *. nia.
      - destruct Hny as [Hny|Hny].
        + apply Zdigits2_ge; [exact Ha| |lia].
          rewrite Hny in Hby. unfold a. rewrite Pos2Z.inj_mul.
          change (53 - 1)%Z with 52%Z in *. nia.
        + exfalso.
          assert (Hd106 : (d <= 106)%Z).
          { apply Zdigits2_le; [exact Ha|lia|].
            unfold a. rewrite Pos2Z.inj_mul.
            assert (2 ^ Zpos (digits2_pos mx) <= 2 ^ 53)%Z
              by (apply Z.pow_le_mono_r; lia).
            assert (2 ^ Zpos (digits2_pos my) <= 2 ^ 53)%Z
              by (apply Z.pow_le_mono_r; lia).
            change (2 ^ 106)%Z with (2 ^ 53 * 2 ^ 53)%Z. nia. }
          lia. }
    destruct (fexp_cases (d + (ex + ey))) as [[-> ?]|[-> ?]]; lia.
Qed.

(** The location that the division computes from the remainder. *)
Lemma new_location_loc a b : (0 <= a)%Z -> (0 < b)%Z ->
  new_location b (a mod b) = loc_of a b.
Proof.
  intros Ha Hb. assert (Hr := Z.mod_pos_bound a b Hb).
  unfold new_location, loc_of, new_location_even, new_location_odd.
  destruct (Z.even b) eqn:Eb; [reflexivity|].
  destruct (Z.eqb_spec (a mod b) 0) as [|Hn]; [reflexivity|].
  f_equal.
  assert (Hodd : Z.odd b = true) by (rewrite <- Z.negb_even, Eb; reflexivity).
  apply Z.odd_spec in Hodd. destruct Hodd as [k Hk].
  destruct (Z.compare_spec (2 * (a mod b) + 1) b) as [C|C|C];
    symmetry; [apply Z.compare_lt_iff|apply Z.compare_lt_iff|apply Z.compare_gt_iff];
    lia.
Qed.

Lemma div_eucl_eq a b : Z.div_eucl a b = ((a / b)%Z, (a mod b)%Z).
Proof. unfold Z.div, Z.modulo. now destruct (Z.div_eucl a b). Qed.

Lemma shift_case m s : (0 <= s)%Z ->
  match s with
  | Zpos _ => Z.shiftl m s
  | Z0 => m
  | Zneg _ => 0%Z
  end = (m * 2 ^ s)%Z.
Proof.
  intros Hs. destruct s as [|p|p].
  - now rewrite Z.pow_0_r, Z.mul_1_r.
  - rewrite Z.shiftl_mul_pow2 by lia. reflexivity.
  - lia.
Qed.

(** Division: within a relative error of [2^-53] of the exact
    quotient when that is in the normal range. *)
Lemma SFdiv_Q x y :
  valid_binary x = true -> valid_binary y = true ->
  SFfinite x = true -> SFfinite y = true ->
  ~ SF2Q y == 0 ->
  2 ^ (-1022) <= Qabs (SF2Q x / SF2Q y) ->
  Qabs (SF2Q x / SF2Q y) < 2 ^ 1023 ->
  SFfinite (SF64div x y) = true /\
  Qabs (SF2Q (SF64div x y) - SF2Q x / SF2Q y)
  <= Qabs (SF2Q x / SF2Q y) * 2 ^ (-53).
Proof.
  intros Vx Vy Fx Fy Hy0 Hlo Hhi.
  destruct x as [sx|sx| |sx mx ex]; try discriminate;
    destruct y as [sy|sy| |sy my ey]; try discriminate;
    try (exfalso; apply Hy0; reflexivity).
  - exfalso. apply pow2_pos_lt_0. eapply Qle_trans; [exact Hlo|].
    cbn [SF2Q]. unfold Qdiv.
    match goal with |- Qabs ?t <= 0 => setoid_replace t with 0 by ring end.
    cbn. discriminate.
  - destruct (valid_finite _ _ _ Vx) as (Hex & Hdx & Hnx).
    destruct (valid_finite _ _ _ Vy) as (Hey & Hdy & Hny).
    unfold SF64div. cbn [SFdiv]. unfold SFdiv_core_binary.
    cbn [Zdigits2].
    set (d1 := Zpos (digits2_pos mx)). set (d2 := Zpos (digits2_pos my)).
    set (e' := Z.min (fexp (d1 + ex - (d2 + ey))) (ex - ey)).
    set (s := (ex - ey - e')%Z).
    assert (Hs : (0 <= s)%Z) by (unfold s, e'; lia).
    set (a := (Zpos mx * 2 ^ s)%Z).
    rewrite (shift_case (Zpos mx) s Hs). fold a. rewrite div_eucl_eq.
    assert (Hp : (0 < 2 ^ s)%Z) by (apply Z.pow_pos_nonneg; lia).
    assert (Ha : (0 <= a)%Z) by (unfold a; nia).
    rewrite new_location_loc by lia.
    set (V := SF2Q (S754_finite sx mx ex) / SF2Q (S754_finite sy my ey)) in *.
    assert (HV : V == sgn (xorb sx sy)
                      * (inject_Z a / inject_Z (Zpos my) * 2 ^ e')).
    { unfold V, a. rewrite !SF2Q_finite, sgn_xorb. unfold mag.
      rewrite inject_Z_mult, pow2_inject by lia.
      assert (He : 2 ^ ex == 2 ^ s * 2 ^ e' * 2 ^ ey).
      { rewrite <- !pow2_add. unfold s.
        now replace (ex - ey - e' + e' + ey)%Z with ex by lia. }
      rewrite He.
      assert (H1 := pow2_pos ey). assert (H2 := inject_Z_pos (Zpos my) ltac:(lia)).
      destruct sx, sy; cbn [sgn]; field; split; lra. }
    apply (round_signed (xorb sx sy) a (Zpos my) e' V Ha ltac:(lia));
      [|exact HV|exact Hlo|exact Hhi].
    (* the quotient has enough digits *)
    assert (Hbx := digits2_pos_bounds mx). fold d1 in Hbx.
    assert (Hby := digits2_pos_bounds my). fold d2 in Hby.
    assert (Hq0 : (0 <= a / Zpos my)%Z) by (apply Z.div_pos; lia).
    assert (Hdq : (d1 + s - d2 <= Zdigits2 (a / Zpos my))%Z).
    { destruct (Z_le_gt_dec (d1 + s - d2) 0) as [|Hgt].
      - assert (H := Zdigits2_nonneg (a / Zpos my)). lia.
      - apply Zdigits2_ge; [exact Hq0| |lia].
        apply Z.div_le_lower_bound; [lia|].
        unfold a.
        assert (Hpow : (2 ^ (d1 - 1) * 2 ^ s
                        = 2 ^ (d1 + s - d2 - 1) * 2 ^ d2)%Z).
        { rewrite <- !Z.pow_add_r by lia. f_equal. lia. }
        assert (0 < 2 ^ (d1 + s - d2 - 1))%Z
          by (apply Z.pow_pos_nonneg; lia).
        nia. }
    assert (Hf := fexp_mono (d1 + ex - (d2 + ey))
                    (Zdigits2 (a / Zpos my) + e') ltac:(unfold s in *; lia)).
    unfold e' in *. lia.
Qed.

(** Of two valid finite floats the one with the smaller exponent has
    the smaller magnitude. *)
Lemma mag_lt_exp sx mx ex sy my ey :
  valid_binary (S754_finite sx mx ex) = true ->
  valid_binary (S754_finite sy my ey) = true ->
  (ex < ey)%Z -> mag mx ex < mag my ey.
Proof.
  intros Vx Vy H.
  destruct (valid_finite _ _ _ Vx) as (Hex & Hdx & Hnx).
  destruct (valid_finite _ _ _ Vy) as (Hey & Hdy & Hny).
  assert (Hbx := digits2_pos_bounds mx).
  assert (Hby := digits2_pos_bounds my).
  assert (Hdy53 : Zpos (digits2_pos my) = 53%Z) by lia.
  rewrite Hdy53 in Hby. change (53 - 1)%Z with 52%Z in Hby.
  assert (Hmx : (Zpos mx < 2 ^ 53)%Z).
  { assert (2 ^ Zpos (digits2_pos mx) <= 2 ^ 53)%Z
      by (apply Z.pow_le_mono_r; lia). lia. }
  unfold mag.
  apply Qlt_le_trans with (2 ^ 53 * 2 ^ ex).
  - apply Qmult_lt_compat_r; [apply pow2_pos|].
    rewrite <- pow2_inject by lia. now rewrite <- Zlt_Qlt.
  - apply Qle_trans with (2 ^ 52 * 2 ^ ey).
    + rewrite <- !pow2_add. apply pow2_le. lia.
    + apply Qmult_le_compat_r; [|apply Qlt_le_weak, pow2_pos].
      rewrite <- pow2_inject by lia. rewrite <- Zle_Qle. lia.
Qed.

Lemma Qcmp_lt p q : p < q -> (p ?= q) = Lt.
Proof. apply Qlt_alt. Qed.

Lemma Qcmp_gt p q : q < p -> (p ?= q) = Gt.
Proof. apply Qgt_alt. Qed.

Lemma Qcmp_eq p q : p == q -> (p ?= q) = Eq.
Proof. apply Qeq_alt. Qed.

Lemma mag_same_exp mx my e :
  (mag mx e ?= mag my e) = (Zpos mx ?= Zpos my)%Z.
Proof.
  assert (Hp := pow2_pos e). unfold mag.
  destruct (Z.compare_spec (Zpos mx) (Zpos my)) as [C|C|C].
  - apply Qcmp_eq. rewrite C. reflexivity.
  - apply Qcmp_lt. apply Qmult_lt_compat_r; [exact Hp|].
    now rewrite <- Zlt_Qlt.
  - apply Qcmp_gt. apply Qmult_lt_compat_r; [exact Hp|].
    now rewrite <- Zlt_Qlt.
Qed.

Lemma Qcompare_opp x y : (- x ?= - y) = CompOpp (x ?= y).
Proof.
  destruct (Qcompare_spec x y) as [C|C|C]; cbn [CompOpp].
  - apply Qcmp_eq. rewrite C. reflexivity.
  - apply Qcmp_gt. lra.
  - apply Qcmp_lt. lra.
Qed.

Lemma mag_compare sx mx ex sy my ey :
  valid_binary (S754_finite sx mx ex) = true ->
  valid_binary (S754_finite sy my ey) = true ->
  (mag mx ex ?= mag my ey)
  = match (ex ?= ey)%Z with
    | Lt => Lt
    | Gt => Gt
    | Eq => Pos.compare_cont Eq mx my
    end.
Proof.
  intros Vx Vy. destruct (Z.compare_spec ex ey) as [C|C|C].
  - subst ey. apply mag_same_exp.
  - apply Qcmp_lt. eapply mag_lt_exp; eassumption.
  - apply Qcmp_gt. eapply mag_lt_exp; eassumption.
Qed.

(** Comparison of finite floats is the comparison of their values. *)
Lemma SFcompare_Q x y :
  valid_binary x = true -> valid_binary y = true ->
  SFfinite x = true -> SFfinite y = true ->
  SFcompare x y = Some (SF2Q x ?= SF2Q y).
Proof.
  intros Vx Vy Fx Fy.
  destruct x as [sx|sx| |sx mx ex]; try discriminate;
    destruct y as [sy|sy| |sy my ey]; try discriminate;
    cbn [SFcompare]; f_equal; symmetry.
  - rewrite SF2Q_finite. assert (H := mag_pos my ey). cbn [SF2Q].
    destruct sy; cbn [sgn]; [apply Qcmp_gt | apply Qcmp_lt]; lra.
  - rewrite SF2Q_finite. assert (H := mag_pos mx ex). cbn [SF2Q].
    destruct sx; cbn [sgn]; [apply Qcmp_lt | apply Qcmp_gt]; lra.
  - rewrite !SF2Q_finite.
    assert (Hx := mag_pos mx ex). assert (Hy := mag_pos my ey).
    destruct sx, sy; cbn [sgn].
    + setoid_replace (-1 * mag mx ex) with (- mag mx ex) by ring.
      setoid_replace (-1 * mag my ey) with (- mag my ey) by ring.
      rewrite Qcompare_opp, (mag_compare true mx ex true my ey Vx Vy).
      destruct (ex ?= ey)%Z; reflexivity.
    + apply Qcmp_lt. lra.
    + apply Qcmp_gt. lra.
    + setoid_replace (1 * mag mx ex) with (mag mx ex) by ring.
      setoid_replace (1 * mag my ey) with (mag my ey) by ring.
      apply (mag_compare false mx ex false my ey Vx Vy).
Qed.

(** *** Primitive floats *)

Lemma compare_val x y : finite x = true -> finite y = true ->
  SFcompare (Prim2SF x) (Prim2SF y) = Some (val x ?= val y).
Proof.
  intros Fx Fy. apply SFcompare_Q; auto using Prim2SF_valid.
Qed.

Lemma ltb_val x y : finite x = true -> finite y = true ->
  (PrimFloat.ltb x y = true <-> val x < val y).
Proof.
  intros Fx Fy. rewrite ltb_spec. unfold SFltb.
  rewrite (compare_val x y Fx Fy), Qlt_alt.
  destruct (val x ?= val y); split; congruence.
Qed.

Lemma leb_val x y : finite x = true -> finite y = true ->
  (PrimFloat.leb x y = true <-> val x <= val y).
Proof.
  intros Fx Fy. rewrite leb_spec. unfold SFleb.
  rewrite (compare_val x y Fx Fy), Qle_alt.
  destruct (val x ?= val y); split; congruence.
Qed.

(** A float between two finite floats is finite. *)
Lemma leb_between a x b :
  finite a = true -> finite b = true ->
  PrimFloat.leb a x = true -> PrimFloat.leb x b = true ->
  finite x = true.
Proof.
  unfold finite. rewrite !leb_spec. unfold SFleb.
  destruct (Prim2SF a) as [sa|sa| |sa ma ea]; try discriminate;
    destruct (Prim2SF b) as [sb|sb| |sb mb eb]; try discriminate;
    destruct (Prim2SF x) as [sx|[]| |sx mx ex]; cbn; intros; try reflexivity;
    try discriminate;
    repeat match goal with
           | H : (if ?s then _ else _) = true |- _ => destruct s
           end; try discriminate.
Qed.

Lemma abs_finite x : finite (PrimFloat.abs x) = finite x.
Proof. unfold finite. rewrite abs_spec. now destruct (Prim2SF x). Qed.

Lemma abs_val x : val (PrimFloat.abs x) == Qabs (val x).
Proof.
  unfold val. rewrite abs_spec.
  destruct (Prim2SF x) as [s|s| |s m e]; cbn [SFabs SF2Q]; try reflexivity.
  symmetry. fold (mag m e). assert (H := mag_pos m e).
  rewrite (Qabs_sgn s) by lra. cbn [sgn]. ring.
Qed.

Lemma add_val x y : finite x = true -> finite y = true ->
  Qabs (val x + val y) < 2 ^ 1023 ->
  finite (x + y) = true /\
  Qabs (val (x + y) - (val x + val y)) <= Qabs (val x + val y) * 2 ^ (-53).
Proof.
  intros Fx Fy H. unfold finite, val. rewrite add_spec.
  apply SFadd_Q; auto using Prim2SF_valid.
Qed.

Lemma sub_val x y : finite x = true -> finite y = true ->
  Qabs (val x - val y) < 2 ^ 1023 ->
  finite (x - y) = true /\
  Qabs (val (x - y) - (val x - val y)) <= Qabs (val x - val y) * 2 ^ (-53).
Proof.
  intros Fx Fy H. unfold finite, val. rewrite sub_spec.
  apply SFsub_Q; auto using Prim2SF_valid.
Qed.

Lemma mul_val x y : finite x = true -> finite y = true ->
  2 ^ (-1022) <= Qabs (val x * val y) ->
  Qabs (val x * val y) < 2 ^ 1023 ->
  finite (x * y) = true /\
  Qabs (val (x * y) - val x * val y) <= Qabs (val x * val y) * 2 ^ (-53).
Proof.
  intros Fx Fy H1 H2. unfold finite, val. rewrite mul_spec.
  apply SFmul_Q; auto using Prim2SF_valid.
Qed.

Lemma div_val x y : finite x = true -> finite y = true ->
  ~ val y == 0 ->
  2 ^ (-1022) <= Qabs (val x / val y) ->
  Qabs (val x / val y) < 2 ^ 1023 ->
  finite (x / y) = true /\
  Qabs (val (x / y) - val x / val y) <= Qabs (val x / val y) * 2 ^ (-53).
Proof.
  intros Fx Fy H0 H1 H2. unfold finite, val. rewrite div_spec.
  apply SFdiv_Q; auto using Prim2SF_valid.
Qed.

Lemma unit_roundoff_pow : 2 ^ (-53) == unit_roundoff.
Proof. reflexivity. Qed.

Lemma abs_leb_finite x b : finite b = true ->
  PrimFloat.leb (PrimFloat.abs x) b = true -> finite x = true.
Proof.
  unfold finite. rewrite leb_spec, abs_spec. unfold SFleb.
  destruct (Prim2SF b) as [sb|sb| |sb mb eb]; try discriminate;
    destruct (Prim2SF x) as [sx|sx| |sx mx ex]; cbn; intros; try reflexivity;
    try discriminate.
Qed.

Lemma below_overflow x : Qabs x <= 2 ^ 20 -> Qabs x < 2 ^ 1023.
Proof.
  intros H. eapply Qle_lt_trans; [exact H|]. apply pow2_lt. lia.
Qed.

(** From a relative error to an interval. *)
Lemma rel_interval v X K :
  Qabs (v - X) <= Qabs X * 2 ^ (-53) -> Qabs X <= K ->
  - (K * unit_roundoff) <= v - X <= K * unit_roundoff.
Proof.
  intros H HK. rewrite unit_roundoff_pow in H. apply Qabs_Qle_condition.
  eapply Qle_trans; [exact H|]. apply Qmult_le_compat_r; [exact HK|].
  discriminate.
Qed.

(** Adding a spread to a forward rate and taking it off again, both at
    most 300000 in absolute value, changes the rate by at most
    [900003 * 2^-53], which is below 1e-10. *)
Lemma forward_round_trip (f s : float) :
  PrimFloat.leb (PrimFloat.abs f) 3e5 = true ->
  PrimFloat.leb (PrimFloat.abs s) 3e5 = true ->
  PrimFloat.ltb 1e-10 (PrimFloat.abs (f - ((f + s) - s))) = false.
Proof.
  intros Hf Hs.
  assert (FB : finite 3e5 = true) by (vm_compute; reflexivity).
  assert (VB : val 3e5 == 300000) by (vm_compute; reflexivity).
  assert (Ff : finite f = true) by exact (abs_leb_finite f 3e5 FB Hf).
  assert (Fs : finite s = true) by exact (abs_leb_finite s 3e5 FB Hs).
  apply leb_val in Hf; [|now rewrite abs_finite|exact FB].
  apply leb_val in Hs; [|now rewrite abs_finite|exact FB].
  rewrite abs_val, VB in Hf, Hs.
  apply Qabs_Qle_condition in Hf. apply Qabs_Qle_condition in Hs.
  set (vf := val f) in *. set (vs := val s) in *.
  assert (Hbig : 2 ^ 20 == 1048576) by reflexivity.
  (* f + s *)
  assert (B1 : Qabs (vf + vs) <= 600000)
    by (apply Qabs_Qle_condition; lra).
  destruct (add_val f s Ff Fs) as [F1 E1].
  { apply below_overflow. fold vf vs. rewrite Hbig.
    eapply Qle_trans; [exact B1|]. discriminate. }
  fold vf vs in E1. apply (rel_interval _ _ _ E1) in B1 as I1.
  set (v1 := val (f + s)) in *.
  (* (f + s) - s *)
  assert (B2 : Qabs (v1 - vs) <= 300001).
  { apply Qabs_Qle_condition. unfold unit_roundoff in I1. lra. }
  destruct (sub_val (f + s) s F1 Fs) as [F2 E2].
  { apply below_overflow. fold v1 vs. rewrite Hbig.
    eapply Qle_trans; [exact B2|]. discriminate. }
  fold v1 vs in E2. apply (rel_interval _ _ _ E2) in B2 as I2.
  set (v2 := val (f + s - s)) in *.
  (* f - ((f + s) - s) *)
  assert (B3 : Qabs (vf - v2) <= 900002 * unit_roundoff).
  { apply Qabs_Qle_condition. unfold unit_roundoff in *. lra. }
  destruct (sub_val f (f + s - s) Ff F2) as [F3 E3].
  { apply below_overflow. fold vf v2. rewrite Hbig.
    eapply Qle_trans; [exact B3|]. vm_compute. discriminate. }
  fold vf v2 in E3. apply (rel_interval _ _ _ E3) in B3 as I3.
  set (v3 := val (f - (f + s - s))) in *.
  (* the comparison *)
  destruct (PrimFloat.ltb 1e-10 (PrimFloat.abs (f - (f + s - s)))) eqn:C;
    [|reflexivity].
  exfalso. apply ltb_val in C;
    [|vm_compute; reflexivity | now rewrite abs_finite].
  rewrite abs_val in C. fold v3 in C.
  assert (VT : 99999999999 # 1000000000000000000000 < val 1e-10)
    by (vm_compute; reflexivity).
  assert (B4 : Qabs v3 <= 900003 * unit_roundoff).
  { apply Qabs_Qle_condition. unfold unit_roundoff in *.
    apply Qabs_Qle_condition in B3. lra. }
  unfold unit_roundoff in B4. lra.
Qed.

(** Dividing a discount factor by another and multiplying the quotient
    back, both factors being between 1e-307 and 1, changes the factor
    by at most [4 * 2^-53], which is below 1e-10. *)
Lemma discount_round_trip (dt dr : float) :
  PrimFloat.leb 1e-307 dr = true -> PrimFloat.leb dr 1 = true ->
  PrimFloat.leb 1e-307 dt = true -> PrimFloat.leb dt 1 = true ->
  PrimFloat.ltb 1e-10 (PrimFloat.abs (dt - dr * (dt / dr))) = false.
Proof.
  intros Hr1 Hr2 Ht1 Ht2.
  assert (FL : finite 1e-307 = true) by (vm_compute; reflexivity).
  assert (F1 : finite 1 = true) by (vm_compute; reflexivity).
  assert (V1 : val 1 == 1) by (vm_compute; reflexivity).
  assert (VL : 2 ^ (-1021) <= val 1e-307) by (vm_compute; discriminate).
  assert (Fr : finite dr = true) by exact (leb_between _ _ _ FL F1 Hr1 Hr2).
  assert (Ft : finite dt = true) by exact (leb_between _ _ _ FL F1 Ht1 Ht2).
  apply leb_val in Hr1, Hr2, Ht1, Ht2; try assumption.
  rewrite V1 in Hr2, Ht2.
  set (L := val 1e-307) in *. set (r := val dr) in *. set (t := val dt) in *.
  assert (HP : 0 < 2 ^ (-1021)) by apply pow2_pos.
  assert (Hr0 : 0 < r) by lra. assert (Ht0 : 0 < t) by lra.
  assert (Hrn : ~ r == 0) by lra.
  set (X := t / r).
  assert (HXr : X * r == t) by (unfold X; field; exact Hrn).
  assert (HXlo : t <= X).
  { unfold X. apply Qle_shift_div_l; [exact Hr0|].
    setoid_replace t with (t * 1) at 2 by ring.
    rewrite !(Qmult_comm t). apply Qmult_le_compat_r; lra. }
  assert (HXhi : X <= 2 ^ 1021).
  { unfold X. apply Qle_shift_div_r; [exact Hr0|].
    apply Qle_trans with (2 ^ 1021 * 2 ^ (-1021)).
    - rewrite <- pow2_add. cbn. lra.
    - rewrite !(Qmult_comm (2 ^ 1021)).
      apply Qmult_le_compat_r; [lra|]. apply Qlt_le_weak, pow2_pos. }
  assert (HX0 : 0 < X) by lra.
  assert (HXabs : Qabs X == X) by (apply Qabs_pos; lra).
  (* dt / dr *)
  destruct (div_val dt dr Ft Fr) as [Fq Eq1]; fold r t X.
  { exact Hrn. }
  { rewrite HXabs. apply Qle_trans with (2 ^ (-1021)); [apply pow2_le; lia|lra]. }
  { rewrite HXabs. eapply Qle_lt_trans; [exact HXhi|]. apply pow2_lt. lia. }
  fold r t X in Eq1.
  assert (I1 := rel_interval _ _ X Eq1 ltac:(rewrite HXabs; apply Qle_refl)).
  set (vq := val (dt / dr)) in *.
  (* dr * (dt / dr) *)
  assert (IY : t - t * unit_roundoff <= r * vq <= t + t * unit_roundoff).
  { destruct I1 as [I1a I1b].
    apply (Qmult_le_compat_r _ _ r) in I1a; [|lra].
    apply (Qmult_le_compat_r _ _ r) in I1b; [|lra].
    setoid_replace (- (X * unit_roundoff) * r) with (- (t * unit_roundoff)) in I1a
      by (rewrite <- HXr; ring).
    setoid_replace ((vq - X) * r) with (r * vq - t) in I1a
      by (rewrite <- HXr; ring).
    setoid_replace (X * unit_roundoff * r) with (t * unit_roundoff) in I1b
      by (rewrite <- HXr; ring).
    setoid_replace ((vq - X) * r) with (r * vq - t) in I1b
      by (rewrite <- HXr; ring).
    split; lra. }
  set (Y := r * vq) in *.
  assert (HY0 : 0 < Y) by (unfold unit_roundoff in IY; lra).
  assert (HYabs : Qabs Y == Y) by (apply Qabs_pos; lra).
  assert (HL2 : 2 ^ (-1022) <= L * (1 - unit_roundoff))
    by (unfold L; vm_compute; discriminate).
  destruct (mul_val dr (dt / dr) Fr Fq) as [Fp Ep]; fold r vq Y.
  { rewrite HYabs. apply Qle_trans with (2 ^ (-1022)); [apply pow2_le; lia|].
    eapply Qle_trans; [exact HL2|]. unfold unit_roundoff in *. lra. }
  { rewrite HYabs. apply Qle_lt_trans with (2 ^ 1).
    - change (2 ^ 1) with 2. unfold unit_roundoff in IY. lra.
    - apply pow2_lt. lia. }
  fold r vq Y in Ep.
  assert (I2 := rel_interval _ _ Y Ep ltac:(rewrite HYabs; apply Qle_refl)).
  set (vp := val (dr * (dt / dr))) in *.
  (* dt - dr * (dt / dr) *)
  assert (B3 : Qabs (t - vp) <= 3 * unit_roundoff).
  { apply Qabs_Qle_condition. unfold unit_roundoff in *. lra. }
  destruct (sub_val dt (dr * (dt / dr)) Ft Fp) as [Fd Ed]; fold t vp.
  { apply below_overflow. eapply Qle_trans; [exact B3|].
    vm_compute. discriminate. }
  fold t vp in Ed. apply (rel_interval _ _ _ Ed) in B3 as I3.
  set (vd := val (dt - dr * (dt / dr))) in *.
  destruct (PrimFloat.ltb 1e-10 (PrimFloat.abs (dt - dr * (dt / dr)))) eqn:C;
    [|reflexivity].
  exfalso. apply ltb_val in C;
    [|vm_compute; reflexivity | now rewrite abs_finite].
  rewrite abs_val in C. fold vd in C.
  assert (VT : 99999999999 # 1000000000000000000000 < val 1e-10)
    by (vm_compute; reflexivity).
  assert (B4 : Qabs vd <= 4 * unit_roundoff).
  { apply Qabs_Qle_condition. unfold unit_roundoff in *.
    apply Qabs_Qle_condition in B3. lra. }
  unfold unit_roundoff in B4. lra.
Qed.

(** Rounding below the overflow threshold, whatever the size of the
    exact value: the error is at most the relative error [2^-53] plus
    half the spacing [2^-1074] of the subnormal numbers. *)
Lemma round_gen sx a b ex :
  (0 <= a)%Z -> (0 < b)%Z ->
  let E := fexp (Zdigits2 (a / b) + ex) in
  (ex <= E)%Z ->
  let r := binary_round_aux prec emax sx (a / b) ex (loc_of a b) in
  let X := inject_Z a / inject_Z b * 2 ^ ex in
  X < 2 ^ 1023 ->
  exists v : Q,
    SFfinite r = true /\ SF2Q r == sgn sx * v /\ 0 <= v /\
    Qabs (v - X) <= X * 2 ^ (-53) + 2 ^ (-1075).
Proof.
  intros Ha Hb E HE r X Hhi.
  set (d := Zdigits2 (a / b)) in *.
  assert (Hq0 : (0 <= a / b)%Z) by (apply Z.div_pos; lia).
  assert (HX0 : 0 <= X).
  { unfold X. apply Qmult_le_0_compat; [|apply Qlt_le_weak, pow2_pos].
    apply Qle_shift_div_l; [now apply inject_Z_pos|].
    setoid_replace (0 * inject_Z b) with 0 by ring.
    now apply inject_Z_nonneg. }
  assert (Hsmall : 0 < 2 ^ (-1075)) by apply pow2_pos.
  assert (Hu : 0 < 2 ^ (-53)) by apply pow2_pos.
  assert (Hcases : (E = -1074)%Z \/
                   ((0 < a / b)%Z /\ E = (d + ex - 53)%Z)).
  { unfold E. destruct (fexp_cases (d + ex)) as [[Hf ?]|[Hf ?]].
    - right. fold E in Hf. split; [|exact Hf].
      destruct (Z.eq_dec (a / b) 0) as [E0|]; [|lia].
      exfalso. unfold d in *. rewrite E0 in *. cbn [Zdigits2] in *. lia.
    - left. exact Hf. }
  assert (Hmax : (E <= 970)%Z).
  { destruct Hcases as [->|[Hq HEn]]; [lia|].
    assert (Hge := exact_value_ge a b ex Ha Hb Hq). fold X d in Hge.
    assert (Hd2 : (d - 1 + ex < 1023)%Z).
    { apply Qpower_lt_compat_l_inv with (q := 2); [|reflexivity].
      eapply Qle_lt_trans; eassumption. }
    lia. }
  destruct (round_Q sx a b ex Ha Hb HE Hmax) as (v & Hf & Hv & Hv0 & Herr & _).
  exists v. split; [exact Hf|]. split; [exact Hv|]. split; [exact Hv0|].
  assert (Herr' : Qabs (v - X) <= 2 ^ (E - 1)) by exact Herr.
  assert (HXu : 0 <= X * 2 ^ (-53))
    by (apply Qmult_le_0_compat; lra).
  destruct Hcases as [HEm|[Hq HEn]].
  - rewrite HEm in Herr'. change (-1074 - 1)%Z with (-1075)%Z in Herr'. lra.
  - assert (Hge := exact_value_ge a b ex Ha Hb Hq). fold X d in Hge.
    assert (Hpow : 2 ^ (E - 1) == 2 ^ (d - 1 + ex) * 2 ^ (-53)).
    { rewrite <- pow2_add.
      replace (d - 1 + ex + -53)%Z with (E - 1)%Z by lia. reflexivity. }
    rewrite Hpow in Herr'.
    assert (2 ^ (d - 1 + ex) * 2 ^ (-53) <= X * 2 ^ (-53))
      by (apply Qmult_le_compat_r; lra).
    lra.
Qed.

Lemma SFdiv_Q_gen x y :
  valid_binary x = true -> valid_binary y = true ->
  SFfinite x = true -> SFfinite y = true ->
  ~ SF2Q y == 0 ->
  Qabs (SF2Q x / SF2Q y) < 2 ^ 1023 ->
  SFfinite (SF64div x y) = true /\
  Qabs (SF2Q (SF64div x y) - SF2Q x / SF2Q y)
  <= Qabs (SF2Q x / SF2Q y) * 2 ^ (-53) + 2 ^ (-1075).
Proof.
  intros Vx Vy Fx Fy Hy0 Hhi.
  assert (Hsmall : 0 < 2 ^ (-1075)) by apply pow2_pos.
  destruct x as [sx|sx| |sx mx ex]; try discriminate;
    destruct y as [sy|sy| |sy my ey]; try discriminate;
    try (exfalso; apply Hy0; reflexivity).
  - split; [reflexivity|]. cbn [SF64div SFdiv SF2Q].
    set (vy := sgn sy * (inject_Z (Z.pos my) * 2 ^ ey)).
    assert (E0 : 0 / vy == 0) by (unfold Qdiv; ring).
    rewrite E0. setoid_replace (0 - 0) with 0 by ring.
    change (Qabs 0) with 0. lra.
  - destruct (valid_finite _ _ _ Vx) as (Hex & Hdx & Hnx).
    destruct (valid_finite _ _ _ Vy) as (Hey & Hdy & Hny).
    unfold SF64div. cbn [SFdiv]. unfold SFdiv_core_binary.
    cbn [Zdigits2].
    set (d1 := Zpos (digits2_pos mx)). set (d2 := Zpos (digits2_pos my)).
    set (e' := Z.min (fexp (d1 + ex - (d2 + ey))) (ex - ey)).
    set (s := (ex - ey - e')%Z).
    assert (Hs : (0 <= s)%Z) by (unfold s, e'; lia).
    set (a := (Zpos mx * 2 ^ s)%Z).
    rewrite (shift_case (Zpos mx) s Hs). fold a. rewrite div_eucl_eq.
    assert (Hp : (0 < 2 ^ s)%Z) by (apply Z.pow_pos_nonneg; lia).
    assert (Ha : (0 <= a)%Z) by (unfold a; nia).
    rewrite new_location_loc by lia.
    set (V := SF2Q (S754_finite sx mx ex) / SF2Q (S754_finite sy my ey)) in *.
    set (X := inject_Z a / inject_Z (Zpos my) * 2 ^ e').
    assert (HV : V == sgn (xorb sx sy) * X).
    { unfold V, X, a. rewrite !SF2Q_finite, sgn_xorb. unfold mag.
      rewrite inject_Z_mult, pow2_inject by lia.
      assert (He : 2 ^ ex == 2 ^ s * 2 ^ e' * 2 ^ ey).
      { rewrite <- !pow2_add. unfold s.
        now replace (ex - ey - e' + e' + ey)%Z with ex by lia. }
      rewrite He.
      assert (H1 := pow2_pos ey). assert (H2 := inject_Z_pos (Zpos my) ltac:(lia)).
      destruct sx, sy; cbn [sgn]; field; split; lra. }
    assert (HX0 : 0 <= X).
    { unfold X. apply Qmult_le_0_compat; [|apply Qlt_le_weak, pow2_pos].
      apply Qle_shift_div_l; [now apply inject_Z_pos|].
      setoid_replace (0 * inject_Z (Z.pos my)) with 0 by ring.
      now apply inject_Z_nonneg. }
    assert (HabsV : Qabs V == X) by (rewrite HV; now apply Qabs_sgn).
    rewrite HabsV in *.
    (* the quotient has enough digits *)
    assert (HE : (e' <= fexp (Zdigits2 (a / Zpos my) + e'))%Z).
    { assert (Hbx := digits2_pos_bounds mx). fold d1 in Hbx.
      assert (Hby := digits2_pos_bounds my). fold d2 in Hby.
      assert (Hq0 : (0 <= a / Zpos my)%Z) by (apply Z.div_pos; lia).
      assert (Hdq : (d1 + s - d2 <= Zdigits2 (a / Zpos my))%Z).
      { destruct (Z_le_gt_dec (d1 + s - d2) 0) as [|Hgt].
        - assert (H := Zdigits2_nonneg (a / Zpos my)). lia.
        - apply Zdigits2_ge; [exact Hq0| |lia].
          apply Z.div_le_lower_bound; [lia|].
          unfold a.
          assert (Hpow : (2 ^ (d1 - 1) * 2 ^ s
                          = 2 ^ (d1 + s - d2 - 1) * 2 ^ d2)%Z).
          { rewrite <- !Z.pow_add_r by lia. f_equal. lia. }
          assert (0 < 2 ^ (d1 + s - d2 - 1))%Z
            by (apply Z.pow_pos_nonneg; lia).
          nia. }
      assert (Hf := fexp_mono (d1 + ex - (d2 + ey))
                      (Zdigits2 (a / Zpos my) + e') ltac:(unfold s in *; lia)).
      unfold e' in *. lia. }
    destruct (round_gen (xorb sx sy) a (Zpos my) e' Ha ltac:(lia) HE Hhi)
      as (v & Hf & Hv & Hv0 & Herr).
    split; [exact Hf|]. rewrite Hv, HV.
    setoid_replace (sgn (xorb sx sy) * v - sgn (xorb sx sy) * X)
      with (sgn (xorb sx sy) * (v - X)) by ring.
    rewrite Qabs_Qmult.
    assert (Hsg : Qabs (sgn (xorb sx sy)) == 1)
      by (destruct (xorb sx sy); reflexivity).
    rewrite Hsg. setoid_replace (1 * Qabs (v - X)) with (Qabs (v - X)) by ring.
    exact Herr.
Qed.

(** A finite float is below [2^1024] in absolute value. *)
Lemma finite_below_max x : Qabs (val x) < 2 ^ 1024.
Proof.
  unfold val. assert (V := Prim2SF_valid x).
  destruct (Prim2SF x) as [s|s| |s m e]; cbn [SF2Q];
    try (change (Qabs 0) with 0; apply pow2_pos).
  destruct (valid_finite _ _ _ V) as (He & Hd & _).
  fold (mag m e). rewrite Qabs_sgn by (apply Qlt_le_weak, mag_pos).
  assert (Hb := digits2_pos_bounds m).
  assert (Hm : (Zpos m < 2 ^ 53)%Z).
  { assert (2 ^ Zpos (digits2_pos m) <= 2 ^ 53)%Z
      by (apply Z.pow_le_mono_r; lia). lia. }
  unfold mag. apply Qlt_le_trans with (2 ^ 53 * 2 ^ e).
  - apply Qmult_lt_compat_r; [apply pow2_pos|].
    rewrite <- pow2_inject by lia. now rewrite <- Zlt_Qlt.
  - rewrite <- pow2_add. apply pow2_le. lia.
Qed.

(** Halving, the [dx /= 2.0] of the solver. *)
Lemma halve_val x : finite x = true ->
  finite (x / 2) = true /\
  Qabs (val (x / 2) - val x * (1 # 2)) <= Qabs (val x) * unit_roundoff + 2 ^ (-1075).
Proof.
  intros Fx.
  assert (F2 : finite 2 = true) by (vm_compute; reflexivity).
  assert (V2 : val 2 == 2) by (vm_compute; reflexivity).
  assert (Hlt := finite_below_max x).
  assert (Hhalf : val x / val 2 == val x * (1 # 2))
    by (rewrite V2; reflexivity).
  assert (Habs : Qabs (val x / val 2) == Qabs (val x) * (1 # 2)).
  { rewrite Hhalf, Qabs_Qmult. reflexivity. }
  assert (H0 := Qabs_nonneg (val x)).
  assert (Hdiv : finite (x / 2) = true /\
    Qabs (val (x / 2) - val x / val 2)
    <= Qabs (val x / val 2) * 2 ^ (-53) + 2 ^ (-1075)).
  { unfold finite, val. rewrite div_spec.
    apply SFdiv_Q_gen; auto using Prim2SF_valid.
    - fold (val 2). rewrite V2. discriminate.
    - fold (val x) (val 2). rewrite Habs.
      assert (H : 2 ^ 1024 == 2 * 2 ^ 1023)
        by (rewrite (pow2_pred 1024); reflexivity).
      rewrite H in Hlt. lra. }
  destruct Hdiv as [Fd Ed]. split; [exact Fd|].
  rewrite Habs, unit_roundoff_pow, Hhalf in Ed.
  eapply Qle_trans; [exact Ed|].
  unfold unit_roundoff. set (A := Qabs (val x)) in *. lra.
Qed.

End Binary64Facts.

(** ** Rounding along the bisection *)

Module BracketRoundingFacts.
Import Bisection Binary64 Binary64Facts BracketRounding.
Local Open Scope Q_scope.
Local Unset Implicit Arguments.

(** Each step adds [step_slack M] to the allowance. *)
Lemma slack_S M k : slack M (S k) == slack M k + step_slack M.
Proof.
  unfold slack. rewrite Nat2Z.inj_succ. unfold Z.succ.
  rewrite inject_Z_plus. change (inject_Z 1) with 1. ring.
Qed.

(** Absolute values and intervals. *)
Lemma Qabs_le_interval (x K : Q) : - K <= x <= K -> Qabs x <= K.
Proof. intros H. now apply Qabs_Qle_condition. Qed.

Lemma abs_interval (v X E : Q) :
  Qabs (v - X) <= E -> - E <= v - X <= E.
Proof. intros H. now apply Qabs_Qle_condition. Qed.

(** *** One iteration *)

Section Step.

(** The ends [a], [b] are bounded by the scale [M], which lies in the
    normal range of binary64. *)
Variables a b M : Q.
Hypothesis HaM : - M <= a.
Hypothesis HbM : b <= M.
Hypothesis HMlo : 2 ^ (-1021) <= M.
Hypothesis HMhi : M <= 2 ^ 1020.

(** Half the smallest subnormal is small against the scale. *)
Lemma tiny_below_scale : 2 ^ (-1075) <= (1 # 2) * unit_roundoff * M.
Proof.
  assert (H : 2 ^ (-1075) == (1 # 2) * unit_roundoff * 2 ^ (-1021)).
  { rewrite <- unit_roundoff_pow.
    setoid_replace (1 # 2) with (2 ^ (-1)) by reflexivity.
    rewrite <- !pow2_add. reflexivity. }
  rewrite H. unfold unit_roundoff in *.
  set (p := 2 ^ (-1021)) in *. lra.
Qed.

(** Three times the scale is below the overflow threshold. *)
Lemma below_overflow_scale x : - (3 * M) <= x <= 3 * M -> Qabs x < 2 ^ 1023.
Proof.
  intros H. apply Qle_lt_trans with (3 * M); [now apply Qabs_le_interval|].
  apply Qle_lt_trans with (3 * 2 ^ 1020); [lra|].
  assert (E : 2 ^ 1023 == 8 * 2 ^ 1020).
  { setoid_replace 8 with (2 ^ 3) by reflexivity.
    rewrite <- pow2_add. reflexivity. }
  rewrite E. assert (Hp := pow2_pos 1020). lra.
Qed.

(** One iteration of the loop: the step is halved, the midpoint
    [root_ + dx] computed, and the candidate moves there or stays.
    Either way it stays near the bracket, [step_slack M] further off at
    most: the halving is off by at most [4 M u + 2^-1075] and the sum
    by at most [3 M u], with [u] the unit roundoff. *)
Lemma near_step eps r w :
  0 <= eps -> eps + step_slack M <= M ->
  near a b eps r w ->
  near a b (eps + step_slack M) (r + w / 2)%float (w / 2)%float /\
  near a b (eps + step_slack M) r (w / 2)%float.
Proof.
  intros He Hle (Fr & Fw & Hr & Hrw).
  assert (HM0 : 0 < M) by (assert (Hp := pow2_pos (-1021)); lra).
  assert (Htiny := tiny_below_scale).
  unfold step_slack in *.
  destruct (halve_val w Fw) as [Fh Eh].
  set (vr := val r) in *. set (vw := val w) in *.
  assert (Bw : Qabs vw <= 4 * M).
  { apply Qabs_le_interval. unfold unit_roundoff in *. lra. }
  assert (Ih : - ((9 # 2) * unit_roundoff * M)
               <= val (w / 2) - vw * (1 # 2)
               <= (9 # 2) * unit_roundoff * M).
  { apply abs_interval. eapply Qle_trans; [exact Eh|].
    assert (Qabs vw * unit_roundoff <= 4 * M * unit_roundoff).
    { apply Qmult_le_compat_r; [exact Bw|]. discriminate. }
    lra. }
  set (vh := val (w / 2)) in *.
  assert (Bs : - (3 * M) <= vr + vh <= 3 * M).
  { unfold unit_roundoff in *. lra. }
  destruct (add_val r (w / 2) Fr Fh) as [Fm Em].
  { fold vr vh. now apply below_overflow_scale. }
  fold vr vh in Em.
  assert (Im := rel_interval _ _ (3 * M) Em (Qabs_le_interval _ _ Bs)).
  set (vm := val (r + w / 2)) in *.
  unfold near. fold vr vh vm.
  repeat split; try assumption; unfold unit_roundoff in *; lra.
Qed.

End Step.

(** A larger allowance. *)
Lemma near_mono a b eps eps' r w :
  eps <= eps' -> near a b eps r w -> near a b eps' r w.
Proof.
  intros H (Fr & Fw & Hr & Hrw). unfold near.
  repeat split; try assumption; lra.
Qed.

Lemma slack_nonneg M k : 0 <= M -> 0 <= slack M k.
Proof.
  intros HM. unfold slack, step_slack.
  apply Qmult_le_0_compat.
  - change 0 with (inject_Z 0). rewrite <- Zle_Qle. lia.
  - unfold unit_roundoff. lra.
Qed.

(** Up to [2^40] steps the allowance stays below the scale. *)
Lemma slack_below_scale M k :
  0 <= M -> (Z.of_nat k <= 2 ^ 40)%Z -> slack M k <= M.
Proof.
  intros HM Hk. unfold slack.
  apply Qle_trans with (inject_Z (2 ^ 40) * step_slack M).
  - apply Qmult_le_compat_r; [now rewrite <- Zle_Qle|].
    unfold step_slack, unit_roundoff. lra.
  - change (inject_Z (2 ^ 40)) with 1099511627776.
    unfold step_slack, unit_roundoff. lra.
Qed.

(** *** The whole run *)

Section Policy.
Variable f : float -> float.
Variables a b M : Q.
Hypothesis HaM : - M <= a.
Hypothesis HbM : b <= M.
Hypothesis HMlo : 2 ^ (-1021) <= M.
Hypothesis HMhi : M <= 2 ^ 1020.

(** The candidate and the step after [k] iterations. *)
Lemma near_policy r0 dx0 k :
  near a b (slack M 1) r0 dx0 ->
  (Z.of_nat k < 2 ^ 40)%Z ->
  near a b (slack M (S k)) (policy_root f r0 dx0 k) (policy_step dx0 k).
Proof.
  intros H0. induction k as [|k IH]; intros Hk; [exact H0|].
  assert (HM0 : 0 <= M) by (assert (Hp := pow2_pos (-1021)); lra).
  assert (IH' := IH ltac:(lia)).
  assert (Hle : slack M (S k) + step_slack M <= M).
  { rewrite <- slack_S. apply slack_below_scale; [exact HM0|lia]. }
  destruct (near_step a b M HaM HbM HMlo HMhi (slack M (S k))
              (policy_root f r0 dx0 k) (policy_step dx0 k)
              (slack_nonneg M (S k) HM0) Hle IH') as [Hmid Hstay].
  cbn [policy_root policy_step r_add r_half r_leb r_zero Float64].
  destruct (PrimFloat.leb _ 0);
    (eapply near_mono; [|eassumption]); rewrite (slack_S M (S k)); lra.
Qed.

End Policy.

(** The start of the search: the candidate is an end of the bracket and
    the step leads to the other end, up to the rounding of the
    difference. *)
Lemma near_start (s : Solver1D float) (scale : float) :
  PrimFloat.leb (xMin_ s) (xMax_ s) = true ->
  PrimFloat.leb (PrimFloat.abs (xMin_ s)) scale = true ->
  PrimFloat.leb (PrimFloat.abs (xMax_ s)) scale = true ->
  PrimFloat.leb 1e-300 scale = true -> PrimFloat.leb scale 1e300 = true ->
  (- val scale <= val (xMin_ s) /\ val (xMax_ s) <= val scale /\
   2 ^ (-1021) <= val scale /\ val scale <= 2 ^ 1020) /\
  near (val (xMin_ s)) (val (xMax_ s)) (slack (val scale) 1)
       (fst (policy_start s)) (snd (policy_start s)).
Proof.
  intros Hord Hlo Hhi Hs1 Hs2.
  assert (Flo : finite 1e-300 = true) by (vm_compute; reflexivity).
  assert (Fhi : finite 1e300 = true) by (vm_compute; reflexivity).
  assert (Fs : finite scale = true) by exact (leb_between _ _ _ Flo Fhi Hs1 Hs2).
  assert (Fa : finite (xMin_ s) = true) by exact (abs_leb_finite _ _ Fs Hlo).
  assert (Fb : finite (xMax_ s) = true) by exact (abs_leb_finite _ _ Fs Hhi).
  apply (leb_val _ _ Fa Fb) in Hord.
  apply leb_val in Hlo; [|now rewrite abs_finite|exact Fs].
  apply leb_val in Hhi; [|now rewrite abs_finite|exact Fs].
  rewrite abs_val in Hlo, Hhi.
  apply Qabs_Qle_condition in Hlo, Hhi.
  apply (leb_val _ _ Flo Fs) in Hs1. apply (leb_val _ _ Fs Fhi) in Hs2.
  assert (Hmin : 2 ^ (-1021) <= val 1e-300) by (vm_compute; discriminate).
  assert (Hmax : val 1e300 <= 2 ^ 1020) by (vm_compute; discriminate).
  set (a := val (xMin_ s)) in *. set (b := val (xMax_ s)) in *.
  set (M := val scale) in *.
  assert (HMlo : 2 ^ (-1021) <= M) by (eapply Qle_trans; eassumption).
  assert (HMhi : M <= 2 ^ 1020) by (eapply Qle_trans; eassumption).
  split; [repeat split; try assumption; lra|].
  assert (HM0 : 0 < M) by (assert (Hp := pow2_pos (-1021)); lra).
  assert (Hup : Qabs (b - a) < 2 ^ 1023).
  { apply (below_overflow_scale M HMhi). lra. }
  assert (Hdn : Qabs (a - b) < 2 ^ 1023).
  { apply (below_overflow_scale M HMhi). lra. }
  unfold policy_start. cbn [r_ltb r_sub r_zero Float64].
  unfold near, slack, step_slack. change (inject_Z (Z.of_nat 1)) with 1.
  destruct (PrimFloat.ltb (fxMin_ s) 0); cbn [fst snd].
  - destruct (sub_val _ _ Fb Fa Hup) as [Fd Ed]. fold a b in Ed.
    assert (Id := rel_interval _ _ (2 * M) Ed
                    ltac:(apply Qabs_le_interval; lra)).
    fold a. repeat split; try assumption; unfold unit_roundoff in *; lra.
  - destruct (sub_val _ _ Fa Fb Hdn) as [Fd Ed]. fold a b in Ed.
    assert (Id := rel_interval _ _ (2 * M) Ed
                    ltac:(apply Qabs_le_interval; lra)).
    fold b. repeat split; try assumption; unfold unit_roundoff in *; lra.
Qed.

End BracketRoundingFacts.

Module BisectionFacts.
Import Bisection.

Section Generic.

Context {Real : Type} {ops : RealOps Real}.
Variable size_bits : N.
Variable f : Real -> Real.
Variable xAccuracy : Real.

Local Abbreviation loop := (loop size_bits f xAccuracy).
Local Abbreviation solveImpl := (solveImpl size_bits f xAccuracy).
Local Abbreviation state_after := (state_after size_bits f).
Local Abbreviation runs_past := (runs_past size_bits f xAccuracy).
Local Abbreviation count_after := (count_after size_bits).
Local Abbreviation outcome_from := (outcome_from size_bits f xAccuracy).
Local Abbreviation policy_accepts := (policy_accepts f xAccuracy).
Local Abbreviation policy_root := (policy_root f).
Local Abbreviation policy_log := (policy_log f).
Local Abbreviation policy_mid := (policy_mid f).

Lemma state_after_0 (s : Solver1D Real) dx : state_after s dx 0 = s.
Proof. destruct s; reflexivity. Qed.

Lemma runs_past_S s dx k :
  runs_past s dx (S k) = true ->
  runs_past s dx k = true /\
  (count_after (evaluationNumber_ s) k <= maxEvaluations_ s)%N /\
  policy_accepts (root_ s) dx (S k) = false.
Proof.
  cbn [Bisection.runs_past]. rewrite !andb_true_iff, negb_true_iff, N.leb_le.
  tauto.
Qed.

Lemma runs_past_extend s dx k :
  runs_past s dx k = true ->
  (count_after (evaluationNumber_ s) k <= maxEvaluations_ s)%N ->
  policy_accepts (root_ s) dx (S k) = false ->
  runs_past s dx (S k) = true.
Proof.
  intros Hrun Hc Ha. cbn [Bisection.runs_past].
  rewrite Hrun, Ha. apply N.leb_le in Hc. now rewrite Hc.
Qed.

Lemma runs_past_le s dx k j :
  (j <= k)%nat -> runs_past s dx k = true -> runs_past s dx j = true.
Proof.
  induction 1 as [|k Hle IH]; [auto|].
  intros H. apply IH. now apply runs_past_S in H.
Qed.

Lemma runs_past_guard s dx k j :
  (j < k)%nat -> runs_past s dx k = true ->
  (count_after (evaluationNumber_ s) j <= maxEvaluations_ s)%N.
Proof.
  intros Hj H. apply (@runs_past_le s dx k (S j)) in H; [|lia].
  now apply runs_past_S in H.
Qed.

Lemma length_policy_log r dx k : length (policy_log r dx k) = k.
Proof. induction k; cbn; congruence. Qed.

(** One turn of the loop from the state reached after [k] iterations. *)
Lemma loop_unfold_at fuel s dx k log :
  loop fuel (policy_step dx k) (state_after s dx k) log =
  if (count_after (evaluationNumber_ s) k <=? maxEvaluations_ s)%N then
    match fuel with
    | O => OutOfFuel
    | S fuel' =>
        if policy_accepts (root_ s) dx (S k)
        then Returned (policy_root (root_ s) dx (S k))
                      (state_after s dx (S k))
                      (policy_mid (root_ s) dx (S k) :: log)
        else loop fuel' (policy_step dx (S k)) (state_after s dx (S k))
                  (policy_mid (root_ s) dx (S k) :: log)
    end
  else Failed (maxEvaluations_ s) (state_after s dx k) log.
Proof.
  destruct fuel as [|fuel']; cbn [Bisection.loop]; cbn;
    destruct (count_after (evaluationNumber_ s) k <=? maxEvaluations_ s)%N;
    try reflexivity.
  unfold Bisection.policy_accepts, Bisection.policy_mid, converged,
    Bisection.state_after, with_root, with_evaluationNumber; cbn.
  destruct (r_leb (f (r_add (policy_root (root_ s) dx k)
                             (r_half (policy_step dx k)))) r_zero);
    cbn; reflexivity.
Qed.

(** [k] iterations that neither accept nor are stopped by the guard
    consume [k] units of fuel and lead to [state_after s dx k]. *)
Lemma loop_runs_past k : forall fuel s dx log,
  runs_past s dx k = true ->
  loop (k + fuel) dx s log =
  loop fuel (policy_step dx k) (state_after s dx k)
       (policy_log (root_ s) dx k ++ log).
Proof.
  induction k as [|k IH]; intros fuel s dx log Hrun.
  - cbn [policy_step Bisection.policy_log app Nat.add].
    now rewrite state_after_0.
  - replace (S k + fuel)%nat with (k + S fuel)%nat by lia.
    apply runs_past_S in Hrun. destruct Hrun as (Hrun & Hc & Ha).
    rewrite (IH (S fuel) s dx log Hrun), loop_unfold_at.
    apply N.leb_le in Hc. rewrite Hc, Ha. reflexivity.
Qed.

Lemma loop_outcome_from fuel : forall k s dx log,
  runs_past s dx k = true ->
  outcome_from s dx log k fuel
    (loop fuel (policy_step dx k) (state_after s dx k)
          (policy_log (root_ s) dx k ++ log)).
Proof.
  induction fuel as [|fuel IH]; intros k s dx log Hrun;
    rewrite loop_unfold_at;
    destruct (count_after (evaluationNumber_ s) k <=? maxEvaluations_ s)%N
      eqn:Hc.
  - apply N.leb_le in Hc. cbn. rewrite Nat.add_0_r. now split.
  - apply N.leb_gt in Hc. cbn. exists k. repeat split; auto; lia.
  - apply N.leb_le in Hc.
    destruct (policy_accepts (root_ s) dx (S k)) eqn:Ha.
    + cbn. exists k. repeat split; auto; lia.
    + specialize (IH (S k) s dx log (runs_past_extend _ _ _ Hrun Hc Ha)).
      cbn [Bisection.policy_log app] in IH.
      destruct (loop fuel _ _ _) as [r s' l|n s' l|]; cbn in IH |- *.
      * destruct IH as (m & Hm & H). exists m. split; [lia | exact H].
      * destruct IH as (m & Hm & H). exists m. split; [lia | exact H].
      * now replace (k + S fuel)%nat with (S k + fuel)%nat by lia.
  - apply N.leb_gt in Hc. cbn. exists k. repeat split; auto; lia.
Qed.

Lemma orient_policy (s : Solver1D Real) :
  orient s = (start_step s, start_state s).
Proof.
  unfold orient, start_step, start_state, policy_start.
  now destruct (r_ltb (fxMin_ s) r_zero).
Qed.

Lemma solveImpl_loop fuel s :
  solveImpl fuel s = loop fuel (start_step s) (start_state s) [].
Proof. unfold Bisection.solveImpl. now rewrite orient_policy. Qed.

Lemma solveImpl_outcome fuel s :
  outcome_from (start_state s) (start_step s) [] 0 fuel (solveImpl fuel s).
Proof.
  rewrite solveImpl_loop.
  assert (H0 : runs_past (start_state s) (start_step s) 0 = true)
    by reflexivity.
  pose proof (@loop_outcome_from fuel 0 (start_state s) (start_step s) []
                H0) as H.
  cbn [policy_step Bisection.policy_log app] in H.
  now rewrite state_after_0 in H.
Qed.

(** An accepting iteration within the budget and the fuel makes the
    loop return. *)
Lemma loop_returns k fuel s dx log :
  runs_past s dx k = true ->
  (count_after (evaluationNumber_ s) k <= maxEvaluations_ s)%N ->
  policy_accepts (root_ s) dx (S k) = true ->
  loop (k + S fuel) dx s log =
  Returned (policy_root (root_ s) dx (S k)) (state_after s dx (S k))
           (policy_log (root_ s) dx (S k) ++ log).
Proof.
  intros Hrun Hc Ha. rewrite (loop_runs_past _ _ _ _ _ Hrun), loop_unfold_at.
  apply N.leb_le in Hc. now rewrite Hc, Ha.
Qed.

(** A guard that fails after [k] iterations without acceptance makes
    the loop fail. *)
Lemma loop_fails k fuel s dx log :
  runs_past s dx k = true ->
  (maxEvaluations_ s < count_after (evaluationNumber_ s) k)%N ->
  loop (k + fuel) dx s log =
  Failed (maxEvaluations_ s) (state_after s dx k)
         (policy_log (root_ s) dx k ++ log).
Proof.
  intros Hrun Hc. rewrite (loop_runs_past _ _ _ _ _ Hrun), loop_unfold_at.
  apply N.leb_gt in Hc. now rewrite Hc.
Qed.

Lemma start_state_root (s : Solver1D Real) :
  root_ (start_state s) = fst (policy_start s).
Proof. reflexivity. Qed.

(** While the budget is below the largest [Size], the counter never
    wraps during iterations that the guard lets through. *)
Lemma count_after_no_wrap (s : Solver1D Real) dx k :
  runs_past s dx k = true ->
  (maxEvaluations_ s < size_max size_bits)%N ->
  count_after (evaluationNumber_ s) k
  = (evaluationNumber_ s + N.of_nat k)%N.
Proof.
  intros Hrun Hmax. induction k as [|k IH].
  - cbn. lia.
  - apply runs_past_S in Hrun. destruct Hrun as (Hrun & Hc & _).
    specialize (IH Hrun). cbn [Bisection.count_after].
    unfold size_wrap, size_max in *.
    rewrite IH in *. rewrite N.mod_small; lia.
Qed.

(** C1.  [solveImpl] follows the bisection policy: it starts the
    candidate at [xMin_] with step [xMax_ - xMin_] when [fxMin_ < 0]
    and at [xMax_] with step [xMin_ - xMax_] otherwise
    ([policy_start]); iteration [k] works with that step halved [k]
    times ([policy_step]); and it returns a root exactly when some
    iteration that the budget lets through is the first one whose
    step is smaller in size than the accuracy or whose midpoint value
    is exactly zero ([policy_accepts]), the root being the candidate
    of that iteration. *)
Theorem solveImpl_follows_policy fuel (s : Solver1D Real) root s' log :
  solveImpl fuel s = Returned root s' log <->
  exists k, (k < fuel)%nat /\
    runs_past (start_state s) (start_step s) k = true /\
    (count_after (evaluationNumber_ s) k <= maxEvaluations_ s)%N /\
    policy_accepts (fst (policy_start s)) (snd (policy_start s)) (S k)
      = true /\
    root = policy_root (fst (policy_start s)) (snd (policy_start s)) (S k) /\
    s' = state_after (start_state s) (start_step s) (S k) /\
    log = policy_log (fst (policy_start s)) (snd (policy_start s)) (S k).
Proof.
  split.
  - intros H. pose proof (solveImpl_outcome fuel s) as Ho.
    rewrite H in Ho. cbn [Bisection.outcome_from] in Ho.
    destruct Ho as (m & Hm & Hrun & Hc & Ha & -> & -> & ->).
    exists m. rewrite app_nil_r. repeat split; auto. lia.
  - intros (k & Hk & Hrun & Hc & Ha & -> & -> & ->).
    rewrite solveImpl_loop.
    replace fuel with (k + S (fuel - S k))%nat by lia.
    rewrite (@loop_returns k _ (start_state s) (start_step s) []); auto.
    now rewrite app_nil_r.
Qed.

(** C2.  When the loop guard fails after [k] iterations none of which
    met the convergence test (the budget is used up before
    convergence), [solveImpl] ends in the failure that reports
    [maxEvaluations_], and with no amount of fuel does it return a
    value. *)
Theorem exhausted_budget_fails fuel k (s : Solver1D Real) :
  (k <= fuel)%nat ->
  runs_past (start_state s) (start_step s) k = true ->
  (maxEvaluations_ s < count_after (evaluationNumber_ s) k)%N ->
  solveImpl fuel s
  = Failed (maxEvaluations_ s)
           (state_after (start_state s) (start_step s) k)
           (policy_log (fst (policy_start s)) (snd (policy_start s)) k)
  /\ (forall fuel' root s' log,
        solveImpl fuel' s <> Returned root s' log).
Proof.
  intros Hk Hrun Hc. split.
  - rewrite solveImpl_loop.
    replace fuel with (k + (fuel - k))%nat by lia.
    rewrite (@loop_fails k _ (start_state s) (start_step s) []); auto.
    now rewrite app_nil_r.
  - intros fuel' root s' log H.
    pose proof (solveImpl_outcome fuel' s) as Ho.
    rewrite H in Ho. cbn [Bisection.outcome_from] in Ho.
    destruct Ho as (m & _ & Hrm & Hcm & Ham & _).
    destruct (Nat.lt_ge_cases m k) as [Hlt|Hge].
    + apply (@runs_past_le _ _ k (S m)) in Hrun; [|lia].
      apply runs_past_S in Hrun. destruct Hrun as (_ & _ & Hn).
      rewrite start_state_root in *. congruence.
    + destruct (Nat.eq_dec m k) as [->|Hne].
      * cbn in Hcm. lia.
      * pose proof (@runs_past_guard _ _ m k ltac:(lia) Hrm) as Hg.
        cbn in Hg. lia.
Qed.

(** C3, as the code has it.  With a budget [N] below the largest
    [Size], [solveImpl] ends: it returns or fails, after at most
    [N + 1 - e0] calls of [f], where [e0] is the evaluation count at
    entry (no call at all when [e0 > N]); every call is counted, so
    that [evaluationNumber_] ends at most at [max e0 (N + 1)], one
    above the budget. *)
Theorem evaluations_bounded fuel (s : Solver1D Real) :
  (maxEvaluations_ s < size_max size_bits)%N ->
  (N.to_nat (maxEvaluations_ s + 1 - evaluationNumber_ s) <= fuel)%nat ->
  match solveImpl fuel s with
  | Returned _ s' log | Failed _ s' log =>
      (N.of_nat (length log)
       <= maxEvaluations_ s + 1 - evaluationNumber_ s)%N /\
      evaluationNumber_ s'
      = (evaluationNumber_ s + N.of_nat (length log))%N /\
      (evaluationNumber_ s'
       <= N.max (evaluationNumber_ s) (maxEvaluations_ s + 1))%N
  | OutOfFuel => False
  end.
Proof.
  intros Hmax Hfuel. pose proof (solveImpl_outcome fuel s) as Ho.
  assert (Hmax' : (maxEvaluations_ (start_state s)
                   < size_max size_bits)%N) by exact Hmax.
  destruct (solveImpl fuel s) as [r s' l|n s' l|];
    cbn [Bisection.outcome_from] in Ho.
  - destruct Ho as (m & _ & Hrun & Hc & Ha & _ & -> & ->).
    rewrite app_nil_r, length_policy_log.
    pose proof (count_after_no_wrap _ _ _ Hrun Hmax') as Hm.
    assert (HcS : count_after (evaluationNumber_ s) (S m)
                  = (evaluationNumber_ s + N.of_nat (S m))%N).
    { cbn [Bisection.count_after]. cbn in Hm, Hc. rewrite Hm in *.
      unfold size_wrap, size_max in *. rewrite N.mod_small; lia. }
    cbn in Hm, Hc |- *. rewrite Hm in Hc.
    cbn [Bisection.count_after] in HcS. rewrite HcS. lia.
  - destruct Ho as (m & _ & Hrun & Hc & _ & -> & ->).
    rewrite app_nil_r, length_policy_log.
    pose proof (count_after_no_wrap _ _ _ Hrun Hmax') as Hm.
    cbn in Hm, Hc |- *. rewrite Hm in *.
    destruct m as [|m]; [lia|].
    pose proof (@runs_past_guard _ _ (S m) m ltac:(lia) Hrun) as Hg.
    pose proof (count_after_no_wrap _ _ _
                  (@runs_past_le _ _ (S m) m ltac:(lia) Hrun) Hmax') as Hm'.
    cbn in Hg, Hm'. rewrite Hm' in Hg. lia.
  - destruct Ho as (Hrun & Hc).
    pose proof (count_after_no_wrap _ _ _ Hrun Hmax') as Hm.
    cbn in Hm, Hc. rewrite Hm in Hc. lia.
Qed.

End Generic.

Section Candidate.

Context {Real : Type} {ops : RealOps Real}.
Variable f : Real -> Real.

(** The candidate only moves to points where [f] is not positive: when
    [f] is not positive where the search starts, it is not positive at
    the candidate after any number of iterations. *)
Lemma policy_root_nonpositive r0 dx k :
  r_leb (f r0) r_zero = true ->
  r_leb (f (policy_root f r0 dx k)) r_zero = true.
Proof.
  intros H0. induction k as [|k IH]; [exact H0|].
  cbn [policy_root].
  destruct (r_leb (f (r_add (policy_root f r0 dx k) (policy_step dx (S k))))
                  r_zero) eqn:E; [exact E | exact IH].
Qed.

End Candidate.

Import Binary64 BracketRounding BracketRoundingFacts.

(** Comparisons with zero in binary64: [x < 0.0] implies [x <= 0.0],
    and two values that compare equal compare alike with zero. *)
Lemma binary64_lt_le (x : float) :
  PrimFloat.ltb x 0 = true -> PrimFloat.leb x 0 = true.
Proof.
  rewrite ltb_spec, leb_spec. unfold SFltb, SFleb.
  destruct (SFcompare _ _) as [[]|]; auto; discriminate.
Qed.

Lemma SFcompare_eq_zero a b z :
  SFcompare a b = Some Eq ->
  SFcompare a (S754_zero z) = SFcompare b (S754_zero z).
Proof.
  destruct a as [sa|sa| |sa ma ea], b as [sb|sb| |sb mb eb]; cbn;
    try discriminate; try reflexivity;
    try (destruct sa; discriminate); try (destruct sb; discriminate).
  - destruct sa, sb; try discriminate; reflexivity.
  - destruct sa, sb; try discriminate; reflexivity.
Qed.

Lemma binary64_eq_sign (a b : float) :
  PrimFloat.eqb a b = true ->
  PrimFloat.ltb a 0 = PrimFloat.ltb b 0 /\
  PrimFloat.leb a 0 = PrimFloat.leb b 0.
Proof.
  rewrite eqb_spec, !ltb_spec, !leb_spec. unfold SFeqb, SFltb, SFleb.
  change (Prim2SF 0) with (S754_zero false).
  intros H.
  destruct (SFcompare (Prim2SF a) (Prim2SF b)) as [[]|] eqn:E;
    try discriminate.
  rewrite (SFcompare_eq_zero _ _ false E). split; reflexivity.
Qed.

(** In binary64, on a bracket whose end values have opposite signs,
    zero being allowed at [xMax_] only, [f] is not positive where the
    search starts. *)
Lemma start_nonpositive (f : float -> float) (s : Solver1D float) :
  bracket_of f s = true -> sign_change s = true ->
  PrimFloat.leb (f (fst (policy_start s))) 0 = true.
Proof.
  unfold bracket_of, sign_change, policy_start.
  rewrite !andb_true_iff, orb_true_iff, !andb_true_iff.
  cbn [r_ltb r_leb r_eqb r_zero Float64].
  intros ((_ & Hlo) & Hhi) Hs.
  destruct (binary64_eq_sign Hlo) as (Hlo1 & _).
  destruct (binary64_eq_sign Hhi) as (_ & Hhi2).
  destruct (PrimFloat.ltb (fxMin_ s) 0) eqn:E; cbn [fst].
  - apply binary64_lt_le. now rewrite <- Hlo1.
  - destruct Hs as [[Hs _]|[Hs _]]; [discriminate|].
    now rewrite <- Hhi2.
Qed.


(** ** Runs on concrete inputs *)

(** The candidate after [k] iterations is the member [root_] of the
    state the loop has reached. *)
Lemma state_after_root {Real} {ops : RealOps Real} size_bits
    (f : Real -> Real) (s : Solver1D Real) dx k :
  root_ (state_after size_bits f s dx k) = policy_root f (root_ s) dx k.
Proof. reflexivity. Qed.

(** With the largest [Size] as budget the guard of the loop never
    fails: the counter wraps around instead of exceeding it. *)
Lemma largest_budget_never_fails {Real} {ops : RealOps Real} size_bits
    (f : Real -> Real) acc (s : Solver1D Real) fuel n s' log :
  size_ok size_bits s ->
  maxEvaluations_ s = size_max size_bits ->
  solveImpl size_bits f acc fuel s <> Failed n s' log.
Proof.
  intros [_ He] Hmax H.
  pose proof (solveImpl_outcome size_bits f acc fuel s) as Ho.
  rewrite H in Ho. cbn [outcome_from] in Ho.
  destruct Ho as (m & _ & _ & Hc & _).
  assert (Hb : forall j,
    (count_after size_bits (evaluationNumber_ s) j <= size_max size_bits)%N).
  { intros [|j]; [exact He|]. cbn [count_after]. unfold size_wrap, size_max.
    assert (2 ^ size_bits <> 0)%N by (apply N.pow_nonzero; lia).
    pose proof (N.mod_upper_bound
      (count_after size_bits (evaluationNumber_ s) j + 1) (2 ^ size_bits)
      ltac:(assumption)). lia. }
  specialize (Hb m). cbn in Hc. rewrite Hmax in Hc. lia.
Qed.

(** C4.  On f(x) = x^3 - x - 2, bracket [1, 2], accuracy 1e-8, budget
    100 with the two evaluations of the bracket counted, the solver
    returns, within the budget, a value that differs from 1.521379707
    by less than the accuracy. *)
Theorem cubic_root_within_accuracy :
  exists root s' log,
    solveImpl size_t_bits cubic 1e-8%float 100 (bracket_1_2 100 2)
    = Returned root s' log /\
    PrimFloat.ltb (PrimFloat.abs (root - known_root)) 1e-8%float = true /\
    (evaluationNumber_ s' <= maxEvaluations_ s')%N.
Proof.
  eexists; eexists; eexists. split; [vm_compute; reflexivity|].
  split; [vm_compute; reflexivity | cbn; lia].
Qed.

(** C2 at work: a budget of one evaluation on the bracket [1, 2] of the
    cubic, which needs 27 halvings for accuracy 1e-8. *)
Lemma exhausted_budget_fails_witness :
  let s := bracket_1_2 1 0 in
  runs_past size_t_bits cubic 1e-8%float (start_state s) (start_step s) 2
  = true /\
  (maxEvaluations_ s < count_after size_t_bits (evaluationNumber_ s) 2)%N /\
  (solveImpl size_t_bits cubic 1e-8%float 2 s
   = Failed 1 (state_after size_t_bits cubic (start_state s) (start_step s) 2)
            (policy_log cubic (fst (policy_start s)) (snd (policy_start s)) 2)
   /\ (forall fuel' root s' log,
         solveImpl size_t_bits cubic 1e-8%float fuel' s
         <> Returned root s' log)).
Proof.
  intros s. split; [vm_compute; reflexivity|].
  split; [vm_compute; reflexivity|].
  apply (@exhausted_budget_fails float Float64 size_t_bits cubic 1e-8%float
           2 2 s); [lia | vm_compute; reflexivity | vm_compute; reflexivity].
Defined.

(** C3 as stated fails: with budget 3 and no evaluation counted at
    entry, accuracy 0.1 is reached at the fourth halving, and the solver
    returns after four calls of [f], the counter standing at 4. *)
Lemma budget_overrun_by_one :
  exists root s' log,
    solveImpl size_t_bits cubic 0.1%float 10 (bracket_1_2 3 0)
    = Returned root s' log /\
    (maxEvaluations_ s' < N.of_nat (length log))%N /\
    (maxEvaluations_ s' < evaluationNumber_ s')%N.
Proof.
  eexists; eexists; eexists. split; [vm_compute; reflexivity|].
  split; vm_compute; reflexivity.
Qed.

Lemma evaluations_bounded_witness :
  let s := bracket_1_2 5 2 in
  (maxEvaluations_ s < size_max size_t_bits)%N /\
  (N.to_nat (maxEvaluations_ s + 1 - evaluationNumber_ s) <= 4)%nat /\
  match solveImpl size_t_bits cubic 1e-8%float 4 s with
  | Returned _ s' log | Failed _ s' log =>
      (N.of_nat (length log)
       <= maxEvaluations_ s + 1 - evaluationNumber_ s)%N /\
      evaluationNumber_ s'
      = (evaluationNumber_ s + N.of_nat (length log))%N /\
      (evaluationNumber_ s'
       <= N.max (evaluationNumber_ s) (maxEvaluations_ s + 1))%N
  | OutOfFuel => False
  end.
Proof.
  intros s. split; [vm_compute; reflexivity|].
  split; [vm_compute; lia|].
  apply (@evaluations_bounded float Float64 size_t_bits cubic 1e-8%float 4 s);
    [vm_compute; reflexivity | vm_compute; lia].
Defined.



End BisectionFacts.

(** ** Notification *)

Module ObserverFacts.
Import Observers.

Local Open Scope nat_scope.

Section Notification.
Context {Real : Type} {ops : RealOps Real}.
Implicit Types w : world Real.

Lemma upd_eq {A} (m : id -> A) i a : upd m i a i = a.
Proof. unfold upd. now rewrite Nat.eqb_refl. Qed.

Lemma upd_neq {A} (m : id -> A) i j a : j <> i -> upd m i a j = m j.
Proof. unfold upd. intros H. apply Nat.eqb_neq in H. now rewrite H. Qed.

Lemma same_wiring_refl w : same_wiring w w.
Proof. repeat split. Qed.

Lemma updates_deliver x w y :
  updates (deliver x w) y = updates w y + (if Nat.eq_dec x y then 1 else 0).
Proof.
  cbn. unfold upd. destruct (Nat.eq_dec x y) as [->|Hn].
  - rewrite Nat.eqb_refl. lia.
  - assert (H : Nat.eqb y x = false) by (apply Nat.eqb_neq; congruence).
    rewrite H. lia.
Qed.

Lemma notify_plain fuel' l : forall w,
  (forall x, In x l -> forwards w x = false) ->
  exists w',
    fold_left
      (fun acc x =>
         match acc with
         | None => None
         | Some w1 =>
             let w2 := deliver x w1 in
             if forwards w2 x then notifyObservers fuel' x w2 else Some w2
         end) l (Some w) = Some w' /\
    same_wiring w w' /\
    forall y, updates w' y = updates w y + count_occ Nat.eq_dec l y.
Proof.
  induction l as [|a l IH]; intros w Hl; cbn [fold_left].
  - exists w. split; [reflexivity|]. split; [apply same_wiring_refl|].
    intros y. cbn. lia.
  - cbn zeta. change (forwards (deliver a w) a) with (forwards w a).
    rewrite (Hl a (or_introl eq_refl)).
    destruct (IH (deliver a w)) as (w' & Hw' & Hs & Hu).
    { intros x Hx. apply Hl. now right. }
    exists w'. split; [exact Hw'|]. split; [exact Hs|].
    intros y. rewrite Hu, updates_deliver. cbn [count_occ].
    destruct (Nat.eq_dec a y); lia.
Qed.

Lemma last_cons_default {A} (l : list A) : forall a d,
  last (a :: l) d = last l a.
Proof.
  induction l as [|b l IH]; intros a d; [reflexivity|].
  change (last (a :: b :: l) d) with (last (b :: l) d).
  now rewrite (IH b d), (IH b a).
Qed.

Lemma notify_chain path : forall fuel o w,
  length path < fuel ->
  chain (forwards w) (observers w) o path ->
  exists w',
    notifyObservers fuel o w = Some w' /\
    same_wiring w w' /\
    forall y, updates w' y
              = updates w y + count_occ Nat.eq_dec path y
                + count_occ Nat.eq_dec (observers w (last path o)) y.
Proof.
  induction path as [|p rest IH]; intros fuel o w Hf Hc;
    (destruct fuel as [|fuel]; [cbn in Hf; lia|]); cbn [notifyObservers].
  - cbn in Hc. destruct (notify_plain fuel (observers w o) w Hc)
      as (w' & Hw' & Hs & Hu).
    exists w'. split; [exact Hw'|]. split; [exact Hs|].
    intros y. rewrite Hu. cbn. lia.
  - destruct Hc as (Ho & Hp & Hc). rewrite Ho. cbn [fold_left]. cbn zeta.
    change (forwards (deliver p w) p) with (forwards w p). rewrite Hp.
    destruct (IH fuel p (deliver p w)) as (w' & Hw' & Hs & Hu).
    { cbn in Hf. lia. }
    { exact Hc. }
    exists w'. split; [exact Hw'|]. split; [exact Hs|].
    intros y. rewrite Hu, updates_deliver. cbn [count_occ].
    change (observers (deliver p w)) with (observers w).
    replace (last (p :: rest) o) with (last rest p).
    + destruct (Nat.eq_dec p y); lia.
    + symmetry. apply last_cons_default.
Qed.

Lemma registerWith_fields x o w :
  next_id (registerWith x o w) = next_id w /\
  forwards (registerWith x o w) = forwards w /\
  updates (registerWith x o w) = updates w /\
  pointee (registerWith x o w) = pointee w /\
  quoted (registerWith x o w) = quoted w.
Proof.
  unfold registerWith. destruct (existsb _ _); repeat split.
Qed.

Lemma registerWith_other x o o' w :
  o' <> o -> observers (registerWith x o w) o' = observers w o'.
Proof.
  intros H. unfold registerWith. destruct (existsb _ _); [reflexivity|].
  cbn. now apply upd_neq.
Qed.

Lemma existsb_eqb_In x (l : list id) : existsb (Nat.eqb x) l = true <-> In x l.
Proof.
  rewrite existsb_exists. split.
  - intros (y & Hy & E). apply Nat.eqb_eq in E. now subst.
  - intros H. exists x. split; [exact H | apply Nat.eqb_refl].
Qed.

Lemma registerWith_In x o w y :
  In y (observers (registerWith x o w) o) <-> y = x \/ In y (observers w o).
Proof.
  unfold registerWith. destruct (existsb _ _) eqn:E.
  - apply existsb_eqb_In in E. split; [now right|].
    intros [->|H]; assumption.
  - cbn. rewrite upd_eq. cbn. split; intros [H|H]; auto.
Qed.

Lemma registerWith_NoDup x o w :
  NoDup (observers w o) -> NoDup (observers (registerWith x o w) o).
Proof.
  intros H. unfold registerWith. destruct (existsb _ _) eqn:E; [exact H|].
  cbn. rewrite upd_eq. constructor; [|exact H].
  intros Hin. apply existsb_eqb_In in Hin. congruence.
Qed.

Lemma register_all_fields regs d : forall w,
  next_id (register_all regs d w) = next_id w /\
  forwards (register_all regs d w) = forwards w /\
  updates (register_all regs d w) = updates w /\
  pointee (register_all regs d w) = pointee w /\
  quoted (register_all regs d w) = quoted w.
Proof.
  induction regs as [|x regs IH]; intros w; cbn [register_all fold_left].
  - repeat split.
  - destruct (IH (registerWith x d w)) as (H1 & H2 & H3 & H4 & H5).
    destruct (registerWith_fields x d w) as (G1 & G2 & G3 & G4 & G5).
    unfold register_all in *.
    repeat split; congruence.
Qed.

Lemma register_all_other regs d o : forall w,
  o <> d -> observers (register_all regs d w) o = observers w o.
Proof.
  induction regs as [|x regs IH]; intros w H; cbn [register_all fold_left].
  - reflexivity.
  - unfold register_all in IH. rewrite IH by exact H.
    now apply registerWith_other.
Qed.

Lemma register_all_In regs d y : forall w,
  In y (observers (register_all regs d w) d)
  <-> In y regs \/ In y (observers w d).
Proof.
  induction regs as [|x regs IH]; intros w; cbn [register_all fold_left].
  - cbn. tauto.
  - unfold register_all in IH. rewrite IH, registerWith_In. cbn. intuition.
Qed.

Lemma register_all_NoDup regs d : forall w,
  NoDup (observers w d) -> NoDup (observers (register_all regs d w) d).
Proof.
  induction regs as [|x regs IH]; intros w H; cbn [register_all fold_left].
  - exact H.
  - apply IH. now apply registerWith_NoDup.
Qed.

Lemma plain_observers_spec regs x :
  plain_observers regs = true -> In x regs -> 5 <= x.
Proof.
  unfold plain_observers. rewrite forallb_forall. intros H Hx.
  apply Nat.leb_le. now apply H.
Qed.

(** The wiring of the scene before any observer is registered. *)
Lemma base_scene_facts kind (spread : Real) :
  let b := base_scene kind spread in
  sc_quote b = 0 /\ sc_quote_handle b = 1 /\ sc_handle b = 2 /\
  sc_decorator b = 3 /\ sc_curve b = 4 /\
  observers (sc_world b) 0 = [1] /\
  observers (sc_world b) 1
    = match kind with Implied => [] | _ => [3] end /\
  observers (sc_world b) 2 = [3] /\
  observers (sc_world b) 3 = [] /\
  forwards (sc_world b) 1 = true /\
  forwards (sc_world b) 3 = true /\
  (forall x, 5 <= x -> forwards (sc_world b) x = false) /\
  pointee (sc_world b) 2 = None /\
  quoted (sc_world b) 0 = Some spread.
Proof.
  destruct kind; cbn; repeat split;
    intros x Hx; do 5 (destruct x as [|x]; [lia|]); reflexivity.
Qed.


Lemma count_occ_NoDup_In (l : list id) y :
  NoDup l ->
  count_occ Nat.eq_dec l y = if in_dec Nat.eq_dec y l then 1 else 0.
Proof.
  intros Hnd. destruct (in_dec Nat.eq_dec y l) as [Hin|Hout].
  - now apply (proj1 (NoDup_count_occ' Nat.eq_dec l) Hnd).
  - now apply count_occ_not_In.
Qed.

(** C8.  For each of the three decorator curves built on an empty
    base handle, and whatever observers were registered with the
    decorator before the link (some of them perhaps more than once),
    the first [linkTo] on that handle ends, links the curve, and
    delivers exactly one [update()] to the decorator and to each of
    its registered observers, and none to any other plain observer. *)
Theorem first_link_notifies_once kind (spread : Real) regs fuel :
  plain_observers regs = true -> 2 <= fuel ->
  let sc := wired kind spread regs in
  pointee (sc_world sc) (sc_handle sc) = None /\
  exists w',
    linkTo fuel (sc_handle sc) (sc_curve sc) (sc_world sc) = Some w' /\
    pointee w' (sc_handle sc) = Some (sc_curve sc) /\
    updates w' (sc_decorator sc) = S (updates (sc_world sc) (sc_decorator sc)) /\
    (forall x, In x regs -> updates w' x = S (updates (sc_world sc) x)) /\
    (forall x, 5 <= x -> ~ In x regs ->
               updates w' x = updates (sc_world sc) x).
Proof.
  intros Hplain Hfuel sc.
  destruct (base_scene_facts kind spread)
    as (Eq & Emh & Eh & Ed & Ets & O0 & O1 & O2 & O3 & F1 & F3 & Fp & P2 & Q0).
  cbn zeta in *.
  set (b := base_scene kind spread) in *.
  destruct (register_all_fields regs (sc_decorator b) (sc_world b))
    as (_ & Rf & Ru & Rp & _).
  unfold sc, wired. cbn [sc_world sc_handle sc_curve sc_decorator].
  fold b. rewrite Eh, Ed, Ets in *.
  set (w := register_all regs 3 (sc_world b)) in *.
  assert (Hp : pointee w 2 = None) by (rewrite Rp; exact P2).
  split; [exact Hp|].
  unfold linkTo. rewrite Hp.
  set (w2 := registerWith 2 4 (with_pointee 2 (Some 4) w)).
  destruct (registerWith_fields 2 4 (with_pointee 2 (Some 4) w))
    as (_ & Wf & Wu & Wp & _). fold w2 in Wf, Wu, Wp. cbn in Wf, Wu, Wp.
  assert (Wo : forall o, o <> 4 -> observers w2 o = observers w o).
  { intros o Ho. unfold w2. now rewrite registerWith_other. }
  assert (Hobs3 : forall x, In x (observers w 3) <-> In x regs).
  { intros x. unfold w. rewrite register_all_In, O3. cbn. tauto. }
  assert (Hnd : NoDup (observers w 3)).
  { unfold w. apply register_all_NoDup. rewrite O3. constructor. }
  destruct (@notify_chain [3] fuel 2 w2) as (w' & Hw' & Hs & Hu).
  { cbn. lia. }
  { cbn. rewrite !Wo by lia. unfold w at 1.
    rewrite register_all_other by lia. rewrite O2, Wf, Rf.
    repeat split; auto.
    intros x Hx. apply Fp. apply Hobs3 in Hx.
    now apply (plain_observers_spec regs). }
  exists w'. split; [exact Hw'|].
  destruct Hs as (_ & _ & _ & Sp & _).
  cbn [last] in Hu. rewrite Wo in Hu by lia.
  split; [rewrite Sp, Wp; reflexivity|].
  assert (Hn3 : ~ In 3 (observers w 3)).
  { intros H. apply Hobs3 in H.
    pose proof (plain_observers_spec regs 3 Hplain H). lia. }
  split; [|split].
  - rewrite Hu, Wu. cbn [count_occ].
    rewrite (proj1 (count_occ_not_In Nat.eq_dec (observers w 3) 3) Hn3).
    destruct (Nat.eq_dec 3 3); lia.
  - intros x Hx. pose proof (plain_observers_spec regs x Hplain Hx) as H5.
    rewrite Hu, Wu. cbn [count_occ].
    destruct (Nat.eq_dec 3 x); [lia|].
    rewrite (proj1 (NoDup_count_occ' Nat.eq_dec (observers w 3)) Hnd x).
    + lia.
    + now apply Hobs3.
  - intros x H5 Hx. rewrite Hu, Wu. cbn [count_occ].
    destruct (Nat.eq_dec 3 x); [lia|].
    assert (Hn : ~ In x (observers w 3))
      by (intros H; now apply Hobs3 in H).
    rewrite (proj1 (count_occ_not_In Nat.eq_dec (observers w 3) x) Hn).
    lia.
Qed.

(** C9.  On a quote whose value is [v], [setValue x] leaves the world
    as it is (nothing stored, nobody notified) when [x == v] holds
    under the exact comparison of [Real], and otherwise stores [x]
    and notifies the observers of the quote.  When the quote is
    observed through a chain of forwarding observers (its handle, a
    decorator curve) that ends in plain observers, a value that
    differs delivers exactly one [update()] to each of them. *)
Theorem setValue_notifies_iff_changed (w : world Real) q v x fuel :
  quoted w q = Some v ->
  (if r_eqb x v then setValue fuel q x w = Some w
   else setValue fuel q x w
        = notifyObservers fuel q (with_quoted q (Some x) w)) /\
  (forall path,
     chain (forwards w) (observers w) q path ->
     length path < fuel ->
     NoDup (path ++ observers w (last path q)) ->
     r_eqb x v = false ->
     exists w',
       setValue fuel q x w = Some w' /\
       quoted w' q = Some x /\
       forall y,
         updates w' y
         = updates w y
           + (if in_dec Nat.eq_dec y (path ++ observers w (last path q))
              then 1 else 0)).
Proof.
  intros Hq. split.
  - unfold setValue. rewrite Hq. now destruct (r_eqb x v).
  - intros path Hc Hf Hnd Hx.
    unfold setValue. rewrite Hq, Hx.
    destruct (@notify_chain path fuel q (with_quoted q (Some x) w) Hf Hc)
      as (w' & Hw' & Hs & Hu).
    exists w'. split; [exact Hw'|].
    destruct Hs as (_ & _ & _ & _ & Sq).
    split; [rewrite Sq; cbn; apply upd_eq|].
    intros y. rewrite Hu. cbn [updates observers with_quoted].
    rewrite <- Nat.add_assoc, <- count_occ_app.
    now rewrite count_occ_NoDup_In.
Qed.

End Notification.

(** The forward-spreaded curve of the test suite, with an observer
    registered twice and another once. *)
Lemma first_link_notifies_once_witness :
  plain_observers [5; 6; 5] = true /\ 2 <= 2 /\
  let sc := wired ForwardSpreaded 0.01%float [5; 6; 5] in
  pointee (sc_world sc) (sc_handle sc) = None /\
  exists w',
    linkTo 2 (sc_handle sc) (sc_curve sc) (sc_world sc) = Some w' /\
    pointee w' (sc_handle sc) = Some (sc_curve sc) /\
    updates w' (sc_decorator sc)
    = S (updates (sc_world sc) (sc_decorator sc)) /\
    (forall x, In x [5; 6; 5] -> updates w' x = S (updates (sc_world sc) x)) /\
    (forall x, 5 <= x -> ~ In x [5; 6; 5] ->
               updates w' x = updates (sc_world sc) x).
Proof.
  split; [reflexivity|]. split; [lia|].
  apply (@first_link_notifies_once float ForwardSpreaded 0.01%float
           [5; 6; 5] 2); [reflexivity | lia].
Defined.

(** The spread quote of the test suite, observed through its handle
    (1) and the decorator (3) by the observers 5 and 6: setting the
    value it has changes nothing; setting 0.005 reaches each of them
    once, and not the curve (4). *)
Lemma setValue_notifies_iff_changed_witness :
  let w := sc_world (wired ForwardSpreaded 0.01%float [5; 6]) in
  quoted w 0 = Some 0.01%float /\
  setValue 3 0 0.01%float w = Some w /\
  exists w',
    setValue 3 0 0.005%float w = Some w' /\
    quoted w' 0 = Some 0.005%float /\
    updates w' 1 = 1 /\ updates w' 3 = 1 /\
    updates w' 5 = 1 /\ updates w' 6 = 1 /\ updates w' 4 = 0.
Proof.
  intros w.
  assert (Hq : quoted w 0 = Some 0.01%float) by reflexivity.
  split; [exact Hq|]. split.
  - exact (proj1 (@setValue_notifies_iff_changed float Float64 w 0
                    0.01%float 0.01%float 3 Hq)).
  - destruct (proj2 (@setValue_notifies_iff_changed float Float64 w 0
                       0.01%float 0.005%float 3 Hq) [1; 3])
      as (w' & Hw' & Hq' & Hu).
    + cbn. repeat split.
      intros x [<-|[<-|[]]]; reflexivity.
    + cbn. lia.
    + cbn. repeat constructor; cbn; intuition discriminate.
    + reflexivity.
    + exists w'. split; [exact Hw'|]. split; [exact Hq'|].
      rewrite !Hu. repeat split.
Defined.

End ObserverFacts.

(** ** Curves *)

Module TermStructureFacts.
Import TermStructures.

Section Curves.

Context {Real : Type} {ops : RealOps Real} {muldiv : RealMulDiv Real}.

Lemma discount_on_curve (c : YieldTermStructure Real) d :
  (referenceDate c <= d)%Z -> discount c d = Ok (discountImpl c d).
Proof.
  intros H. unfold discount, checked.
  destruct (d <? referenceDate c)%Z eqn:E; [apply Z.ltb_lt in E; lia|].
  reflexivity.
Qed.

Lemma forward_on_curve (c : YieldTermStructure Real) d :
  (referenceDate c <= d)%Z ->
  instantaneousForward c d = Ok (forwardImpl c d).
Proof.
  intros H. unfold instantaneousForward, checked.
  destruct (d <? referenceDate c)%Z eqn:E; [apply Z.ltb_lt in E; lia|].
  reflexivity.
Qed.

(** Whatever the arithmetic, the implied discount is the quotient of
    the two discounts of the base curve, and [testImplied] checks that
    quotient multiplied back. *)
Lemma implied_discount_value (base : YieldTermStructure Real) (r t : Date) :
  (referenceDate base <= r)%Z -> (r <= t)%Z ->
  let dr := discountImpl base r in
  let dt := discountImpl base t in
  implied_discount (Some base) r t = Ok (r_div dt dr) /\
  forall tolerance,
    testImplied tolerance base r t
    = Ok (check_close tolerance dt (r_mul dr (r_div dt dr))).
Proof.
  intros Hr Ht dr dt.
  assert (Hdr : discount base r = Ok dr) by (apply discount_on_curve; lia).
  assert (Hdt : discount base t = Ok dt) by (apply discount_on_curve; lia).
  assert (Hi : implied_discount (Some base) r t = Ok (r_div dt dr)).
  { unfold implied_discount.
    destruct (t <? r)%Z eqn:E; [apply Z.ltb_lt in E; lia|].
    cbn [deref bind]. rewrite Hdr, Hdt. reflexivity. }
  split; [exact Hi|].
  intros tol. unfold testImplied. cbn zeta.
  rewrite Hdr, Hdt, Hi. reflexivity.
Qed.

(** Whatever the arithmetic, the spreaded forward rate is the sum of
    the forward rate of the base curve and the spread, and
    [testFSpreaded] checks that sum less the spread. *)
Lemma spreaded_forward_value (base : YieldTermStructure Real)
    (spread : Real) (t : Date) :
  (referenceDate base <= t)%Z ->
  let fb := forwardImpl base t in
  spreaded_instantaneousForward (Some base) (Some (Some spread)) t
  = Ok (r_add fb spread) /\
  forall tolerance,
    testFSpreaded tolerance base (Some spread) t
    = Ok (check_close tolerance fb (r_sub (r_add fb spread) spread)).
Proof.
  intros Ht fb.
  assert (Hf : instantaneousForward base t = Ok fb)
    by (apply forward_on_curve; lia).
  assert (Hs : spreaded_instantaneousForward (Some base) (Some (Some spread)) t
               = Ok (r_add fb spread)).
  { unfold spreaded_instantaneousForward. cbn [deref value bind].
    now rewrite Hf. }
  split; [exact Hs|].
  intros tol. unfold testFSpreaded, Quote. cbn zeta.
  rewrite Hf, Hs. reflexivity.
Qed.

End Curves.


(** C6, as binary64 has it.  For every base curve, spread value and
    date [t] not before the reference date, the forward-spreaded curve
    gives [instantaneousForward(t) = base.instantaneousForward(t) +
    spread], the sum rounded; and when the forward rate of the base
    curve and the spread are at most 300000 in absolute value, the
    spreaded forward rate less the spread differs from the forward
    rate of the base curve by at most 1e-10 as the test computes the
    difference: [testFSpreaded] passes. *)
Theorem spreaded_forward_consistent (base : YieldTermStructure float)
    (spread : float) (t : Date) :
  (referenceDate base <= t)%Z ->
  let fb := forwardImpl base t in
  instantaneousForward base t = Ok fb /\
  spreaded_instantaneousForward (Some base) (Some (Some spread)) t
  = Ok (fb + spread)%float /\
  (PrimFloat.leb (PrimFloat.abs fb) 3e5 = true ->
   PrimFloat.leb (PrimFloat.abs spread) 3e5 = true ->
   PrimFloat.ltb tolerance
     (PrimFloat.abs (fb - ((fb + spread) - spread))) = false /\
   testFSpreaded tolerance base (Some spread) t = Ok TestPassed).
Proof.
  intros Ht fb.
  destruct (@spreaded_forward_value float Float64 base spread t Ht)
    as [Hs Htest].
  split; [apply forward_on_curve; lia|].
  split; [exact Hs|].
  intros Hf Hsp.
  pose proof (Binary64Facts.forward_round_trip fb spread Hf Hsp) as Hc.
  split; [exact Hc|].
  rewrite Htest. unfold check_close. cbn [r_ltb r_fabs r_sub r_add Float64].
  fold fb. unfold tolerance. now rewrite Hc.
Qed.

(** C7.  For a flat curve, whatever the day counter (as a function of
    the number of days) and the discount factor of its rate (as a
    function of time), the discount at [today + 30 + d] asked after the
    evaluation date has moved to [today + 30] is the discount at
    [today + d] asked before, for every offset [d]: a value when [d] is
    not before the settlement days, the same error otherwise. *)
Theorem flat_discount_translation Real (yearFraction : Z -> Real)
    (discountAt : Real -> Real) (c : FlatForward) (st : Settings) (d : Z) :
  let today := evaluationDate st in
  flat_discount yearFraction discountAt c
    (setEvaluationDate (today + 30)%Z st) (today + 30 + d)%Z
  = flat_discount yearFraction discountAt c st (today + d)%Z.
Proof.
  intros today. unfold flat_discount, flat_referenceDate, setEvaluationDate.
  cbn [evaluationDate]. fold today.
  replace (today + 30 + d - (today + 30 + settlementDays c))%Z
    with (today + d - (today + settlementDays c))%Z by lia.
  destruct (today + 30 + d <? today + 30 + settlementDays c)%Z eqn:E1;
    destruct (today + d <? today + settlementDays c)%Z eqn:E2;
    try reflexivity;
    [apply Z.ltb_lt in E1; apply Z.ltb_ge in E2
    |apply Z.ltb_ge in E1; apply Z.ltb_lt in E2]; lia.
Qed.


Lemma spreaded_forward_consistent_witness :
  (referenceDate sample_curve <= 5)%Z /\
  instantaneousForward sample_curve 5%Z = Ok 0.05%float /\
  spreaded_instantaneousForward (Some sample_curve) (Some (Some 0.01%float))
                                5%Z
  = Ok (0.05 + 0.01)%float /\
  PrimFloat.ltb tolerance
    (PrimFloat.abs (0.05 - ((0.05 + 0.01) - 0.01))) = false /\
  testFSpreaded tolerance sample_curve (Some 0.01%float) 5%Z = Ok TestPassed.
Proof.
  split; [cbn; lia|].
  pose proof (@spreaded_forward_consistent sample_curve 0.01%float 5%Z
                ltac:(cbn; lia)) as T.
  cbn zeta in T. destruct T as (T1 & T2 & T3).
  split; [exact T1|]. split; [exact T2|].
  apply T3; vm_compute; reflexivity.
Defined.


(** C6 as stated fails in binary64: with a forward rate of 0.05 and a
    spread of 1e7 the sum less the spread is 0.05000000074505806, off
    by more than 1e-10, and the check of [testFSpreaded] fails. *)
Lemma spreaded_difference_off_tolerance :
  (referenceDate sample_curve <= 5)%Z /\
  instantaneousForward sample_curve 5%Z = Ok 0.05%float /\
  spreaded_instantaneousForward (Some sample_curve) (Some (Some 1e7%float))
                                5%Z
  = Ok (0.05 + 1e7)%float /\
  ((0.05 + 1e7) - 1e7 = 0.05000000074505806)%float /\
  PrimFloat.ltb tolerance
    (PrimFloat.abs (0.05 - ((0.05 + 1e7) - 1e7))) = true /\
  testFSpreaded tolerance sample_curve (Some 1e7%float) 5%Z = Ok TestFailed.
Proof.
  split; [cbn; lia|]. repeat split; vm_compute; reflexivity.
Qed.

End TermStructureFacts.

(** ** More on the bisection solver *)

Module ConvergenceFacts.
Import Bisection BisectionFacts Convergence.

Section MoreGeneric.
Context {Real : Type} {ops : RealOps Real}.
Variable size_bits : N.
Variable f : Real -> Real.
Variable xAccuracy : Real.

Lemma policy_root_provenance r0 dx k :
  policy_root f r0 dx k = r0 \/
  (In (policy_root f r0 dx k) (policy_log f r0 dx k) /\
   r_leb (f (policy_root f r0 dx k)) r_zero = true).
Proof.
  induction k as [|k IH]; [now left|].
  cbn [policy_root policy_log]. unfold policy_mid at 1. cbn [pred].
  destruct (r_leb (f (r_add (policy_root f r0 dx k) (policy_step dx (S k))))
                  r_zero) eqn:E.
  - right. split; [now left | exact E].
  - destruct IH as [IH|[IH1 IH2]]; [now left|].
    right. split; [now right | exact IH2].
Qed.

(** X1.  Whatever the arithmetic, the value [solveImpl] returns is the
    member [root_] it leaves behind, and it is either the end of the
    bracket the search started from or one of the points at which [f]
    was evaluated and found not positive. *)
Theorem returned_root_provenance fuel (s : Solver1D Real) root s' log :
  solveImpl size_bits f xAccuracy fuel s = Returned root s' log ->
  root_ s' = root /\
  (root = fst (policy_start s) \/
   (In root log /\ r_leb (f root) r_zero = true)).
Proof.
  intros H. pose proof (solveImpl_outcome size_bits f xAccuracy fuel s) as Ho.
  rewrite H in Ho. cbn [outcome_from] in Ho.
  destruct Ho as (m & _ & _ & _ & _ & -> & -> & ->).
  rewrite app_nil_r, start_state_root. split; [reflexivity|].
  apply policy_root_provenance.
Qed.

(** When comparing equal to zero implies comparing below or equal to
    zero, a run that ends on a midpoint where [f] is exactly zero
    returns that midpoint. *)
Lemma zero_hit_returns_midpoint fuel (s : Solver1D Real) root s' xMid rest :
  (forall x, r_eqb x r_zero = true -> r_leb x r_zero = true) ->
  solveImpl size_bits f xAccuracy fuel s = Returned root s' (xMid :: rest) ->
  r_eqb (f xMid) r_zero = true ->
  root = xMid.
Proof.
  intros Hzl H Hz.
  pose proof (solveImpl_outcome size_bits f xAccuracy fuel s) as Ho.
  rewrite H in Ho. cbn [outcome_from] in Ho.
  destruct Ho as (m & _ & _ & _ & _ & -> & _ & Hl).
  rewrite app_nil_r in Hl. cbn [policy_log] in Hl.
  injection Hl as Hx _. subst xMid.
  cbn [policy_root]. unfold policy_mid in *. cbn [pred] in *.
  rewrite start_state_root. now rewrite (Hzl _ Hz).
Qed.

(** X4.  Whatever the arithmetic, when the first step halved [k] times
    is below the accuracy in size and the budget, which is below the
    largest [Size], leaves room for [k] more evaluations, [solveImpl]
    returns a root after at most [k] evaluations of [f]: it neither
    fails nor runs on. *)
Theorem returns_once_step_is_small fuel k (s : Solver1D Real) :
  (1 <= k <= fuel)%nat ->
  r_ltb (r_fabs (policy_step (snd (policy_start s)) k)) xAccuracy = true ->
  (evaluationNumber_ s + N.of_nat k <= maxEvaluations_ s + 1)%N ->
  (maxEvaluations_ s < size_max size_bits)%N ->
  exists root s' log,
    solveImpl size_bits f xAccuracy fuel s = Returned root s' log /\
    (length log <= k)%nat.
Proof.
  intros Hk Hw Hbudget Hmax.
  assert (Hacc : policy_accepts f xAccuracy (fst (policy_start s))
                                (snd (policy_start s)) k = true).
  { unfold policy_accepts. rewrite Hw. reflexivity. }
  pose proof (solveImpl_outcome size_bits f xAccuracy fuel s) as Ho.
  assert (Hmax' : (maxEvaluations_ (start_state s) < size_max size_bits)%N)
    by exact Hmax.
  assert (Hstop : forall m, runs_past size_bits f xAccuracy (start_state s)
                              (start_step s) m = true -> (m < k)%nat).
  { intros m Hrun. destruct (Nat.lt_ge_cases m k) as [|Hge]; [assumption|].
    apply (@runs_past_le _ _ _ _ _ _ _ m k Hge) in Hrun.
    destruct k as [|k']; [lia|]. apply runs_past_S in Hrun.
    destruct Hrun as (_ & _ & Hn). rewrite start_state_root in Hn.
    unfold start_step in Hn. congruence. }
  destruct (solveImpl size_bits f xAccuracy fuel s) as [r s' l|n s' l|];
    cbn [outcome_from] in Ho.
  - destruct Ho as (m & _ & Hrun & _ & _ & _ & _ & ->).
    exists r, s', (policy_log f (root_ (start_state s)) (start_step s) (S m) ++ []).
    split; [reflexivity|]. rewrite app_nil_r, length_policy_log.
    apply Hstop in Hrun. lia.
  - exfalso. destruct Ho as (m & _ & Hrun & Hc & _).
    pose proof (count_after_no_wrap _ _ _ _ _ _ Hrun Hmax') as Hm.
    apply Hstop in Hrun. cbn in Hm, Hc. rewrite Hm in Hc. lia.
  - exfalso. destruct Ho as (Hrun & _). apply Hstop in Hrun. cbn in Hrun. lia.
Qed.

End MoreGeneric.

(** In binary64 [x == 0.0] implies [x <= 0.0]. *)
Lemma binary64_zero_le (x : float) :
  PrimFloat.eqb x 0 = true -> PrimFloat.leb x 0 = true.
Proof.
  rewrite eqb_spec, leb_spec. unfold SFeqb, SFleb.
  destruct (SFcompare _ _) as [[]|]; auto; discriminate.
Qed.

(** X2.  In binary64, when the last point evaluated is one where [f]
    is exactly zero, [solveImpl] returns that very point (the candidate
    has moved onto it), so that [f(root) == 0]. *)
Theorem exact_zero_is_returned size_bits (f : float -> float) acc fuel
    (s : Solver1D float) root s' xMid rest :
  solveImpl size_bits f acc fuel s = Returned root s' (xMid :: rest) ->
  PrimFloat.eqb (f xMid) 0 = true ->
  root = xMid /\ PrimFloat.eqb (f root) 0 = true.
Proof.
  intros H Hz.
  assert (E : root = xMid)
    by exact (@zero_hit_returns_midpoint float Float64 size_bits f acc fuel s
                root s' xMid rest binary64_zero_le H Hz).
  subst root. now split.
Qed.

Lemma exact_zero_is_returned_witness :
  solveImpl size_t_bits line_1_5 1e-8%float 10 line_bracket
  = Returned 1.5%float
      (mkSolver1D 1.5%float 1%float 2%float (-0.5)%float 0.5%float 100%N 3%N)
      [1.5%float] /\
  PrimFloat.eqb (line_1_5 1.5) 0 = true /\
  (1.5%float = 1.5%float /\ PrimFloat.eqb (line_1_5 1.5) 0 = true).
Proof.
  assert (H : solveImpl size_t_bits line_1_5 1e-8%float 10 line_bracket
    = Returned 1.5%float
      (mkSolver1D 1.5%float 1%float 2%float (-0.5)%float 0.5%float 100%N 3%N)
      [1.5%float]) by (vm_compute; reflexivity).
  assert (Hz : PrimFloat.eqb (line_1_5 1.5) 0 = true) by (vm_compute; reflexivity).
  split; [exact H|]. split; [exact Hz|].
  exact (exact_zero_is_returned _ _ _ _ _ H Hz).
Defined.

Lemma returned_root_provenance_witness :
  let out := Returned 1.5%float
      (mkSolver1D 1.5%float 1%float 2%float (-2)%float 4%float 3%N 4%N)
      [1.5625%float; 1.625%float; 1.75%float; 1.5%float] in
  solveImpl size_t_bits cubic 0.1%float 10 (bracket_1_2 3 0) = out /\
  (1.5%float = 1.5%float /\
   (1.5%float = fst (policy_start (bracket_1_2 3 0)) \/
    (In 1.5%float [1.5625%float; 1.625%float; 1.75%float; 1.5%float] /\
     r_leb (cubic 1.5) r_zero = true))).
Proof.
  intros out.
  assert (H : solveImpl size_t_bits cubic 0.1%float 10 (bracket_1_2 3 0) = out)
    by (vm_compute; reflexivity).
  split; [exact H|].
  exact (returned_root_provenance _ _ _ _ _ H).
Defined.

Lemma returns_once_step_is_small_witness :
  let s := bracket_1_2 100 2 in
  (1 <= 4 <= 4)%nat /\
  PrimFloat.ltb (PrimFloat.abs (policy_step (snd (policy_start s)) 4))
                0.1%float = true /\
  (evaluationNumber_ s + N.of_nat 4 <= maxEvaluations_ s + 1)%N /\
  (maxEvaluations_ s < size_max size_t_bits)%N /\
  exists root s' log,
    solveImpl size_t_bits cubic 0.1%float 4 s = Returned root s' log /\
    (length log <= 4)%nat.
Proof.
  intros s. split; [lia|]. split; [vm_compute; reflexivity|].
  split; [vm_compute; discriminate|]. split; [vm_compute; reflexivity|].
  apply (@returns_once_step_is_small float Float64 size_t_bits cubic
           0.1%float 4 4 s);
    [lia | vm_compute; reflexivity | vm_compute; discriminate
    | vm_compute; reflexivity].
Defined.

End ConvergenceFacts.

(** ** The London calendar *)

Module LondonFacts.
Import London.
Local Open Scope Z_scope.

Lemma easterMonday_at_None table y :
  easterMonday_at table y = None <->
  (y < 1900 \/ 1900 + Z.of_nat (length table) <= y).
Proof.
  unfold easterMonday_at. destruct (y - 1900 <? 0) eqn:E.
  - apply Z.ltb_lt in E. split; [left; lia | reflexivity].
  - apply Z.ltb_ge in E. rewrite nth_error_None. lia.
Qed.

(** X5.  On a Saturday or Sunday the answer is "not a business day"
    for every table, even an empty one; and [isBusinessDay] reads the
    table outside its bounds exactly when the date is neither in the
    weekend nor a New Year holiday and its year is before 1900 or past
    the end of the table. *)
Theorem table_read_only_past_weekend_and_new_year table date :
  (is_weekend date = true -> isBusinessDay table date = Some false) /\
  (isBusinessDay table date = None <->
   weekend_or_new_year date = false /\
   (year date < 1900 \/ 1900 + Z.of_nat (length table) <= year date)).
Proof.
  split.
  - intros Hw. unfold isBusinessDay, weekend_or_new_year.
    unfold is_weekend in Hw. now rewrite Hw.
  - rewrite <- easterMonday_at_None. unfold isBusinessDay.
    destruct (weekend_or_new_year date).
    + split; [discriminate | intros [? _]; discriminate].
    + destruct (easterMonday_at table (year date)) as [em|].
      * split; [|intros [_ ?]; discriminate].
        destruct (_ || _); discriminate.
      * split; auto.
Qed.

(** Away from Good Friday and Easter Monday the fixed rules decide. *)
Lemma isBusinessDay_off_easter table date em :
  easterMonday_at table (year date) = Some em ->
  dayOfYear date <> em - 3 -> dayOfYear date <> em ->
  isBusinessDay table date
  = Some (negb (weekend_or_new_year date || fixed_holiday date)).
Proof.
  intros Ht H1 H2. unfold isBusinessDay. rewrite Ht.
  apply Z.eqb_neq in H1, H2. rewrite H1, H2.
  destruct (weekend_or_new_year date); [reflexivity|].
  cbn. now destruct (fixed_holiday date).
Qed.

Lemma weekday_holidays_off_easter table y m first w1 n em :
  easterMonday_at table y = Some em ->
  em < first \/ first + Z.of_nat n + 2 < em ->
  weekday_holidays table y m first w1 n
  = filter (fun d =>
              let date := month_day y m first w1 d in
              negb (is_weekend date)
              && (weekend_or_new_year date || fixed_holiday date))
           (seq 1 n).
Proof.
  intros Ht Hem. unfold weekday_holidays. apply filter_ext_in.
  intros d Hd. apply in_seq in Hd. unfold weekday_holiday. cbn zeta.
  rewrite (@isBusinessDay_off_easter table _ em); cbn [year dayOfYear month_day];
    try assumption; try lia.
  now destruct (_ || _).
Qed.

Lemma rules_year m first w1 d y y' :
  y <> 1999 -> y' <> 1999 ->
  (let date := month_day y m first w1 d in
   negb (is_weekend date)
   && (weekend_or_new_year date || fixed_holiday date))
  = (let date := month_day y' m first w1 d in
     negb (is_weekend date)
     && (weekend_or_new_year date || fixed_holiday date)).
Proof.
  intros H H'. cbn zeta.
  unfold fixed_holiday, weekend_or_new_year, is_weekend.
  cbn [year month_day weekday dayOfMonth month].
  apply Z.eqb_neq in H, H'. now rewrite H, H'.
Qed.

(** The list of weekday holidays of a month away from Easter, in a year
    other than 1999, is that of the same month of the year 2000. *)
Lemma weekday_holidays_by_rules table y m first w1 n em :
  easterMonday_at table y = Some em ->
  em < first \/ first + Z.of_nat n + 2 < em ->
  y <> 1999 ->
  weekday_holidays table y m first w1 n
  = filter (fun d =>
              let date := month_day 2000 m first w1 d in
              negb (is_weekend date)
              && (weekend_or_new_year date || fixed_holiday date))
           (seq 1 n).
Proof.
  intros Ht Hem Hy. rewrite (@weekday_holidays_off_easter table y m first w1 n em Ht Hem).
  apply filter_ext. intros d. apply rules_year; [assumption | lia].
Qed.

(** X6.  In a year other than 1999 whose Easter Monday is in the table
    and before December, the 25th and the 26th of December are never
    business days, and December has exactly two holidays on days of
    the working week, both between the 25th and the 28th, whatever the
    weekday on which the month begins. *)
Theorem december_has_two_weekday_holidays table y first w1 em :
  easterMonday_at table y = Some em -> em < first -> y <> 1999 ->
  isBusinessDay table (month_day y December first w1 25) = Some false /\
  isBusinessDay table (month_day y December first w1 26) = Some false /\
  exists a b,
    weekday_holidays table y December first w1 31 = [a; b] /\
    (25 <= a < b)%nat /\ (b <= 28)%nat.
Proof.
  intros Ht Hem Hy.
  split; [|split].
  - rewrite (@isBusinessDay_off_easter table _ em);
      cbn [year dayOfYear month_day]; try assumption; try lia.
    now destruct w1.
  - rewrite (@isBusinessDay_off_easter table _ em);
      cbn [year dayOfYear month_day]; try assumption; try lia.
    now destruct w1.
  - rewrite (@weekday_holidays_by_rules table y December first w1 31 em Ht
               (or_introl Hem) Hy).
    destruct w1; vm_compute; do 2 eexists; (split; [reflexivity | lia]).
Qed.

(** X7.  When Good Friday is after January, January has exactly one
    holiday on a day of the working week, on the 1st, 2nd or 3rd,
    whatever the weekday on which the year begins. *)
Theorem january_has_one_weekday_holiday table y w1 em :
  easterMonday_at table y = Some em -> 34 < em -> y <> 1999 ->
  exists a,
    weekday_holidays table y January 1 w1 31 = [a] /\ (1 <= a <= 3)%nat.
Proof.
  intros Ht Hem Hy.
  rewrite (@weekday_holidays_by_rules table y January 1 w1 31 em Ht);
    [| right; cbn; lia | assumption].
  destruct w1; vm_compute; eexists; (split; [reflexivity | lia]).
Qed.

(** X8.  When Easter Monday is before the month, May has exactly two
    holidays on days of the working week, a Monday in its first seven
    days and a Monday from the 25th on, and August exactly one, a
    Monday from the 25th on. *)
Theorem may_and_august_bank_holidays table y first w1 em :
  easterMonday_at table y = Some em -> em < first -> y <> 1999 ->
  (exists a b,
     weekday_holidays table y May first w1 31 = [a; b] /\
     (a <= 7)%nat /\ (25 <= b)%nat /\
     weekday_after w1 (pred a) = Monday /\
     weekday_after w1 (pred b) = Monday) /\
  (exists c,
     weekday_holidays table y August first w1 31 = [c] /\
     (25 <= c)%nat /\ weekday_after w1 (pred c) = Monday).
Proof.
  intros Ht Hem Hy. split.
  - rewrite (@weekday_holidays_by_rules table y May first w1 31 em Ht
               (or_introl Hem) Hy).
    destruct w1; vm_compute; do 2 eexists;
      (split; [reflexivity | repeat split; lia]).
  - rewrite (@weekday_holidays_by_rules table y August first w1 31 em Ht
               (or_introl Hem) Hy).
    destruct w1; vm_compute; eexists;
      (split; [reflexivity | repeat split; lia]).
Qed.

(** X9.  In the months other than January, May, August and December a
    day of the working week is a business day unless it is Good Friday
    or Easter Monday of the table. *)
Theorem only_easter_closes_other_months table date em :
  easterMonday_at table (year date) = Some em ->
  is_weekend date = false ->
  month date <> January -> month date <> May ->
  month date <> August -> month date <> December ->
  isBusinessDay table date
  = Some (negb ((dayOfYear date =? em - 3) || (dayOfYear date =? em))).
Proof.
  intros Ht Hw H1 H5 H8 H12. unfold isBusinessDay, weekend_or_new_year.
  unfold is_weekend in Hw. rewrite Hw, Ht.
  assert (Hf : fixed_holiday date = false).
  { unfold fixed_holiday. destruct (month date) eqn:E; try congruence;
      cbn [month_eqb]; now rewrite ?andb_false_r, ?orb_false_r. }
  rewrite Hf.
  assert (Hn : month_eqb (month date) January = false)
    by (destruct (month date) eqn:E; (congruence || reflexivity)).
  rewrite Hn, andb_false_r, !orb_false_r.
  now destruct (dayOfYear date =? em - 3), (dayOfYear date =? em).
Qed.

(** X10.  A 31st of December on a day of the working week is a
    business day in every year but 1999. *)
Theorem december_31_closed_in_1999_only table date em :
  easterMonday_at table (year date) = Some em ->
  dayOfYear date <> em - 3 -> dayOfYear date <> em ->
  is_weekend date = false ->
  dayOfMonth date = 31 -> month date = December ->
  isBusinessDay table date = Some (negb (year date =? 1999)).
Proof.
  intros Ht H1 H2 Hw Hd Hm.
  rewrite (@isBusinessDay_off_easter table date em Ht H1 H2).
  unfold weekend_or_new_year, fixed_holiday. unfold is_weekend in Hw.
  rewrite Hw, Hd, Hm. cbn.
  now rewrite ?andb_false_r, ?orb_false_r.
Qed.

Lemma december_has_two_weekday_holidays_witness :
  easterMonday_at sample_table 1900 = Some 106 /\ 106 < 335 /\
  1900 <> 1999 /\
  isBusinessDay sample_table (month_day 1900 December 335 Saturday 25)
  = Some false /\
  isBusinessDay sample_table (month_day 1900 December 335 Saturday 26)
  = Some false /\
  exists a b,
    weekday_holidays sample_table 1900 December 335 Saturday 31 = [a; b] /\
    (25 <= a < b)%nat /\ (b <= 28)%nat.
Proof.
  split; [reflexivity|]. split; [lia|]. split; [lia|].
  apply (@december_has_two_weekday_holidays sample_table 1900 335 Saturday
           106); [reflexivity | lia | lia].
Defined.

Lemma january_has_one_weekday_holiday_witness :
  easterMonday_at sample_table 1900 = Some 106 /\ 34 < 106 /\
  1900 <> 1999 /\
  exists a,
    weekday_holidays sample_table 1900 January 1 Monday 31 = [a] /\
    (1 <= a <= 3)%nat.
Proof.
  split; [reflexivity|]. split; [lia|]. split; [lia|].
  apply (@january_has_one_weekday_holiday sample_table 1900 Monday 106);
    [reflexivity | lia | lia].
Defined.

Lemma may_and_august_bank_holidays_witness :
  easterMonday_at sample_table 1900 = Some 106 /\ 106 < 121 /\
  1900 <> 1999 /\
  (exists a b,
     weekday_holidays sample_table 1900 May 121 Tuesday 31 = [a; b] /\
     (a <= 7)%nat /\ (25 <= b)%nat /\
     weekday_after Tuesday (pred a) = Monday /\
     weekday_after Tuesday (pred b) = Monday) /\
  (exists c,
     weekday_holidays sample_table 1900 August 121 Tuesday 31 = [c] /\
     (25 <= c)%nat /\ weekday_after Tuesday (pred c) = Monday).
Proof.
  split; [reflexivity|]. split; [lia|]. split; [lia|].
  apply (@may_and_august_bank_holidays sample_table 1900 121 Tuesday 106);
    [reflexivity | lia | lia].
Defined.

Lemma only_easter_closes_other_months_witness :
  let date := mkDate Wednesday 4 185 July 1900 in
  easterMonday_at sample_table (year date) = Some 106 /\
  is_weekend date = false /\
  month date <> January /\ month date <> May /\
  month date <> August /\ month date <> December /\
  isBusinessDay sample_table date
  = Some (negb ((dayOfYear date =? 106 - 3) || (dayOfYear date =? 106))).
Proof.
  intros date. split; [reflexivity|]. split; [reflexivity|].
  split; [discriminate|]. split; [discriminate|].
  split; [discriminate|]. split; [discriminate|].
  apply (@only_easter_closes_other_months sample_table date 106);
    [reflexivity | reflexivity | discriminate | discriminate | discriminate
    | discriminate].
Defined.

Lemma december_31_closed_in_1999_only_witness :
  let date := mkDate Friday 31 365 December 1999 in
  easterMonday_at flat_table (year date) = Some 95 /\
  dayOfYear date <> 95 - 3 /\ dayOfYear date <> 95 /\
  is_weekend date = false /\
  dayOfMonth date = 31 /\ month date = December /\
  isBusinessDay flat_table date = Some (negb (year date =? 1999)).
Proof.
  intros date. split; [reflexivity|]. split; [cbn; lia|].
  split; [cbn; lia|]. split; [reflexivity|]. split; [reflexivity|].
  split; [reflexivity|].
  apply (@december_31_closed_in_1999_only flat_table date 95);
    [reflexivity | cbn; lia | cbn; lia | reflexivity | reflexivity
    | reflexivity].
Defined.

End LondonFacts.

(** ** The bond functions *)

Module BondFacts.
Import BondFunctions.

Section Bonds.

Context {Real : Type} {ops : RealOps Real} {muldiv : RealMulDiv Real}.
Variables Date Leg InterestRate DayCounter Compounding Frequency DurationType
          E : Type.
Variable null_date : Date.
Variable date_eq_dec : forall a b : Date, {a = b} + {a <> b}.
Variable CF : CashFlows Real Date Leg InterestRate DayCounter Compounding
                        Frequency DurationType E.
Implicit Types bond : Bond Real Date Leg E.

Local Abbreviation defaulted := (defaulted null_date date_eq_dec).
Local Abbreviation isTradable := (isTradable null_date date_eq_dec).

Lemma defaulted_idem bond st :
  defaulted bond (defaulted bond st) = defaulted bond st.
Proof.
  unfold BondFunctions.defaulted.
  destruct (date_eq_dec st null_date) as [->|Hn].
  - now destruct (date_eq_dec (settlementDate bond) null_date).
  - now destruct (date_eq_dec st null_date).
Qed.

Lemma defaulted_null bond :
  defaulted bond null_date = defaulted bond (settlementDate bond).
Proof.
  unfold BondFunctions.defaulted.
  destruct (date_eq_dec null_date null_date) as [_|Hn]; [|congruence].
  now destruct (date_eq_dec (settlementDate bond) null_date).
Qed.

Lemma isTradable_defaulted bond st :
  isTradable bond (defaulted bond st) = isTradable bond st.
Proof. unfold BondFunctions.isTradable. now rewrite defaulted_idem. Qed.

Lemma require_refuses bond st :
  isTradable bond st = false ->
  require_tradable null_date date_eq_dec bond (defaulted bond st)
  = Err (NonTradable E (defaulted bond st)).
Proof.
  intros H. unfold require_tradable. now rewrite isTradable_defaulted, H.
Qed.

Lemma require_accepts bond st :
  isTradable bond st = true ->
  require_tradable null_date date_eq_dec bond (defaulted bond st) = Ok tt.
Proof.
  intros H. unfold require_tradable. now rewrite isTradable_defaulted, H.
Qed.

(** X11.  At a settlement date (the bond's own when the null date is
    given) where the notional compares equal to zero, the accrual,
    price, yield and risk functions all fail with "non tradable",
    whatever [CashFlows] would have answered. *)
Theorem non_tradable_is_refused bond st y dc comp freq ty cp acc n g :
  isTradable bond st = false ->
  let refused A : result Date E A := Err (NonTradable E (defaulted bond st)) in
  accrualStartDate null_date date_eq_dec CF bond st = refused _ /\
  accruedAmount null_date date_eq_dec CF bond st = refused _ /\
  cleanPrice null_date date_eq_dec CF bond y st = refused _ /\
  bps null_date date_eq_dec CF bond y st = refused _ /\
  yield null_date date_eq_dec CF bond cp dc comp freq st acc n g = refused _ /\
  duration null_date date_eq_dec CF bond y ty st = refused _ /\
  convexity null_date date_eq_dec CF bond y st = refused _ /\
  basisPointValue null_date date_eq_dec CF bond y st = refused _ /\
  yieldValueBasisPoint null_date date_eq_dec CF bond y st = refused _.
Proof.
  intros H refused.
  unfold accrualStartDate, accruedAmount, cleanPrice, bps, yield, duration,
    convexity, basisPointValue, yieldValueBasisPoint.
  cbn zeta. rewrite (require_refuses _ _ H). repeat split.
Qed.

(** X12.  The null date stands for the bond's settlement date: the
    functions that default the date give the same result for both, the
    [Rate] overloads that pass through an [InterestRate] overload
    included. *)
Theorem null_settlement_is_bond_settlement bond y dc comp freq ty cp acc n g r :
  let sd := settlementDate bond in
  isTradable bond null_date = isTradable bond sd /\
  nextCashFlowDate null_date date_eq_dec CF bond null_date
  = nextCashFlowDate null_date date_eq_dec CF bond sd /\
  accruedAmount null_date date_eq_dec CF bond null_date
  = accruedAmount null_date date_eq_dec CF bond sd /\
  cleanPrice null_date date_eq_dec CF bond y null_date
  = cleanPrice null_date date_eq_dec CF bond y sd /\
  cleanPrice_rate null_date date_eq_dec CF bond r dc comp freq null_date
  = cleanPrice_rate null_date date_eq_dec CF bond r dc comp freq sd /\
  yield null_date date_eq_dec CF bond cp dc comp freq null_date acc n g
  = yield null_date date_eq_dec CF bond cp dc comp freq sd acc n g /\
  duration_rate null_date date_eq_dec CF bond r dc comp freq ty null_date
  = duration_rate null_date date_eq_dec CF bond r dc comp freq ty sd /\
  basisPointValue null_date date_eq_dec CF bond y null_date
  = basisPointValue null_date date_eq_dec CF bond y sd.
Proof.
  intros sd.
  unfold BondFunctions.isTradable, nextCashFlowDate, accruedAmount,
    cleanPrice_rate, cleanPrice, yield, duration_rate, duration,
    basisPointValue.
  cbn zeta. rewrite (defaulted_null bond). repeat split.
Qed.

(** X13.  The [Rate] overloads of [basisPointValue] and
    [yieldValueBasisPoint] do not check that the bond is tradable: on a
    bond that is not, they return what [CashFlows] answers, while their
    [InterestRate] overloads, and the [Rate] overloads of [duration],
    [convexity], [bps] and [cleanPrice], fail with "non tradable". *)
Theorem rate_overloads_of_basis_point_skip_the_check
    bond st r dc comp freq ty y v v' :
  isTradable bond st = false ->
  interestRate CF r dc comp freq = Ok y ->
  cf_basisPointValue CF (cashflows bond) y false st = Ok v ->
  cf_yieldValueBasisPoint CF (cashflows bond) y false st = Ok v' ->
  let refused : result Date E Real :=
    Err (NonTradable E (defaulted bond st)) in
  basisPointValue null_date date_eq_dec CF bond y st = refused /\
  basisPointValue_rate CF bond r dc comp freq st = Ok v /\
  yieldValueBasisPoint null_date date_eq_dec CF bond y st = refused /\
  yieldValueBasisPoint_rate CF bond r dc comp freq st = Ok v' /\
  duration_rate null_date date_eq_dec CF bond r dc comp freq ty st = refused /\
  convexity_rate null_date date_eq_dec CF bond r dc comp freq st = refused /\
  bps_rate null_date date_eq_dec CF bond r dc comp freq st = refused /\
  cleanPrice_rate null_date date_eq_dec CF bond r dc comp freq st = refused.
Proof.
  intros H Hy Hv Hv' refused.
  unfold basisPointValue_rate, yieldValueBasisPoint_rate, duration_rate,
    convexity_rate, bps_rate, cleanPrice_rate.
  rewrite Hy. cbn [bind]. rewrite Hv, Hv'.
  unfold basisPointValue, yieldValueBasisPoint, duration, convexity, bps,
    cleanPrice.
  cbn zeta. rewrite (require_refuses _ _ H). repeat split.
Qed.

(** X14.  At a settlement date that is not the null date and where the
    bond is tradable, the [Rate] overloads of [basisPointValue] and
    [yieldValueBasisPoint] agree with their [InterestRate] overloads. *)
Theorem rate_overloads_agree_when_tradable bond st r dc comp freq y :
  st <> null_date -> isTradable bond st = true ->
  interestRate CF r dc comp freq = Ok y ->
  basisPointValue_rate CF bond r dc comp freq st
  = basisPointValue null_date date_eq_dec CF bond y st /\
  yieldValueBasisPoint_rate CF bond r dc comp freq st
  = yieldValueBasisPoint null_date date_eq_dec CF bond y st.
Proof.
  intros Hn H Hy.
  unfold basisPointValue_rate, yieldValueBasisPoint_rate, basisPointValue,
    yieldValueBasisPoint.
  rewrite Hy. cbn [bind]. cbn zeta. rewrite (require_accepts _ _ H).
  cbn [bind]. unfold BondFunctions.defaulted.
  destruct (date_eq_dec st null_date); [congruence|]. now split.
Qed.

End Bonds.

(** The sample bond after its redemption, on day 150. *)
Lemma non_tradable_is_refused_witness :
  isTradable 0%Z Z.eq_dec sample_bond 150%Z = false /\
  accruedAmount 0%Z Z.eq_dec sample_cashflows sample_bond 150%Z
  = Err (NonTradable unit 150%Z) /\
  yield 0%Z Z.eq_dec sample_cashflows sample_bond 100%float tt tt tt 150%Z
        0.001%float 100%N 0.05%float
  = Err (NonTradable unit 150%Z).
Proof.
  assert (H : isTradable 0%Z Z.eq_dec sample_bond 150%Z = false)
    by reflexivity.
  split; [exact H|].
  pose proof (non_tradable_is_refused 0%Z Z.eq_dec
                sample_cashflows sample_bond 150%Z 0.05%float tt tt tt tt
                100%float 0.001%float 100%N 0.05%float H) as T.
  cbn zeta in T. destruct T as (_ & T2 & _ & _ & T5 & _).
  split; [exact T2 | exact T5].
Defined.

Lemma rate_overloads_of_basis_point_skip_the_check_witness :
  isTradable 0%Z Z.eq_dec sample_bond 150%Z = false /\
  interestRate sample_cashflows 0.05%float tt tt tt = Ok 0.05%float /\
  cf_basisPointValue sample_cashflows (cashflows sample_bond) 0.05%float
                     false 150%Z = Ok (-0.01)%float /\
  cf_yieldValueBasisPoint sample_cashflows (cashflows sample_bond)
                          0.05%float false 150%Z = Ok 0.0001%float /\
  basisPointValue 0%Z Z.eq_dec sample_cashflows sample_bond 0.05%float 150%Z
  = Err (NonTradable unit 150%Z) /\
  basisPointValue_rate sample_cashflows sample_bond 0.05%float tt tt tt 150%Z
  = Ok (-0.01)%float /\
  duration_rate 0%Z Z.eq_dec sample_cashflows sample_bond 0.05%float
                tt tt tt tt 150%Z
  = Err (NonTradable unit 150%Z).
Proof.
  assert (H : isTradable 0%Z Z.eq_dec sample_bond 150%Z = false)
    by reflexivity.
  split; [exact H|]. split; [reflexivity|]. split; [reflexivity|].
  split; [reflexivity|].
  pose proof (rate_overloads_of_basis_point_skip_the_check
                0%Z Z.eq_dec
                sample_cashflows sample_bond 150%Z 0.05%float tt tt tt tt
                (y := 0.05%float) (v := (-0.01)%float)
                (v' := 0.0001%float)
                H eq_refl eq_refl eq_refl) as T.
  cbn zeta in T. destruct T as (T1 & T2 & _ & _ & T5 & _).
  split; [exact T1|]. split; [exact T2 | exact T5].
Defined.

Lemma rate_overloads_agree_when_tradable_witness :
  20%Z <> 0%Z /\
  isTradable 0%Z Z.eq_dec sample_bond 20%Z = true /\
  interestRate sample_cashflows 0.05%float tt tt tt = Ok 0.05%float /\
  basisPointValue_rate sample_cashflows sample_bond 0.05%float tt tt tt 20%Z
  = basisPointValue 0%Z Z.eq_dec sample_cashflows sample_bond 0.05%float 20%Z /\
  yieldValueBasisPoint_rate sample_cashflows sample_bond 0.05%float tt tt tt
                            20%Z
  = yieldValueBasisPoint 0%Z Z.eq_dec sample_cashflows sample_bond 0.05%float
                         20%Z.
Proof.
  split; [discriminate|]. split; [reflexivity|]. split; [reflexivity|].
  apply (rate_overloads_agree_when_tradable (null_date := 0%Z)
           Z.eq_dec sample_cashflows sample_bond (st := 20%Z) 0.05%float
           tt tt tt (y := 0.05%float));
    [discriminate | reflexivity | reflexivity].
Defined.

End BondFacts.
